(** * SwapLiT indexer and router: routing engine, event indexer, AMM quotes

    Shallow embedding of
    - the Express server [src/Ethereum/Indexer/src/server.ts] (routing
      endpoints and their helpers),
    - the event indexer (PairCreated and Swap handlers) together with the
      Prisma migration that declares the unique address indexes,
    - the Solidity views [AMM.getQuantityOut] and
      [AMMRouter.getAmountsOut].

    Conventions.  Token and pool addresses are [string]s, as the
    TypeScript code has them.  A JS [Map] that is only read with
    [get]/[has] is a [gmap]; a [Map] whose iteration order is observed is
    an association list.  [bigint] and [uint256] values are [Z]; Solidity
    checked arithmetic returns [None] where the EVM reverts.  A thrown JS
    exception or a rejected promise is [None] or an explicit error
    outcome.  JS numbers are modelled by the integers they denote; the
    rounding of doubles above 2^53 is not modelled.  Timestamps
    ([createdAt]) are left out of the rows. *)

From Stdlib Require Import ZArith Lia Ascii.
From stdpp Require Import gmap strings list pretty.

Local Open Scope Z_scope.

(** ** JavaScript primitives the sources rely on *)

Module Js.

(** [x.toString()] for a bigint [x]: its decimal numeral. *)
Definition bigint_toString (x : Z) : string := pretty x.

(** [a || b] on strings: the empty string is the only falsy string. *)
Definition or_string (a b : string) : string :=
  if decide (a = "") then b else a.

(** [x || d] on numbers: [NaN] (here [None]) and [0] are falsy. *)
Definition or_number (x : option Z) (d : Z) : Z :=
  match x with
  | Some n => if decide (n = 0) then d else n
  | None => d
  end.

(** White space skipped by [parseInt]: TAB, LF, VT, FF, CR and SPACE
    (the ASCII part of [StrWhiteSpaceChar]). *)
Definition is_whitespace (c : Ascii.ascii) : bool :=
  let n := Ascii.nat_of_ascii c in
  bool_decide (n = 9 ∨ n = 10 ∨ n = 11 ∨ n = 12 ∨ n = 13 ∨ n = 32)%nat.

Fixpoint trim_start (s : string) : string :=
  match s with
  | String c s' => if is_whitespace c then trim_start s' else s
  | EmptyString => EmptyString
  end.

(** Value of [c] as a digit in [radix], if it is one. *)
Definition digit_of (radix : Z) (c : Ascii.ascii) : option Z :=
  let n := Z.of_nat (Ascii.nat_of_ascii c) in
  let v :=
    if bool_decide (48 ≤ n ≤ 57) then Some (n - 48)
    else if bool_decide (97 ≤ n ≤ 122) then Some (n - 87)
    else if bool_decide (65 ≤ n ≤ 90) then Some (n - 55)
    else None in
  match v with
  | Some d => if bool_decide (d < radix) then Some d else None
  | None => None
  end.

(** Longest prefix of radix-[radix] digits, as a number; [acc] is [None]
    until the first digit has been read. *)
Fixpoint parse_digits (radix : Z) (acc : option Z) (s : string) : option Z :=
  match s with
  | String c s' =>
      match digit_of radix c with
      | Some d => parse_digits radix (Some (default 0 acc * radix + d)) s'
      | None => acc
      end
  | EmptyString => acc
  end.

Definition strip_sign (s : string) : Z * string :=
  match s with
  | String "-"%char r => (-1, r)
  | String "+"%char r => (1, r)
  | _ => (1, s)
  end.

Definition strip_hex_prefix (s : string) : Z * string :=
  match s with
  | String "0"%char (String "x"%char r) => (16, r)
  | String "0"%char (String "X"%char r) => (16, r)
  | _ => (10, s)
  end.

(** [parseInt(s)] with no radix argument; [None] is [NaN]. *)
Definition parseInt (s : string) : option Z :=
  let '(sign, s1) := strip_sign (trim_start s) in
  let '(radix, s2) := strip_hex_prefix s1 in
  (λ n, sign * n) <$> parse_digits radix None s2.

Fixpoint all_decimal (s : string) : bool :=
  match s with
  | String c s' => bool_decide (is_Some (digit_of 10 c)) && all_decimal s'
  | EmptyString => true
  end.

(** [Number(s)] on the strings the indexer and the examples use: the
    empty string (which is 0) and an optional sign followed by decimal
    digits.  Every other string is mapped to [None] ([NaN]); the other
    numeric literal forms of JS do not occur in the stored amounts. *)
Definition Number (s : string) : option Z :=
  if decide (s = "") then Some 0
  else
    let '(sign, digits) := strip_sign s in
    if all_decimal digits
    then (λ n, sign * n) <$> parse_digits 10 None digits
    else None.

(** [x + y] on numbers, with [NaN] absorbing. *)
Definition add_number (x y : option Z) : option Z :=
  match x, y with
  | Some a, Some b => Some (a + b)
  | _, _ => None
  end.

End Js.

(** ** Rows of the relational store (Prisma migration) *)

Module Schema.

Record Token := {
  tok_id : Z;
  tok_address : string;
  tok_symbol : string;
  tok_name : option string;
  tok_decimals : Z
}.

Record Pool := {
  pool_id : Z;
  pool_address : string;
  pool_tokenAId : Z;
  pool_tokenBId : Z
}.

Record Liquidity := {
  liq_id : Z;
  liq_poolId : Z;
  liq_provider : string;
  liq_amountA : string;
  liq_amountB : string
}.

Record Swap := {
  swap_id : Z;
  swap_poolId : Z;
  swap_trader : string;
  swap_amountIn : string;
  swap_amountOut : string;
  swap_tokenIn : string;
  swap_tokenOut : string
}.

(** A pool row as [findMany({ include: { tokenA: true, tokenB: true } })]
    returns it. *)
Record PoolWithTokens := {
  pw_pool : Pool;
  pw_tokenA : Token;
  pw_tokenB : Token
}.

End Schema.

Import Schema.

(** ** Token graph, path enumeration and route evaluation
    (helper functions of [server.ts]) *)

Module Routing.

(** A path is the array of token addresses the BFS queue carries. *)
Abbreviation Path := (list string).

(** [Map<string, string[]>]: token address to adjacency array. *)
Abbreviation Graph := (gmap string (list string)).

(** [pool.tokenA.address] and [pool.tokenB.address]. *)
Definition tokenA_address (pool : PoolWithTokens) : string :=
  tok_address (pw_tokenA pool).
Definition tokenB_address (pool : PoolWithTokens) : string :=
  tok_address (pw_tokenB pool).

(** [if (!graph.has(t)) graph.set(t, [])] *)
Definition graph_ensure (t : string) (g : Graph) : Graph :=
  match g !! t with
  | Some _ => g
  | None => <[t := []]> g
  end.

(** [graph.get(t).push(n)]: the array stored under [t] is extended in
    place.  The key is always present when this runs, because
    [graph_ensure] ran just before. *)
Definition graph_push (t n : string) (g : Graph) : Graph :=
  alter (λ l, l ++ [n]) t g.

(** Body of the [for (const pool of pools)] loop of [buildTokenGraph]. *)
Definition graph_add_pool (g : Graph) (pool : PoolWithTokens) : Graph :=
  let tokenA := tokenA_address pool in
  let tokenB := tokenB_address pool in
  graph_push tokenB tokenA
    (graph_push tokenA tokenB
       (graph_ensure tokenB (graph_ensure tokenA g))).

Definition buildTokenGraph (pools : list PoolWithTokens) : Graph :=
  foldl graph_add_pool ∅ pools.

(** [graph.get(currentNode) || []], where [currentNode] is the last
    element of the current path ([undefined] for an empty array, which
    no key of the map equals). *)
Definition neighbors_of (g : Graph) (currentPath : Path) : list string :=
  match last currentPath with
  | Some currentNode => default [] (g !! currentNode)
  | None => []
  end.

(** [currentPath.join(',')] *)
Definition pathKey (currentPath : Path) : string :=
  String.concat "," currentPath.

(** The three mutable locals of [findAllPathsBFS]. *)
Record bfs_state := {
  queue : list Path;
  visited : gset string;
  paths : list Path
}.

(** One round of the [while] loop after [queue.shift()] returned
    [currentPath]; [st] holds the queue that is left. *)
Definition bfs_iter (g : Graph) (stop : string) (maxDepth : Z)
    (currentPath : Path) (st : bfs_state) : bfs_state :=
  if bool_decide (maxDepth + 1 < Z.of_nat (length currentPath)) then st
  else if bool_decide (last currentPath = Some stop)
          && bool_decide (1 < length currentPath)%nat then
    {| queue := queue st; visited := visited st;
       paths := paths st ++ [currentPath] |}
  else if bool_decide (pathKey currentPath ∈ visited st) then st
  else
    {| queue := queue st ++
         ((λ neighbor, currentPath ++ [neighbor]) <$>
            filter (λ neighbor, neighbor ∉ currentPath)
              (neighbors_of g currentPath));
       visited := {[pathKey currentPath]} ∪ visited st;
       paths := paths st |}.

(** The [while (queue.length > 0)] loop, with a bound on the number of
    rounds; [None] means the bound was reached before the queue
    emptied. *)
Fixpoint bfs_loop (fuel : nat) (g : Graph) (stop : string) (maxDepth : Z)
    (st : bfs_state) : option (list Path) :=
  match queue st with
  | [] => Some (paths st)
  | currentPath :: rest =>
      match fuel with
      | O => None
      | S fuel' =>
          bfs_loop fuel' g stop maxDepth
            (bfs_iter g stop maxDepth currentPath
               {| queue := rest; visited := visited st; paths := paths st |})
      end
  end.

(** Largest adjacency array of the graph. *)
Definition max_degree (g : Graph) : nat :=
  max_list (length <$> (map_to_list g).*2).

(** Size bound of the search tree below a path that may still grow by
    [k] tokens, when no node has more than [d] neighbours. *)
Fixpoint tree_bound (d k : nat) : nat :=
  match k with
  | O => 1
  | S k' => 1 + d * tree_bound d k'
  end.

(** Number of loop rounds that always suffices (see
    [bfs_loop_enough_fuel]). *)
Definition bfs_fuel (g : Graph) (maxDepth : Z) : nat :=
  tree_bound (max_degree g) (Z.to_nat (maxDepth + 1)).

Definition bfs_init (start : string) : bfs_state :=
  {| queue := [[start]]; visited := ∅; paths := [] |}.

(** [findAllPathsBFS(graph, start, end, maxDepth)].  The loop is run
    for [bfs_fuel] rounds, which is always enough for the queue to
    empty ([findAllPathsBFS_run] below), so the default is never used. *)
Definition findAllPathsBFS (g : Graph) (start stop : string) (maxDepth : Z)
    : list Path :=
  default [] (bfs_loop (bfs_fuel g maxDepth) g stop maxDepth (bfs_init start)).

(** One element of the array [findAllPaths] returns. *)
Record PathSummary := {
  ps_path : Path;
  ps_hops : Z;
  ps_tokens : Z
}.

(** [findAllPaths(tokenA, tokenB, maxHops)], given the rows that
    [prisma.pool.findMany] returned. *)
Definition findAllPaths (pools : list PoolWithTokens) (tokenA tokenB : string)
    (maxHops : Z) : list PathSummary :=
  let graph := buildTokenGraph pools in
  let allPaths := findAllPathsBFS graph tokenA tokenB maxHops in
  (λ path, {| ps_path := path;
              ps_hops := Z.of_nat (length path) - 1;
              ps_tokens := Z.of_nat (length path) |}) <$> allPaths.

(** [estimateMultiHopGas(path, amountIn)]: only [path.length] is read.
    The arithmetic in its [try] block cannot throw, so the fallback of
    the [catch] block is never returned. *)
Definition estimateMultiHopGas {A} (path : list A) : Z :=
  let baseGas := 60000 in
  let gasPerHop := 120000 in
  let hops := Z.of_nat (length path) - 1 in
  baseGas + gasPerHop * hops.

(** One entry of [paths.allPaths], and the shape of [paths.direct] and
    [paths.optimal].  [expectedOutput] and [gasEstimate] are the numbers
    whose decimal strings the code stores. *)
Record Route := {
  path : Path;
  expectedOutput : Z;
  hops : Z;
  gasEstimate : Z
}.

(** The object [findOptimalPath] returns ([gasEstimates] is always the
    empty object and is left out). *)
Record RoutingResult := {
  direct : option Route;
  optimal : option Route;
  allPaths : list Route
}.

(** Locals of the evaluation loop of [findOptimalPath]. *)
Record eval_state := {
  bestPath : option Path;
  bestOutput : Z;
  ev_direct : option Route;
  ev_allPaths : list Route
}.

(** [router.getAmountsOut(testAmount, path)] as seen from the server:
    the array of hop amounts, or [None] when the call throws. *)
Definition Router := string → Path → option (list Z).

(** Body of [for (const path of allPaths)].  A throwing quote, or an
    empty [amounts] array (whose last element is [undefined]), lands in
    the [catch] and leaves the state as it was.  [output > bestOutput]
    compares the bigint with the decimal string numerically. *)
Definition eval_path (router : Router) (testAmount : string)
    (st : eval_state) (p : Path) : eval_state :=
  match router testAmount p with
  | None => st
  | Some amounts =>
      match last amounts with
      | None => st
      | Some output =>
          let entry := {| path := p; expectedOutput := output;
                          hops := Z.of_nat (length p) - 1;
                          gasEstimate := estimateMultiHopGas p |} in
          let better := bool_decide (bestOutput st < output) in
          {| bestPath := if better then Some p else bestPath st;
             bestOutput := if better then output else bestOutput st;
             ev_direct :=
               if bool_decide (length p = 2%nat)
               then Some {| path := p; expectedOutput := output; hops := 1;
                            gasEstimate := estimateMultiHopGas p |}
               else ev_direct st;
             ev_allPaths := ev_allPaths st ++ [entry] |}
      end
  end.

Definition eval_init : eval_state :=
  {| bestPath := None; bestOutput := 0; ev_direct := None; ev_allPaths := [] |}.

(** [findOptimalPath(tokenA, tokenB, testAmount)], given the rows that
    [prisma.pool.findMany] returned. *)
Definition findOptimalPath (router : Router) (pools : list PoolWithTokens)
    (tokenA tokenB : string) (testAmount : string) : RoutingResult :=
  let graph := buildTokenGraph pools in
  let found := findAllPathsBFS graph tokenA tokenB 4 in
  if bool_decide (length found = 0%nat) then
    {| direct := None; optimal := None; allPaths := [] |}
  else
    let st := foldl (eval_path router testAmount) eval_init found in
    {| direct := ev_direct st;
       optimal :=
         match bestPath st with
         | Some bp =>
             Some {| path := bp; expectedOutput := bestOutput st;
                     hops := Z.of_nat (length bp) - 1;
                     gasEstimate := estimateMultiHopGas bp |}
         | None => None
         end;
       allPaths := ev_allPaths st |}.

End Routing.

Import Routing.


(** ** The on-chain quote views ([AMM.sol], [AMMRouter.sol]) *)

Module Amm.

(** Solidity [address] values, written as the strings the server passes. *)
Abbreviation address := string.

Definition address_zero : address :=
  "0x0000000000000000000000000000000000000000".

Definition uint256_max : Z := 2 ^ 256 - 1.

(** Checked [uint256] arithmetic of Solidity 0.8: [None] is a revert. *)
Definition checked_add (a b : Z) : option Z :=
  if bool_decide (a + b ≤ uint256_max) then Some (a + b) else None.
Definition checked_mul (a b : Z) : option Z :=
  if bool_decide (a * b ≤ uint256_max) then Some (a * b) else None.
Definition checked_sub (a b : Z) : option Z :=
  if bool_decide (b ≤ a) then Some (a - b) else None.
Definition checked_div (a b : Z) : option Z :=
  if bool_decide (b = 0) then None else Some (a / b).

(** Storage of one [AMM] pair contract. *)
Record AMM := {
  token0 : address;
  token1 : address;
  reserve0 : Z;
  reserve1 : Z
}.

(** What the router reads: the factory's [getPair] mapping and the pair
    contracts deployed at each address. *)
Record Chain := {
  getPair : address → address → address;
  amm_at : address → option AMM
}.

(** [AMM.getQuantityOut(tokenIn, amountIn)] *)
Definition getQuantityOut (amm : AMM) (tokenIn : address) (amountIn : Z)
    : option Z :=
  if negb (bool_decide (0 < amountIn)) then None
  else if negb (bool_decide (tokenIn = token0 amm ∨ tokenIn = token1 amm))
  then None
  else if bool_decide (tokenIn = token0 amm) then
    prod ← checked_mul (reserve0 amm) (reserve1 amm);
    sum ← checked_add (reserve0 amm) amountIn;
    quot ← checked_div prod sum;
    checked_sub (reserve1 amm) quot
  else
    prod ← checked_mul (reserve1 amm) (reserve0 amm);
    sum ← checked_add (reserve1 amm) amountIn;
    quot ← checked_div prod sum;
    checked_sub (reserve0 amm) quot.

(** [AMMRouter._pairFor(a, b)] *)
Definition _pairFor (c : Chain) (a b : address) : option address :=
  let p := getPair c a b in
  if bool_decide (p = address_zero) then None else Some p.

(** [AMMRouter.getAmountOut(amountIn, tokenIn, tokenOut)]; a call to an
    address that holds no pair contract reverts. *)
Definition getAmountOut (c : Chain) (amountIn : Z) (tokenIn tokenOut : address)
    : option Z :=
  pair ← _pairFor c tokenIn tokenOut;
  amm ← amm_at c pair;
  getQuantityOut amm tokenIn amountIn.

(** The [for] loop of [getAmountsOut]: [n] rounds are left, [i] is the
    loop index, [amounts] the array filled so far. *)
Fixpoint getAmountsOut_loop (c : Chain) (path : list address) (n i : nat)
    (amounts : list Z) : option (list Z) :=
  match n with
  | O => Some amounts
  | S n' =>
      a ← amounts !! i;
      tokenIn ← path !! i;
      tokenOut ← path !! S i;
      out ← getAmountOut c a tokenIn tokenOut;
      getAmountsOut_loop c path n' (S i) (<[S i := out]> amounts)
  end.

(** [AMMRouter.getAmountsOut(amountIn, path)] *)
Definition getAmountsOut (c : Chain) (amountIn : Z) (path : list address)
    : option (list Z) :=
  if bool_decide (length path < 2)%nat then None
  else
    getAmountsOut_loop c path (length path - 1) 0
      (<[0%nat := amountIn]> (replicate (length path) 0)).

(** The reserves held in storage are [uint256] values. *)
Definition valid_amm (amm : AMM) : Prop :=
  0 ≤ reserve0 amm ≤ uint256_max ∧ 0 ≤ reserve1 amm ≤ uint256_max.

Definition valid_chain (c : Chain) : Prop :=
  ∀ a amm, amm_at c a = Some amm → valid_amm amm.

(** The router as the server calls it through ethers: the decimal
    amount string is encoded as a [uint256] and the call result decoded;
    any failure surfaces as a thrown error. *)
Definition chain_router (c : Chain) : Router :=
  λ testAmount path,
    amountIn ← Js.Number testAmount;
    getAmountsOut c amountIn path.

End Amm.

(** ** The event indexer (PairCreated and Swap handlers) *)

Module Indexer.

(** The tables, each with the last value its [SERIAL] sequence issued. *)
Record Db := {
  tokens : list Token;
  pools : list Pool;
  swaps : list Swap;
  token_seq : Z;
  pool_seq : Z;
  swap_seq : Z
}.

(** Result of [getTokenMeta(address)]. *)
Record TokenMeta := {
  meta_symbol : string;
  meta_decimals : Z;
  meta_name : option string
}.

(** [prisma.pool.findUnique({ where: { address } })] *)
Definition find_pool (db : Db) (address : string) : option Pool :=
  List.find (λ p, bool_decide (pool_address p = address)) (pools db).

Definition find_token (db : Db) (address : string) : option Token :=
  List.find (λ t, bool_decide (tok_address t = address)) (tokens db).

(** [prisma.token.upsert({ where: { address }, update: {}, create })]:
    an existing row is returned untouched. *)
Definition token_upsert (db : Db) (address : string) (meta : TokenMeta)
    : Db * Token :=
  match find_token db address with
  | Some t => (db, t)
  | None =>
      let t := {| tok_id := token_seq db + 1; tok_address := address;
                  tok_symbol := meta_symbol meta; tok_name := meta_name meta;
                  tok_decimals := meta_decimals meta |} in
      ({| tokens := tokens db ++ [t]; pools := pools db; swaps := swaps db;
          token_seq := token_seq db + 1; pool_seq := pool_seq db;
          swap_seq := swap_seq db |}, t)
  end.

(** [prisma.pool.create({ data })]: the unique index [Pool_address_key]
    rejects a second row with the same address ([None]); the sequence
    value drawn for the rejected row is not given back. *)
Definition pool_create (db : Db) (address : string) (tokenAId tokenBId : Z)
    : Db * option Pool :=
  let id := pool_seq db + 1 in
  match find_pool db address with
  | Some _ =>
      ({| tokens := tokens db; pools := pools db; swaps := swaps db;
          token_seq := token_seq db; pool_seq := id;
          swap_seq := swap_seq db |}, None)
  | None =>
      let p := {| pool_id := id; pool_address := address;
                  pool_tokenAId := tokenAId; pool_tokenBId := tokenBId |} in
      ({| tokens := tokens db; pools := pools db ++ [p]; swaps := swaps db;
          token_seq := token_seq db; pool_seq := id;
          swap_seq := swap_seq db |}, Some p)
  end.

(** The indexer process: the store and the pairs a listener is attached
    to. *)
Record State := {
  db : Db;
  listening : list string
}.

Inductive HandlerError :=
  | MetadataCallFailed
  | UniqueConstraintFailed (index : string).

Inductive Outcome :=
  | Completed
  | Rejected (err : HandlerError).

(** The [factory.on("PairCreated", ...)] callback.  It has no
    [try]/[catch]: an error thrown by a step rejects the callback's
    promise and the later steps do not run. *)
Definition onPairCreated (getTokenMeta : string → option TokenMeta)
    (st : State) (tokenA tokenB pair : string) : State * Outcome :=
  match getTokenMeta tokenA, getTokenMeta tokenB with
  | Some metaA, Some metaB =>
      let '(db1, tA) := token_upsert (db st) tokenA metaA in
      let '(db2, tB) := token_upsert db1 tokenB metaB in
      match pool_create db2 pair (tok_id tA) (tok_id tB) with
      | (db3, Some _) =>
          ({| db := db3; listening := listening st ++ [pair] |}, Completed)
      | (db3, None) =>
          ({| db := db3; listening := listening st |},
           Rejected (UniqueConstraintFailed "Pool_address_key"))
      end
  | _, _ => (st, Rejected MetadataCallFailed)
  end.

(** Arguments of a [Swap] event as the listener receives them. *)
Record SwapEvent := {
  sender : string;
  amount0In : Z;
  amount1In : Z;
  amount0Out : Z;
  amount1Out : Z;
  to : string
}.

(** The row the [Swap] listener hands to [prisma.swap.create]. *)
Definition swap_row (id poolId : Z) (ev : SwapEvent) : Swap :=
  {| swap_id := id;
     swap_poolId := poolId;
     swap_trader := sender ev;
     swap_amountIn :=
       Js.or_string (Js.bigint_toString (amount0In ev))
                    (Js.bigint_toString (amount1In ev));
     swap_amountOut :=
       Js.or_string (Js.bigint_toString (amount0Out ev))
                    (Js.bigint_toString (amount1Out ev));
     swap_tokenIn := if bool_decide (0 < amount0In ev) then "token0" else "token1";
     swap_tokenOut := if bool_decide (0 < amount0Out ev) then "token0" else "token1" |}.

(** The [pair.on("Swap", ...)] callback for the pair at [pairAddress].
    When no pool row has that address, reading [.id] of [null] throws
    inside the [try]; the error is logged and nothing is written. *)
Definition onSwap (d : Db) (pairAddress : string) (ev : SwapEvent)
    : Db * option Swap :=
  match find_pool d pairAddress with
  | None => (d, None)
  | Some pool =>
      let row := swap_row (swap_seq d + 1) (pool_id pool) ev in
      ({| tokens := tokens d; pools := pools d; swaps := swaps d ++ [row];
          token_seq := token_seq d; pool_seq := pool_seq d;
          swap_seq := swap_seq d + 1 |}, Some row)
  end.

End Indexer.

(** ** HTTP endpoints of [server.ts] *)

Module Api.

(** What a handler sends: [res.json(body)] (status 200) or
    [res.status(status).json({ error })]. *)
Inductive Response (A : Type) :=
  | Json (body : A)
  | ErrorJson (status : Z) (error : string).
Arguments Json {A} body.
Arguments ErrorJson {A} status error.



(** *** GET /pool/:id *)

(** A pool row with the relations the handler includes. *)
Record PoolFull := {
  pf_pool : PoolWithTokens;
  pf_swaps : list Swap;
  pf_liquidity : list Liquidity
}.




(** *** GET /optimal-path/:tokenA/:tokenB *)

(** [findMany] is what [prisma.pool.findMany] resolved to, [None] when
    it rejected. *)
Definition get_optimal_path (router : Router)
    (findMany : option (list PoolWithTokens)) (tokenA tokenB : string)
    (amountQuery : option string) : Response RoutingResult :=
  let amount := default "1000000000000000000" amountQuery in
  match findMany with
  | None => ErrorJson 500 "Failed to find optimal path"
  | Some pools => Json (findOptimalPath router pools tokenA tokenB amount)
  end.

(** *** GET /all-paths/:tokenA/:tokenB *)

Record AllPathsBody := {
  ap_tokenA : string;
  ap_tokenB : string;
  ap_maxHops : Z;
  ap_pathsFound : Z;
  ap_paths : list PathSummary
}.

(** [Math.min(parseInt(req.query.maxHops) || 3, 4)]; an absent query
    parameter is [undefined], which [parseInt] reads as the string
    "undefined". *)
Definition maxHops_of_query (maxHopsQuery : option string) : Z :=
  Z.min (Js.or_number (Js.parseInt (default "undefined" maxHopsQuery)) 3) 4.

Definition get_all_paths (findMany : option (list PoolWithTokens))
    (tokenA tokenB : string) (maxHopsQuery : option string)
    : Response AllPathsBody :=
  let maxHops := maxHops_of_query maxHopsQuery in
  match findMany with
  | None => ErrorJson 500 "Failed to find paths"
  | Some pools =>
      let found := findAllPaths pools tokenA tokenB maxHops in
      Json {| ap_tokenA := tokenA; ap_tokenB := tokenB; ap_maxHops := maxHops;
              ap_pathsFound := Z.of_nat (length found); ap_paths := found |}
  end.

(** *** POST /multi-hop-quote *)

(** Values a parsed JSON body can hold.  A number is kept as its
    literal. *)
#[local] Unset Elimination Schemes.
#[local] Set Elimination Schemes.






(** *** GET /portfolio/:user *)

(** A liquidity row with its pool and the pool's tokens included. *)
Record Position := {
  pos_liquidity : Liquidity;
  pos_pool : PoolWithTokens
}.

(** A value of the [groupedPositions] map. *)
Record Group := {
  g_pool : string;
  g_poolId : Z;
  g_tokenA : Token;
  g_tokenB : Token;
  totalAmountA : option Z;
  totalAmountB : option Z;
  g_positions : list Position
}.

(** [`${pos.pool.tokenA.symbol}-${pos.pool.tokenB.symbol}`] *)
Definition poolKey (pos : Position) : string :=
  tok_symbol (pw_tokenA (pos_pool pos)) +:+ "-" +:+
  tok_symbol (pw_tokenB (pos_pool pos)).

(** [groupedPositions], in insertion order. *)
Abbreviation Groups := (list (string * Group)).

Definition groups_has (key : string) (m : Groups) : bool :=
  bool_decide (key ∈ m.*1).

(** In-place update of the group stored under [key]. *)
Fixpoint groups_modify (key : string) (f : Group → Group) (m : Groups) : Groups :=
  match m with
  | [] => []
  | (k, g) :: m' =>
      if decide (k = key) then (k, f g) :: m'
      else (k, g) :: groups_modify key f m'
  end.

Definition add_position (pos : Position) (g : Group) : Group :=
  {| g_pool := g_pool g; g_poolId := g_poolId g;
     g_tokenA := g_tokenA g; g_tokenB := g_tokenB g;
     totalAmountA :=
       Js.add_number (totalAmountA g) (Js.Number (liq_amountA (pos_liquidity pos)));
     totalAmountB :=
       Js.add_number (totalAmountB g) (Js.Number (liq_amountB (pos_liquidity pos)));
     g_positions := g_positions g ++ [pos] |}.

(** Body of [positions.forEach]. *)
Definition group_position (m : Groups) (pos : Position) : Groups :=
  let key := poolKey pos in
  let m1 :=
    if groups_has key m then m
    else m ++ [(key, {| g_pool := key;
                        g_poolId := liq_poolId (pos_liquidity pos);
                        g_tokenA := pw_tokenA (pos_pool pos);
                        g_tokenB := pw_tokenB (pos_pool pos);
                        totalAmountA := Some 0; totalAmountB := Some 0;
                        g_positions := [] |})] in
  groups_modify key (add_position pos) m1.

(** One element of the response array. *)
Record FormattedGroup := {
  fg_pool : string;
  fg_poolId : Z;
  fg_tokenA : Token;
  fg_tokenB : Token;
  fg_liquidityA : option Z;
  fg_liquidityB : option Z;
  positionsCount : Z
}.

Definition format_group (g : Group) : FormattedGroup :=
  {| fg_pool := g_pool g; fg_poolId := g_poolId g;
     fg_tokenA := g_tokenA g; fg_tokenB := g_tokenB g;
     fg_liquidityA := totalAmountA g; fg_liquidityB := totalAmountB g;
     positionsCount := Z.of_nat (length (g_positions g)) |}.

(** The handler, given the joined liquidity rows of the store
    ([None] when the query rejected). *)
Definition get_portfolio (rows : option (list Position)) (user : string)
    : Response (list FormattedGroup) :=
  match rows with
  | None => ErrorJson 500 "Failed to fetch portfolio"
  | Some rows =>
      let positions :=
        filter (λ pos, liq_provider (pos_liquidity pos) = user) rows in
      let groupedPositions := foldl group_position [] positions in
      Json (format_group <$> groupedPositions.*2)
  end.

End Api.

(** ** Specification vocabulary *)

Module Spec.

(** Termination measure of the search loop: the bound on the search tree
    below a queued path, and its sum over the queue. *)
Definition path_weight (d D : nat) (p : Path) : nat :=
  tree_bound d (D + 1 - length p).

Definition queue_weight (d D : nat) (q : list Path) : nat :=
  sum_list_with (path_weight d D) q.

(** What holds of every queued path, and of every emitted path. *)
Definition partial_ok (start : string) (p : Path) : Prop :=
  head p = Some start ∧ NoDup p.

Definition result_ok (start stop : string) (maxDepth : Z) (p : Path) : Prop :=
  head p = Some start ∧ last p = Some stop ∧
  Z.of_nat (length p) ≤ maxDepth + 1 ∧ NoDup p ∧ (1 < length p)%nat.

(** The two directed edges each pool contributes, in pool order. *)
Definition directed_edges (pools : list PoolWithTokens) : list (string * string) :=
  pools ≫= λ pool,
    [ (tokenA_address pool, tokenB_address pool);
      (tokenB_address pool, tokenA_address pool) ].

(** The adjacency array of [t] ([[]] when [t] is not a key). *)
Definition adjacency (g : Graph) (t : string) : list string :=
  default [] (g !! t).

(** Targets of the edges that leave [t], in order. *)
Definition edges_from (t : string) (es : list (string * string)) : list string :=
  (filter (λ e, e.1 = t) es).*2.

(** [r] extends [p] by at least one token. *)
Definition proper_prefix (p r : Path) : Prop := ∃ k, k ≠ [] ∧ r = p ++ k.

(** Loop invariant behind the absence of repeated results: queue and
    results are duplicate-free and disjoint, and nothing queued or
    emitted extends a queued path. *)
Record bfs_distinct (q rs : list Path) : Prop := {
  bd_queue : NoDup q;
  bd_paths : NoDup rs;
  bd_disj : ∀ r, r ∈ rs → r ∉ q;
  bd_prefix : ∀ p r, p ∈ q → r ∈ q ++ rs → ¬ proper_prefix p r
}.

(** No adjacency array lists a token twice. *)
Definition adjacency_NoDup (g : Graph) : Prop :=
  ∀ t l, g !! t = Some l → NoDup l.

End Spec.

Import Spec.

(** ** Vocabulary for the route evaluator *)

Module EvalSpec.

(** Final amount of the chained quote of [p], when the quote succeeds. *)
Definition quote_of (router : Router) (testAmount : string) (p : Path)
    : option Z :=
  router testAmount p ≫= last.

(** The candidate paths whose quote succeeds, each with its output, in
    discovery order. *)
Definition survivors (router : Router) (testAmount : string) (ps : list Path)
    : list (Path * Z) :=
  omap (λ p, (λ out, (p, out)) <$> quote_of router testAmount p) ps.

Definition route_key (r : Route) : Path * Z := (path r, expectedOutput r).

(** Entry [i] of [S] carries output [best], nothing in [S] has more,
    and nothing before [i] has as much. *)
Definition first_best (S : list (Path * Z)) (p : Path) (best : Z) : Prop :=
  ∃ i, S !! i = Some (p, best) ∧
    ∀ j q out, S !! j = Some (q, out) →
      out ≤ best ∧ (out = best → (i ≤ j)%nat).

(** Loop invariant of the evaluation loop after the survivors [S]. *)
Definition best_inv (S : list (Path * Z)) (st : eval_state) : Prop :=
  route_key <$> ev_allPaths st = S ∧
  match bestPath st with
  | None => bestOutput st = 0 ∧ Forall (λ s, s.2 ≤ 0) S
  | Some bp => 0 < bestOutput st ∧ first_best S bp (bestOutput st)
  end.

End EvalSpec.

Import EvalSpec.

(** ** Vocabulary for the chained quote *)

Module QuoteSpec.

(** Last element of the array [getAmountsOut] returns. *)
Definition final_output (c : Amm.Chain) (amountIn : Z) (path : list string)
    : option Z :=
  Amm.getAmountsOut c amountIn path ≫= last.

(** Relation between the amounts of two runs of the quote loop: the
    first is no larger, and positive wherever the second is. *)
Definition below (x y : Z) : Prop := x ≤ y ∧ (0 < y → 0 < x).

End QuoteSpec.

Import QuoteSpec.

(** ** Vocabulary for the quote endpoint *)

Module QuoteEndpointSpec.


End QuoteEndpointSpec.

Import QuoteEndpointSpec.

(** ** Concrete stores and chain states used in examples *)

Module Examples.

(** Token addresses of [Frontend/app/contracts.ts]. *)
Definition TETH : string := "0xB12135E48994087a925b0DdeC7E99CBe631DBD49".
Definition TUSDC : string := "0x5921BCB320A90f57750f5c1Bde96890C7D0dD5CD".
Definition TUSDT : string := "0x188eE29bD4Ea836dE395da0713c13C91aC087088".
Definition ALP : string := "0xA1B8ce0eF14dFBaB865F6f58954e592A1261DAb3".
Definition SUP : string := "0x048d7F61FCD5684B797fa5267A9451573cDd5092".

Definition token (id : Z) (address symbol : string) : Token :=
  {| tok_id := id; tok_address := address; tok_symbol := symbol;
     tok_name := None; tok_decimals := 18 |}.

Definition tTETH : Token := token 1 TETH "TETH".
Definition tTUSDC : Token := token 2 TUSDC "TUSDC".
Definition tTUSDT : Token := token 3 TUSDT "TUSDT".
Definition tALP : Token := token 4 ALP "ALP".
Definition tSUP : Token := token 5 SUP "SUP".

Definition pool (id : Z) (address : string) (a b : Token) : PoolWithTokens :=
  {| pw_pool := {| pool_id := id; pool_address := address;
                   pool_tokenAId := tok_id a; pool_tokenBId := tok_id b |};
     pw_tokenA := a; pw_tokenB := b |}.

Definition pair1 : string := "0x00000000000000000000000000000000000000a1".
Definition pair2 : string := "0x00000000000000000000000000000000000000a2".
Definition pair3 : string := "0x00000000000000000000000000000000000000a3".
Definition pair4 : string := "0x00000000000000000000000000000000000000a4".

Definition pool_TETH_TUSDC : PoolWithTokens := pool 1 pair1 tTETH tTUSDC.
Definition pool_TUSDC_TUSDT : PoolWithTokens := pool 2 pair2 tTUSDC tTUSDT.
Definition pool_TETH_TUSDT : PoolWithTokens := pool 3 pair3 tTETH tTUSDT.
(** A second pool over the pair of [pool_TETH_TUSDC]. *)
Definition pool_TETH_TUSDC' : PoolWithTokens := pool 4 pair4 tTETH tTUSDC.

End Examples.

Import Examples.

(** ** Concrete chain states *)

Module ChainExamples.

Import Amm.

Definition pair_matches (a b : address) (amm : AMM) : bool :=
  bool_decide ((token0 amm = a ∧ token1 amm = b) ∨
               (token0 amm = b ∧ token1 amm = a)).

(** The chain state in which exactly the listed pair contracts were
    created by the factory. *)
Definition chain_of (pairs : list (address * AMM)) : Chain :=
  {| getPair := λ a b,
       match List.find (λ e, pair_matches a b e.2) pairs with
       | Some e => e.1
       | None => address_zero
       end;
     amm_at := λ addr,
       (λ e, e.2) <$> List.find (λ e, bool_decide (e.1 = addr)) pairs |}.

Definition amm (t0 t1 : address) (r0 r1 : Z) : AMM :=
  {| token0 := t0; token1 := t1; reserve0 := r0; reserve1 := r1 |}.

(** TETH-TUSDC and TUSDC-TUSDT were created but never funded;
    TETH-TUSDT holds liquidity. *)
Definition unfunded_chain : Chain :=
  chain_of [ (pair1, amm TUSDC TETH 0 0);
             (pair2, amm TUSDT TUSDC 0 0);
             (pair3, amm TUSDT TETH 2000000 1000000) ].

(** The same three pairs, all funded. *)
Definition funded_chain : Chain :=
  chain_of [ (pair1, amm TUSDC TETH 3000000 1000000);
             (pair2, amm TUSDT TUSDC 1000000 1000000);
             (pair3, amm TUSDT TETH 2000000 1000000) ].

Definition triangle_pools : list PoolWithTokens :=
  [pool_TETH_TUSDC; pool_TUSDC_TUSDT; pool_TETH_TUSDT].

(** Four pools in a line: TETH - TUSDC - TUSDT - ALP - SUP. *)
Definition pair5 : string := "0x00000000000000000000000000000000000000a5".
Definition pair6 : string := "0x00000000000000000000000000000000000000a6".

Definition line_pools : list PoolWithTokens :=
  [ pool_TETH_TUSDC; pool_TUSDC_TUSDT;
    pool 5 pair5 tTUSDT tALP; pool 6 pair6 tALP tSUP ].

Definition line_chain : Chain :=
  chain_of [ (pair1, amm TUSDC TETH 1000000 1000000);
             (pair2, amm TUSDT TUSDC 1000000 1000000);
             (pair5, amm TUSDT ALP 1000000 1000000);
             (pair6, amm SUP ALP 1000000 1000000) ].

End ChainExamples.

Import ChainExamples.

(** ** Concrete indexer runs and portfolios *)

Module IndexerExamples.

Import Indexer.

Definition empty_db : Db :=
  {| tokens := []; pools := []; swaps := [];
     token_seq := 0; pool_seq := 0; swap_seq := 0 |}.

Definition start_state : State := {| db := empty_db; listening := [] |}.

(** Metadata the two token contracts answer with. *)
Definition chain_meta (address : string) : option TokenMeta :=
  if decide (address = TETH) then
    Some {| meta_symbol := "TETH"; meta_decimals := 18; meta_name := Some "Test Ether" |}
  else if decide (address = TUSDC) then
    Some {| meta_symbol := "TUSDC"; meta_decimals := 6; meta_name := None |}
  else None.

(** The store after the first [PairCreated(TETH, TUSDC, pair1)]. *)
Definition state_after_first : State :=
  (onPairCreated chain_meta start_state TETH TUSDC pair1).1.

(** A swap that pays 5000 of token1 in and takes 4975 of token0 out. *)
Definition swap_side1_in : SwapEvent :=
  {| sender := "0x00000000000000000000000000000000000000b1";
     amount0In := 0; amount1In := 5000;
     amount0Out := 4975; amount1Out := 0;
     to := "0x00000000000000000000000000000000000000b1" |}.

(** Another token contract whose [symbol()] is also "TUSDC". *)
Definition TUSDC2 : string := "0x00000000000000000000000000000000000000c2".
Definition tTUSDC2 : Token := token 6 TUSDC2 "TUSDC".
Definition pair7 : string := "0x00000000000000000000000000000000000000a7".
Definition pool_TETH_TUSDC2 : PoolWithTokens := pool 7 pair7 tTETH tTUSDC2.

Definition alice : string := "0x00000000000000000000000000000000000000b1".

Definition position (id : Z) (p : PoolWithTokens) (provider amountA amountB : string)
    : Api.Position :=
  {| Api.pos_liquidity :=
       {| liq_id := id; liq_poolId := pool_id (pw_pool p);
          liq_provider := provider;
          liq_amountA := amountA; liq_amountB := amountB |};
     Api.pos_pool := p |}.

(** Alice holds one position in pool 1 and one in pool 7. *)
Definition alice_rows : list Api.Position :=
  [ position 1 pool_TETH_TUSDC alice "100" "200";
    position 2 pool_TETH_TUSDC2 alice "7" "9" ].

End IndexerExamples.

Import IndexerExamples.

(** ** More of the pair contract ([AMM.sol]) *)

Module AmmMore.

Import Amm.

(** Reserve of the token paid in, and of the token paid out, for the
    branch [getQuantityOut] takes on [tokenIn]. *)
Definition reserve_in (amm : AMM) (tokenIn : address) : Z :=
  if bool_decide (tokenIn = token0 amm) then reserve0 amm else reserve1 amm.
Definition reserve_out (amm : AMM) (tokenIn : address) : Z :=
  if bool_decide (tokenIn = token0 amm) then reserve1 amm else reserve0 amm.

(** Outcome of running a function that has a loop: its value, a revert,
    or the round budget of the model used up. *)
Inductive Run (A : Type) :=
  | Done (a : A)
  | Revert
  | OutOfRounds.
Arguments Done {A} a.
Arguments Revert {A}.
Arguments OutOfRounds {A}.

Definition of_checked {A} (o : option A) (k : A → Run A) : Run A :=
  match o with
  | Some a => k a
  | None => Revert
  end.

(** The [while (z < y) { y = z; z = (x / z + z) / 2; }] loop of [_sqrt],
    run for at most [rounds] rounds. *)
Fixpoint _sqrt_loop (rounds : nat) (x y z : Z) : Run Z :=
  if bool_decide (z < y) then
    match rounds with
    | O => OutOfRounds
    | S rounds' =>
        of_checked (checked_div x z) (λ q,
        of_checked (checked_add q z) (λ s,
        of_checked (checked_div s 2) (λ z',
        _sqrt_loop rounds' x z z')))
    end
  else Done y.

(** [AMM._sqrt(x)] *)
Definition _sqrt (rounds : nat) (x : Z) : Run Z :=
  if bool_decide (x = 0) then Done 0
  else
    of_checked (checked_add x 1) (λ s,
    of_checked (checked_div s 2) (λ z,
    _sqrt_loop rounds x x z)).

(** [AMM.getOutputTokenAddress(tokenIn)] *)
Definition getOutputTokenAddress (amm : AMM) (tokenIn : address)
    : option address :=
  if negb (bool_decide (tokenIn = token0 amm ∨ tokenIn = token1 amm))
  then None
  else Some (if bool_decide (tokenIn = token0 amm)
             then token1 amm else token0 amm).

Definition run_bind {A B} (r : Run A) (k : A → Run B) : Run B :=
  match r with
  | Done a => k a
  | Revert => Revert
  | OutOfRounds => OutOfRounds
  end.

Definition run_checked {A} (o : option A) : Run A :=
  match o with
  | Some a => Done a
  | None => Revert
  end.

(** What [addLiquidity] has computed when it starts moving tokens. *)
Record Deposit := {
  actualAmount0 : Z;
  actualAmount1 : Z;
  liquidity : Z
}.

(** The first part of [AMM.addLiquidity(amount0, amount1)], up to the
    two [require(liquidity > 0)]: the amounts it goes on to pull from
    the caller and the LP tokens it goes on to mint.  [ts] is
    [totalSupply()].  The token transfers, the mint and the reserve
    update that follow are not part of this definition. *)
Definition addLiquidity_amounts (rounds : nat) (amm : AMM) (ts : Z)
    (amount0 amount1 : Z) : Run Deposit :=
  if negb (bool_decide (0 < amount0 ∧ 0 < amount1)) then Revert
  else
    let _reserve0 := reserve0 amm in
    let _reserve1 := reserve1 amm in
    if bool_decide (_reserve0 = 0 ∧ _reserve1 = 0) then
      run_bind (run_checked (checked_mul amount0 amount1)) (λ prod,
      run_bind (_sqrt rounds prod) (λ liq,
      if bool_decide (0 < liq)
      then Done {| actualAmount0 := amount0; actualAmount1 := amount1;
                   liquidity := liq |}
      else Revert))
    else
      run_bind (run_checked (checked_mul amount0 _reserve1)) (λ p1,
      run_bind (run_checked (checked_div p1 _reserve0)) (λ amount1Optimal,
      run_bind (run_checked (checked_mul amount1 _reserve0)) (λ p0,
      run_bind (run_checked (checked_div p0 _reserve1)) (λ amount0Optimal,
      let actual :=
        if bool_decide (amount1Optimal ≤ amount1)
        then (amount0, amount1Optimal)
        else (amount0Optimal, amount1) in
      run_bind (run_checked (checked_mul actual.1 ts)) (λ n0,
      run_bind (run_checked (checked_div n0 _reserve0)) (λ liq0,
      run_bind (run_checked (checked_mul actual.2 ts)) (λ n1,
      run_bind (run_checked (checked_div n1 _reserve1)) (λ liq1,
      let liq := if bool_decide (liq0 < liq1) then liq0 else liq1 in
      if bool_decide (0 < liq)
      then Done {| actualAmount0 := actual.1; actualAmount1 := actual.2;
                   liquidity := liq |}
      else Revert)))))))).

(** The first part of [AMM.removeLiquidity(liquidity)]: the two amounts
    it goes on to send.  [balance] is [balanceOf(msg.sender)] and [ts]
    is [totalSupply()]. *)
Definition removeLiquidity_amounts (amm : AMM) (balance ts : Z)
    (liquidity : Z) : option (Z * Z) :=
  if negb (bool_decide (liquidity ≤ balance)) then None
  else if negb (bool_decide (0 < ts)) then None
  else
    n0 ← checked_mul liquidity (reserve0 amm);
    amount0 ← checked_div n0 ts;
    n1 ← checked_mul liquidity (reserve1 amm);
    amount1 ← checked_div n1 ts;
    Some (amount0, amount1).

(** The first part of [AMM.swap(tokenIn, amountIn)]: the amount it goes
    on to send, with its two [require]s and the liquidity check of the
    chosen branch.  The token transfers and the reserve update are not
    part of this definition. *)
Definition swap_amount (amm : AMM) (tokenIn : address) (amountIn : Z)
    : option Z :=
  if negb (bool_decide (0 < amountIn)) then None
  else if negb (bool_decide (tokenIn = token0 amm ∨ tokenIn = token1 amm))
  then None
  else if bool_decide (tokenIn = token0 amm) then
    prod ← checked_mul (reserve0 amm) (reserve1 amm);
    sum ← checked_add (reserve0 amm) amountIn;
    quot ← checked_div prod sum;
    amountOut ← checked_sub (reserve1 amm) quot;
    if bool_decide (amountOut ≤ reserve1 amm) then Some amountOut else None
  else
    prod ← checked_mul (reserve1 amm) (reserve0 amm);
    sum ← checked_add (reserve1 amm) amountIn;
    quot ← checked_div prod sum;
    amountOut ← checked_sub (reserve0 amm) quot;
    if bool_decide (amountOut ≤ reserve0 amm) then Some amountOut else None.

End AmmMore.

Import AmmMore.

(** ** The pair factory ([AMMFactory.sol]) *)

Module Factory.

Import Amm.

(** Storage of the factory, and the pair contracts it has deployed. *)
Record State := {
  pairOf : gmap (address * address) address;
  allPairs : list address;
  deployed : gmap address AMM
}.

(** Arguments of the [PairCreated] event. *)
Record PairCreated := {
  ev_token0 : address;
  ev_token1 : address;
  ev_pair : address;
  ev_index : Z
}.

(** [getPair[a][b]]: a mapping entry that was never written reads as the
    zero address. *)
Definition getPair (st : State) (a b : address) : address :=
  default address_zero (pairOf st !! (a, b)).

(** The constructor of [AMM]; [lt] is the order [<] on addresses. *)
Definition AMM_constructor (lt : address → address → bool)
    (_tokenA _tokenB : address) : option AMM :=
  if negb (bool_decide (_tokenA ≠ _tokenB)) then None
  else
    let '(_t0, _t1) :=
      if lt _tokenA _tokenB then (_tokenA, _tokenB) else (_tokenB, _tokenA) in
    Some {| token0 := _t0; token1 := _t1; reserve0 := 0; reserve1 := 0 |}.

(** [createPair(tokenA, tokenB)].  [newPair] is the address at which the
    chain deploys the new [AMM] contract.  [None] is a revert, which
    leaves the state as it was. *)
Definition createPair (lt : address → address → bool) (newPair : address)
    (st : State) (tokenA tokenB : address)
    : option (State * address * PairCreated) :=
  if negb (bool_decide (tokenA ≠ tokenB)) then None
  else
    let '(token0, token1) :=
      if lt tokenA tokenB then (tokenA, tokenB) else (tokenB, tokenA) in
    if negb (bool_decide (getPair st token0 token1 = address_zero)) then None
    else
      match AMM_constructor lt token0 token1 with
      | None => None
      | Some amm =>
          let pair := newPair in
          let st' :=
            {| pairOf := <[(token1, token0) := pair]>
                           (<[(token0, token1) := pair]> (pairOf st));
               allPairs := allPairs st ++ [pair];
               deployed := <[pair := amm]> (deployed st) |} in
          Some (st', pair,
                {| ev_token0 := token0; ev_token1 := token1; ev_pair := pair;
                   ev_index := Z.of_nat (length (allPairs st')) - 1 |})
      end.

(** [allPairsLength()] *)
Definition allPairsLength (st : State) : Z := Z.of_nat (length (allPairs st)).

Definition empty : State :=
  {| pairOf := ∅; allPairs := []; deployed := ∅ |}.

(** What the router sees of a factory state. *)
Definition chain_of_state (st : State) : Chain :=
  {| Amm.getPair := getPair st; amm_at := λ a, deployed st !! a |}.

(** States the factory can be in after any number of successful
    [createPair] calls, with the events emitted so far.  The chain
    deploys each pair at a non-zero address that holds no contract
    yet. *)
Inductive reachable (lt : address → address → bool)
    : State → list PairCreated → Prop :=
  | reach_empty : reachable lt empty []
  | reach_create st evs newPair tokenA tokenB st' pair ev :
      reachable lt st evs →
      newPair ≠ address_zero →
      deployed st !! newPair = None →
      createPair lt newPair st tokenA tokenB = Some (st', pair, ev) →
      reachable lt st' (evs ++ [ev]).

(** The two directed token pairs each event stands for. *)
Definition event_edges (evs : list PairCreated) : list (address * address) :=
  evs ≫= λ ev, [ (ev_token0 ev, ev_token1 ev); (ev_token1 ev, ev_token0 ev) ].

(** What every reachable factory state satisfies. *)
Record consistent (st : State) (evs : list PairCreated) : Prop := {
  cs_symmetric : ∀ a b, pairOf st !! (a, b) = pairOf st !! (b, a);
  cs_entry : ∀ a b p, pairOf st !! (a, b) = Some p →
    p ≠ address_zero ∧ a ≠ b ∧ p ∈ allPairs st ∧
    ∃ amm, deployed st !! p = Some amm ∧
      reserve0 amm = 0 ∧ reserve1 amm = 0 ∧
      ((token0 amm = a ∧ token1 amm = b) ∨ (token0 amm = b ∧ token1 amm = a));
  cs_pairs : ∀ p, p ∈ allPairs st → is_Some (deployed st !! p);
  cs_nodup : NoDup (allPairs st);
  cs_events : ∀ a b, (a, b) ∈ event_edges evs ↔ is_Some (pairOf st !! (a, b));
  cs_edges : NoDup (event_edges evs);
  cs_count : length evs = length (allPairs st)
}.

End Factory.

(** ** More vocabulary for the route evaluator *)

Module RouteSpec.

(** An entry describes one of the enumerated paths [ps] consistently:
    its hop count is the number of tokens less one and its gas estimate
    is the flat heuristic for that hop count. *)
Definition route_wf (ps : list Path) (e : Route) : Prop :=
  path e ∈ ps ∧
  hops e = Z.of_nat (length (path e)) - 1 ∧
  gasEstimate e = 60000 + 120000 * hops e.

(** The [direct] entry the loop writes for a surviving two-token path. *)
Definition direct_of (s : Path * Z) : Route :=
  {| path := s.1; expectedOutput := s.2; hops := 1;
     gasEstimate := estimateMultiHopGas s.1 |}.

Definition two_tokens (s : Path * Z) : Prop := length s.1 = 2%nat.

(** Every entry named by a routing result. *)
Definition routes_of (r : RoutingResult) : list Route :=
  allPaths r ++ option_list (direct r) ++ option_list (optimal r).

(** Loop invariant of the evaluation loop over the paths [ps], after the
    survivors [S]. *)
Definition shape_inv (ps : list Path) (S : list (Path * Z)) (st : eval_state)
    : Prop :=
  Forall (route_wf ps) (ev_allPaths st) ∧
  (∀ bp, bestPath st = Some bp → bp ∈ ps) ∧
  ev_direct st = direct_of <$> last (filter two_tokens S).

End RouteSpec.

Import RouteSpec.

(** ** Vocabulary for the portfolio request *)

Module PortfolioSpec.

Import Api.






End PortfolioSpec.

Import PortfolioSpec.

(** ** The indexer process: liquidity listeners and event delivery *)

Module IndexerRun.

Import Indexer.

(** Arguments of a [Mint] event as the listener receives them. *)
Record MintEvent := {
  mint_sender : string;
  mint_amount0 : Z;
  mint_amount1 : Z
}.

(** Arguments of a [Burn] event as the listener receives them. *)
Record BurnEvent := {
  burn_sender : string;
  burn_amount0 : Z;
  burn_amount1 : Z;
  burn_to : string
}.

(** The process of [Indexer] together with the [Liquidity] table and
    the last value of its [SERIAL] sequence. *)
Record Store := {
  core : State;
  liquidity_rows : list Liquidity;
  liquidity_seq : Z
}.

(** The [pair.on("Mint", ...)] callback for the pair at [pairAddress].
    When no pool row has that address, reading [.id] of [null] throws
    inside the [try]; the error is logged and nothing is written. *)
Definition onMint (s : Store) (pairAddress : string) (ev : MintEvent)
    : Store * option Liquidity :=
  match find_pool (db (core s)) pairAddress with
  | None => (s, None)
  | Some pool =>
      let row := {| liq_id := liquidity_seq s + 1;
                    liq_poolId := pool_id pool;
                    liq_provider := mint_sender ev;
                    liq_amountA := Js.bigint_toString (mint_amount0 ev);
                    liq_amountB := Js.bigint_toString (mint_amount1 ev) |} in
      ({| core := core s; liquidity_rows := liquidity_rows s ++ [row];
          liquidity_seq := liquidity_seq s + 1 |}, Some row)
  end.

(** The [pair.on("Burn", ...)] callback: the same row with a minus sign
    put in front of both numerals. *)
Definition onBurn (s : Store) (pairAddress : string) (ev : BurnEvent)
    : Store * option Liquidity :=
  match find_pool (db (core s)) pairAddress with
  | None => (s, None)
  | Some pool =>
      let row := {| liq_id := liquidity_seq s + 1;
                    liq_poolId := pool_id pool;
                    liq_provider := burn_sender ev;
                    liq_amountA := "-" +:+ Js.bigint_toString (burn_amount0 ev);
                    liq_amountB := "-" +:+ Js.bigint_toString (burn_amount1 ev) |} in
      ({| core := core s; liquidity_rows := liquidity_rows s ++ [row];
          liquidity_seq := liquidity_seq s + 1 |}, Some row)
  end.

(** An event of the chain the process is subscribed to, with the
    address of the contract that emitted a pair event. *)
Inductive ChainEvent :=
  | EvPairCreated (tokenA tokenB pair : string)
  | EvSwap (pair : string) (ev : SwapEvent)
  | EvMint (pair : string) (ev : MintEvent)
  | EvBurn (pair : string) (ev : BurnEvent).

(** Number of [attachPairListener(pair)] calls so far: each one
    registers its own three callbacks on the pair. *)
Definition listeners (s : Store) (pair : string) : nat :=
  length (filter (λ a, a = pair) (listening (core s))).

Definition with_db (s : Store) (d : Db) : Store :=
  {| core := {| db := d; listening := listening (core s) |};
     liquidity_rows := liquidity_rows s;
     liquidity_seq := liquidity_seq s |}.

Definition with_core (s : Store) (c : State) : Store :=
  {| core := c; liquidity_rows := liquidity_rows s;
     liquidity_seq := liquidity_seq s |}.

(** Delivery of one event: the factory callback runs once; a pair event
    runs every callback registered for that pair, one after the other.
    Each callback is taken to finish before the next one starts. *)
Definition deliver (getTokenMeta : string → option TokenMeta)
    (s : Store) (e : ChainEvent) : Store :=
  match e with
  | EvPairCreated tokenA tokenB pairAddress =>
      with_core s
        (onPairCreated getTokenMeta (core s) tokenA tokenB pairAddress).1
  | EvSwap pairAddress ev =>
      Nat.iter (listeners s pairAddress)
        (λ s', with_db s' (onSwap (db (core s')) pairAddress ev).1) s
  | EvMint pairAddress ev =>
      Nat.iter (listeners s pairAddress) (λ s', (onMint s' pairAddress ev).1) s
  | EvBurn pairAddress ev =>
      Nat.iter (listeners s pairAddress) (λ s', (onBurn s' pairAddress ev).1) s
  end.

(** [main()]: the bootstrap loop attaches a listener to every pool row
    of the store it starts on.  The events are taken to follow once the
    loop is through. *)
Definition main (d : Db) (rows : list Liquidity) (seq : Z) : Store :=
  {| core := {| db := d; listening := pool_address <$> pools d |};
     liquidity_rows := rows; liquidity_seq := seq |}.

Definition run (getTokenMeta : string → option TokenMeta)
    (s : Store) (evs : list ChainEvent) : Store :=
  foldl (deliver getTokenMeta) s evs.



End IndexerRun.

(** ** Vocabulary for runs of the indexer *)

Module IndexerSpec.

Import Indexer IndexerRun.

(** What the schema demands of the tables: keys are distinct, no id is
    ahead of its sequence, and every reference points at a row. *)
Record db_ok (d : Db) (rows : list Liquidity) (seq : Z) : Prop := {
  ok_token_address : NoDup (tok_address <$> tokens d);
  ok_token_id : NoDup (tok_id <$> tokens d);
  ok_token_seq : Forall (λ t, tok_id t ≤ token_seq d) (tokens d);
  ok_pool_address : NoDup (pool_address <$> pools d);
  ok_pool_id : NoDup (pool_id <$> pools d);
  ok_pool_seq : Forall (λ p, pool_id p ≤ pool_seq d) (pools d);
  ok_pool_tokens :
    Forall (λ p, pool_tokenAId p ∈ tok_id <$> tokens d ∧
                 pool_tokenBId p ∈ tok_id <$> tokens d) (pools d);
  ok_swap_id : NoDup (swap_id <$> swaps d);
  ok_swap_seq : Forall (λ w, swap_id w ≤ swap_seq d) (swaps d);
  ok_swap_pool : Forall (λ w, swap_poolId w ∈ pool_id <$> pools d) (swaps d);
  ok_liq_id : NoDup (liq_id <$> rows);
  ok_liq_seq : Forall (λ l, liq_id l ≤ seq) rows;
  ok_liq_pool : Forall (λ l, liq_poolId l ∈ pool_id <$> pools d) rows
}.

(** The tables are in order and there is one listener for each pool
    row, in the order of the rows. *)
Definition store_ok (s : Store) : Prop :=
  db_ok (db (core s)) (liquidity_rows s) (liquidity_seq s) ∧
  listening (core s) = pool_address <$> pools (db (core s)).




(** [Number.MAX_SAFE_INTEGER]: up to it, sums of integers are exact in
    the arithmetic of JS numbers. *)
Definition MAX_SAFE_INTEGER : Z := 2 ^ 53 - 1.




(** Every table of [s'], and its list of listeners, starts with that of
    [s]. *)
Definition grows (s s' : Store) : Prop :=
  tokens (db (core s)) `prefix_of` tokens (db (core s')) ∧
  pools (db (core s)) `prefix_of` pools (db (core s')) ∧
  swaps (db (core s)) `prefix_of` swaps (db (core s')) ∧
  liquidity_rows s `prefix_of` liquidity_rows s' ∧
  listening (core s) `prefix_of` listening (core s').

End IndexerSpec.

Import IndexerSpec.

(** ** Analytics helpers of the API server *)

From stdpp Require Import sorting.
Local Open Scope Z_scope.

Module Analytics.

(** The [where] clause of the swap query of /path-analytics. *)
Definition swap_where (tokenA tokenB : string) (w : Swap) : Prop :=
  (swap_tokenIn w = tokenA ∧ swap_tokenOut w = tokenB) ∨
  (swap_tokenIn w = tokenB ∧ swap_tokenOut w = tokenA).

(** The rows of the table that satisfy it; the query returns the
    hundred latest of them. *)
Definition matching_swaps (rows : list Swap) (tokenA tokenB : string)
    : list Swap :=
  filter (swap_where tokenA tokenB) rows.

(** *** getPopularPaths *)

(** [pathCounts]: a [Map] from path to count, in insertion order. *)
Definition PathCounts := list (string * Z).

Definition counts_get (m : PathCounts) (k : string) : option Z :=
  snd <$> List.find (λ kv, bool_decide (kv.1 = k)) m.

(** [Map.set]: an existing key keeps its place. *)
Fixpoint counts_set (m : PathCounts) (k : string) (v : Z) : PathCounts :=
  match m with
  | [] => [(k, v)]
  | (k', v') :: m' =>
      if decide (k' = k) then (k, v) :: m' else (k', v') :: counts_set m' k v
  end.

Definition path_of (w : Swap) : string :=
  swap_tokenIn w +:+ "->" +:+ swap_tokenOut w.

(** Body of the loop over [swaps]. *)
Definition count_path (m : PathCounts) (w : Swap) : PathCounts :=
  let path := path_of w in
  counts_set m path (Js.or_number (counts_get m path) 0 + 1).

(** [entries.sort(([,a], [,b]) => b - a)]: the sort is stable, so [x]
    goes in front of the first entry whose count is not above its
    own. *)
Fixpoint insert_desc (x : string * Z) (l : list (string * Z))
    : list (string * Z) :=
  match l with
  | [] => [x]
  | y :: l' =>
      if bool_decide (x.2 < y.2) then y :: insert_desc x l' else x :: y :: l'
  end.

Definition sort_desc (l : list (string * Z)) : list (string * Z) :=
  foldr insert_desc [] l.

Record PopularPath := {
  pp_path : string;
  pp_count : Z
}.

Definition getPopularPaths (swaps : list Swap) : list PopularPath :=
  let pathCounts := foldl count_path [] swaps in
  (λ e, {| pp_path := e.1; pp_count := e.2 |})
    <$> take 5 (sort_desc pathCounts).

(** *** getVolumeByToken *)

(** [volumeMap]: a [Map] from token to volume, in insertion order; a
    volume is a JS number, [None] being [NaN]. *)
Definition VolumeMap := list (string * option Z).

(** [volumeMap.get(k) || 0]: a missing key, [NaN] and 0 all give 0. *)
Definition volume_or_0 (m : VolumeMap) (k : string) : Z :=
  match List.find (λ kv, bool_decide (kv.1 = k)) m with
  | Some (_, Some v) => v
  | _ => 0
  end.

(** [Map.set]: an existing key keeps its place. *)
Fixpoint volume_set (m : VolumeMap) (k : string) (v : option Z) : VolumeMap :=
  match m with
  | [] => [(k, v)]
  | (k', v') :: m' =>
      if decide (k' = k) then (k, v) :: m' else (k', v') :: volume_set m' k v
  end.

(** [volumeMap.set(k, (volumeMap.get(k) || 0) + amount)] *)
Definition volume_add (m : VolumeMap) (k : string) (amount : option Z)
    : VolumeMap :=
  volume_set m k (Js.add_number (Some (volume_or_0 m k)) amount).

(** Body of the loop over [swaps]. *)
Definition volume_step (m : VolumeMap) (w : Swap) : VolumeMap :=
  let amountIn := Js.Number (swap_amountIn w) in
  let amountOut := Js.Number (swap_amountOut w) in
  volume_add (volume_add m (swap_tokenIn w) amountIn)
             (swap_tokenOut w) amountOut.

(** The entries when every volume is a number.  With a [NaN] among
    them [b - a] is no consistent comparator and the language leaves
    the order of the sorted array open ([None]). *)
Fixpoint numbers (m : VolumeMap) : option (list (string * Z)) :=
  match m with
  | [] => Some []
  | (k, Some v) :: m' => ((k, v) ::.) <$> numbers m'
  | (_, None) :: _ => None
  end.

Record TokenVolume := {
  tv_token : string;
  tv_volume : Z
}.

Definition getVolumeByToken (swaps : list Swap) : option (list TokenVolume) :=
  let volumeMap := foldl volume_step [] swaps in
  entries ← numbers volumeMap;
  Some ((λ e, {| tv_token := e.1; tv_volume := e.2 |})
          <$> take 10 (sort_desc entries)).

(** *** getLiquidityDistribution *)

(** The [where] clause of its pool query. *)
Definition pool_where (tokenA tokenB : string) (pool : Api.PoolFull) : Prop :=
  tok_address (pw_tokenA (Api.pf_pool pool)) = tokenA ∨
  tok_address (pw_tokenB (Api.pf_pool pool)) = tokenA ∨
  tok_address (pw_tokenA (Api.pf_pool pool)) = tokenB ∨
  tok_address (pw_tokenB (Api.pf_pool pool)) = tokenB.

Record Distribution := {
  poolAddress : string;
  dist_pair : string;
  totalLiquidity : option Z;
  liquidityProviders : Z
}.

(** [Math.abs(x)] *)
Definition abs_number (x : option Z) : option Z := Z.abs <$> x.

(** [pool.liquidity.reduce((acc, l) => acc + Math.abs(Number(l.amountA))
    + Math.abs(Number(l.amountB)), 0)] *)
Definition sum_abs (ls : list Liquidity) : option Z :=
  foldl (λ acc l,
      Js.add_number
        (Js.add_number acc (abs_number (Js.Number (liq_amountA l))))
        (abs_number (Js.Number (liq_amountB l))))
    (Some 0) ls.

(** The callback of [pools.map]. *)
Definition distribution_of (pool : Api.PoolFull) : Distribution :=
  {| poolAddress := pool_address (pw_pool (Api.pf_pool pool));
     dist_pair := tok_symbol (pw_tokenA (Api.pf_pool pool)) +:+ "/"
                  +:+ tok_symbol (pw_tokenB (Api.pf_pool pool));
     totalLiquidity := sum_abs (Api.pf_liquidity pool);
     liquidityProviders := Z.of_nat (length (Api.pf_liquidity pool)) |}.

Definition getLiquidityDistribution (rows : list Api.PoolFull)
    (tokenA tokenB : string) : list Distribution :=
  distribution_of <$> filter (pool_where tokenA tokenB) rows.

End Analytics.

(** ** Vocabulary for the analytics *)

Module AnalyticsSpec.

Import Analytics.

(** How many of [swaps] went along [path]. *)
Definition occurrences (path : string) (swaps : list Swap) : Z :=
  Z.of_nat (length (filter (λ w, path_of w = path) swaps)).

(** The two side labels the indexer stores in [tokenIn] and
    [tokenOut]. *)
Definition side_labels : list string := ["token0"; "token1"].

Definition labelled (w : Swap) : Prop :=
  swap_tokenIn w ∈ side_labels ∧ swap_tokenOut w ∈ side_labels.

(** State of the loop of [getPopularPaths] after [swaps]. *)
Definition counts_inv (swaps : list Swap) (m : PathCounts) : Prop :=
  NoDup m.*1 ∧
  Forall (λ kv, kv.2 = occurrences kv.1 swaps ∧ 1 ≤ kv.2) m ∧
  ∀ w, w ∈ swaps → path_of w ∈ m.*1.

(** Both stored amounts of the swap read as numbers. *)
Definition numeric (w : Swap) : Prop :=
  is_Some (Js.Number (swap_amountIn w)) ∧
  is_Some (Js.Number (swap_amountOut w)).

(** What the swap [w] adds to the volume of [token]: its input amount
    when [token] went in, plus its output amount when [token] came
    out. *)
Definition traded (token : string) (w : Swap) : Z :=
  (if decide (swap_tokenIn w = token)
   then default 0 (Js.Number (swap_amountIn w)) else 0)
  + (if decide (swap_tokenOut w = token)
     then default 0 (Js.Number (swap_amountOut w)) else 0).

Definition volume_of (token : string) (swaps : list Swap) : Z :=
  foldr (λ w acc, traded token w + acc) 0 swaps.

(** All that [swaps] move, in absolute value. *)
Definition gross_volume (swaps : list Swap) : Z :=
  foldr (λ w acc,
      Z.abs (default 0 (Js.Number (swap_amountIn w)))
      + Z.abs (default 0 (Js.Number (swap_amountOut w))) + acc) 0 swaps.

(** State of the loop of [getVolumeByToken] after [swaps]. *)
Definition volumes_inv (swaps : list Swap) (m : VolumeMap) : Prop :=
  NoDup m.*1 ∧
  Forall (λ kv, is_Some kv.2) m ∧
  (∀ k, volume_or_0 m k = volume_of k swaps) ∧
  ∀ w, w ∈ swaps → swap_tokenIn w ∈ m.*1 ∧ swap_tokenOut w ∈ m.*1.

(** Larger counts first. *)
Definition by_count_desc (x y : string * Z) : Prop := y.2 ≤ x.2.



End AnalyticsSpec.

Import AnalyticsSpec.

(** ** More concrete inputs *)

Module MoreExamples.

(** The funded TUSDC/TETH pair of [funded_chain]. *)
Definition amm_funded : Amm.AMM := amm TUSDC TETH 3000000 1000000.

(** An order on address strings for the examples. *)
Definition addr_lt (a b : string) : bool := String.ltb a b.

(** The factory after [createPair(TETH, TUSDC)], deployed at [pair1]. *)
Definition factory_one : Factory.State :=
  {| Factory.pairOf := <[(TETH, TUSDC) := pair1]> (<[(TUSDC, TETH) := pair1]> ∅);
     Factory.allPairs := [pair1];
     Factory.deployed := <[pair1 := amm TUSDC TETH 0 0]> ∅ |}.

Definition event_one : Factory.PairCreated :=
  {| Factory.ev_token0 := TUSDC; Factory.ev_token1 := TETH;
     Factory.ev_pair := pair1; Factory.ev_index := 0 |}.

(** What a deposit of 3000 TUSDC and 500 TETH into [amm_funded] comes
    to when 1732050 LP tokens are outstanding. *)
Definition deposit_example : Deposit :=
  {| actualAmount0 := 1500; actualAmount1 := 500; liquidity := 866 |}.

(** [amm_funded] once that deposit has been pulled in. *)
Definition amm_after_deposit : Amm.AMM := amm TUSDC TETH 3001500 1000500.

End MoreExamples.

Import MoreExamples.

Module RunExamples.

Import Indexer IndexerRun IndexerExamples.


Definition alice_mint : MintEvent :=
  {| mint_sender := alice; mint_amount0 := 1000; mint_amount1 := 2000 |}.




(** Two swap rows as the indexer writes them. *)
Definition swap_rows : list Swap :=
  [ {| swap_id := 1; swap_poolId := 1; swap_trader := alice;
       swap_amountIn := "1000"; swap_amountOut := "2998";
       swap_tokenIn := "token0"; swap_tokenOut := "token1" |};
    {| swap_id := 2; swap_poolId := 1; swap_trader := alice;
       swap_amountIn := "500"; swap_amountOut := "1400";
       swap_tokenIn := "token1"; swap_tokenOut := "token0" |} ].

End RunExamples.

Import RunExamples.

(** * Proofs *)

(** ** Path enumeration *)

(** *** Termination of the search loop *)

Lemma tree_bound_pos d k : (1 ≤ tree_bound d k)%nat.
Proof. destruct k; simpl; lia. Qed.

Lemma max_degree_ge (g : Graph) k l :
  g !! k = Some l → (length l ≤ max_degree g)%nat.
Proof.
  intros Hk. unfold max_degree. apply max_list_elem_of_le.
  apply list_elem_of_fmap. exists l. split; [done|].
  apply list_elem_of_fmap. exists (k, l). split; [done|].
  by apply elem_of_map_to_list.
Qed.

Lemma neighbors_of_length (g : Graph) p :
  (length (neighbors_of g p) ≤ max_degree g)%nat.
Proof.
  unfold neighbors_of. destruct (last p) as [n|]; simpl; [|lia].
  destruct (g !! n) as [l|] eqn:E; simpl; [|lia].
  by eapply max_degree_ge.
Qed.

Lemma queue_weight_app d D q1 q2 :
  queue_weight d D (q1 ++ q2) = (queue_weight d D q1 + queue_weight d D q2)%nat.
Proof. apply sum_list_with_app. Qed.

Lemma queue_weight_children d D (p : Path) (ns : list string) :
  queue_weight d D ((λ n, p ++ [n]) <$> ns)
  = (length ns * tree_bound d (D + 1 - (length p + 1)))%nat.
Proof.
  unfold queue_weight. induction ns as [|n ns IH]; [done|].
  rewrite fmap_cons. simpl. rewrite IH. unfold path_weight.
  rewrite length_app. simpl. lia.
Qed.

Lemma bfs_iter_weight (g : Graph) stop maxDepth p st :
  (queue_weight (max_degree g) (Z.to_nat (maxDepth + 1))
     (queue (bfs_iter g stop maxDepth p st))
   < path_weight (max_degree g) (Z.to_nat (maxDepth + 1)) p
     + queue_weight (max_degree g) (Z.to_nat (maxDepth + 1)) (queue st))%nat.
Proof.
  set (d := max_degree g). set (D := Z.to_nat (maxDepth + 1)).
  pose proof (tree_bound_pos d (D + 1 - length p)) as Hpos.
  unfold bfs_iter.
  case_bool_decide as Hlen; [unfold path_weight; lia|].
  destruct (_ && _); [simpl; unfold path_weight; lia|].
  case_bool_decide; [unfold path_weight; lia|].
  simpl. rewrite queue_weight_app, queue_weight_children.
  assert (length p ≤ D)%nat as HD by (subst D; lia).
  unfold path_weight.
  replace (D + 1 - length p)%nat with (S (D - length p)) by lia.
  replace (D + 1 - (length p + 1))%nat with (D - length p)%nat by lia.
  simpl.
  pose proof (length_filter (λ n, n ∉ p) (neighbors_of g p)) as Hf.
  pose proof (neighbors_of_length g p) as Hn. fold d in Hn.
  assert (length (filter (λ n, n ∉ p) (neighbors_of g p))
            * tree_bound d (D - length p)
          ≤ d * tree_bound d (D - length p))%nat by (apply Nat.mul_le_mono_r; lia).
  lia.
Qed.

Lemma bfs_loop_enough_fuel (g : Graph) stop maxDepth fuel st :
  (queue_weight (max_degree g) (Z.to_nat (maxDepth + 1)) (queue st) ≤ fuel)%nat →
  is_Some (bfs_loop fuel g stop maxDepth st).
Proof.
  revert st. induction fuel as [|fuel IH]; intros [q v ps] Hw; simpl in *.
  - destruct q as [|p rest]; [by eexists|].
    exfalso. unfold queue_weight in Hw. simpl in Hw.
    pose proof (tree_bound_pos (max_degree g)
                  (Z.to_nat (maxDepth + 1) + 1 - length p)).
    unfold path_weight in Hw. lia.
  - destruct q as [|p rest]; [by eexists|].
    apply IH.
    pose proof (bfs_iter_weight g stop maxDepth p
                  {| queue := rest; visited := v; paths := ps |}) as Hlt.
    simpl in Hlt. unfold queue_weight in Hw at 1. simpl in Hw.
    fold (queue_weight (max_degree g) (Z.to_nat (maxDepth + 1)) rest) in Hw.
    lia.
Qed.

Lemma bfs_fuel_enough (g : Graph) start stop maxDepth :
  is_Some (bfs_loop (bfs_fuel g maxDepth) g stop maxDepth (bfs_init start)).
Proof.
  apply bfs_loop_enough_fuel. unfold bfs_init, bfs_fuel, queue_weight. simpl.
  unfold path_weight. simpl.
  replace (Z.to_nat (maxDepth + 1) + 1 - 1)%nat
    with (Z.to_nat (maxDepth + 1)) by lia.
  lia.
Qed.

Lemma findAllPathsBFS_run (g : Graph) start stop maxDepth :
  bfs_loop (bfs_fuel g maxDepth) g stop maxDepth (bfs_init start)
  = Some (findAllPathsBFS g start stop maxDepth).
Proof.
  unfold findAllPathsBFS.
  by destruct (bfs_fuel_enough g start stop maxDepth) as [ps ->].
Qed.

Lemma bfs_loop_more_fuel (g : Graph) stop maxDepth fuel fuel' st ps :
  (fuel ≤ fuel')%nat →
  bfs_loop fuel g stop maxDepth st = Some ps →
  bfs_loop fuel' g stop maxDepth st = Some ps.
Proof.
  revert fuel' st. induction fuel as [|fuel IH]; intros fuel' [q v rs] Hle; simpl.
  - destruct q; [|done]. intros [= <-]. by destruct fuel'.
  - destruct q as [|p rest]; [intros [= <-]; by destruct fuel'|].
    destruct fuel' as [|fuel']; [lia|]. simpl. apply IH. lia.
Qed.

(** *** Every enumerated path is a simple path from [start] to [stop] *)

Lemma partial_ok_extend start (p : Path) n :
  partial_ok start p → n ∉ p → partial_ok start (p ++ [n]).
Proof.
  intros [Hh Hnd] Hn. split.
  - destruct p; [done|]. done.
  - apply NoDup_app. split_and!; [done| |apply NoDup_singleton].
    intros x Hx Hx'. apply list_elem_of_singleton in Hx'. by subst.
Qed.

Lemma bfs_iter_sound (g : Graph) start stop maxDepth p st :
  partial_ok start p →
  Forall (partial_ok start) (queue st) →
  Forall (result_ok start stop maxDepth) (paths st) →
  Forall (partial_ok start) (queue (bfs_iter g stop maxDepth p st)) ∧
  Forall (result_ok start stop maxDepth) (paths (bfs_iter g stop maxDepth p st)).
Proof.
  intros Hp Hq Hps. unfold bfs_iter.
  case_bool_decide as Hlen; [done|].
  destruct (bool_decide (last p = Some stop) && _) eqn:Hend.
  - apply andb_prop in Hend as [Hl Hlong].
    apply bool_decide_eq_true in Hl. apply bool_decide_eq_true in Hlong.
    simpl. split; [done|]. apply Forall_app. split; [done|].
    apply Forall_singleton. destruct Hp as [Hh Hnd].
    unfold result_ok. split_and!; [done|done|lia|done|done].
  - destruct (bool_decide (pathKey p ∈ visited st)); [done|].
    simpl. split; [|done].
    apply Forall_app. split; [done|]. apply Forall_fmap, Forall_forall.
    intros n Hn. apply list_elem_of_filter in Hn as [Hn _]. simpl.
    by apply partial_ok_extend.
Qed.

Lemma bfs_loop_sound (g : Graph) start stop maxDepth fuel st ps :
  Forall (partial_ok start) (queue st) →
  Forall (result_ok start stop maxDepth) (paths st) →
  bfs_loop fuel g stop maxDepth st = Some ps →
  Forall (result_ok start stop maxDepth) ps.
Proof.
  revert st. induction fuel as [|fuel IH]; intros [q v rs] Hq Hrs; simpl in *.
  - destruct q; [|discriminate]. by intros [= <-].
  - destruct q as [|p rest]; [by intros [= <-]|].
    apply Forall_cons in Hq as [Hp Hrest].
    destruct (bfs_iter_sound g start stop maxDepth p
                {| queue := rest; visited := v; paths := rs |} Hp Hrest Hrs)
      as [Hq' Hrs'].
    by apply IH.
Qed.

Lemma result_ok_distinct_ends start stop maxDepth p :
  result_ok start stop maxDepth p → start ≠ stop.
Proof.
  intros (Hh & Hl & _ & Hnd & Hlen) ->.
  destruct p as [|x p]; [done|]. simpl in Hh. injection Hh as ->.
  destruct p as [|y p]; [simpl in Hlen; lia|].
  rewrite last_cons_cons in Hl. apply last_Some_elem_of in Hl.
  apply NoDup_cons in Hnd as [Hx _]. done.
Qed.

(** C1.  For every token graph, source [a], destination [b] and hop
    bound [H], the search loop of [findAllPathsBFS] runs to completion,
    and every path it returns starts at [a], ends at [b], has at most
    [H+1] tokens and repeats no token; when source and destination are
    the same token the result is the empty list. *)
Theorem findAllPathsBFS_simple_paths (g : Graph) (a b : string) (H : Z) :
  bfs_loop (bfs_fuel g H) g b H (bfs_init a) = Some (findAllPathsBFS g a b H) ∧
  Forall (λ p, head p = Some a ∧ last p = Some b ∧
               Z.of_nat (length p) ≤ H + 1 ∧ NoDup p)
         (findAllPathsBFS g a b H) ∧
  findAllPathsBFS g a a H = [].
Proof.
  assert (∀ s e, Forall (result_ok s e H) (findAllPathsBFS g s e H)) as Hall.
  { intros s e. eapply bfs_loop_sound; [| |apply findAllPathsBFS_run]; simpl; [|done].
    apply Forall_singleton. split; [done|]. apply NoDup_singleton. }
  split_and!.
  - apply findAllPathsBFS_run.
  - eapply Forall_impl; [apply Hall|]. intros p (?&?&?&?&?). done.
  - specialize (Hall a a). destruct (findAllPathsBFS g a a H) as [|p ps]; [done|].
    apply Forall_cons in Hall as [Hp _].
    by apply result_ok_distinct_ends in Hp.
Qed.

(** *** Adjacency arrays built from the pool list *)

Lemma adjacency_ensure g t t' :
  adjacency (graph_ensure t g) t' = adjacency g t'.
Proof.
  unfold adjacency, graph_ensure. destruct (g !! t) eqn:E; [done|].
  destruct (decide (t = t')) as [->|Hne].
  - by rewrite lookup_insert_eq, E.
  - by rewrite lookup_insert_ne.
Qed.

Lemma is_Some_ensure g t : is_Some (graph_ensure t g !! t).
Proof.
  unfold graph_ensure. destruct (g !! t) eqn:E; [by rewrite E|].
  by rewrite lookup_insert_eq.
Qed.

Lemma is_Some_ensure_mono g t t' :
  is_Some (g !! t') → is_Some (graph_ensure t g !! t').
Proof.
  unfold graph_ensure. destruct (g !! t) eqn:E; [done|].
  intros Hs. destruct (decide (t = t')) as [->|Hne].
  - by rewrite lookup_insert_eq.
  - by rewrite lookup_insert_ne.
Qed.

Lemma adjacency_push g t n t' :
  is_Some (g !! t) →
  adjacency (graph_push t n g) t' =
  adjacency g t' ++ (if decide (t = t') then [n] else []).
Proof.
  intros [l Hl]. unfold adjacency, graph_push.
  destruct (decide (t = t')) as [<-|Hne].
  - by rewrite lookup_alter_eq, Hl.
  - rewrite lookup_alter_ne by done. by rewrite app_nil_r.
Qed.

Lemma is_Some_push g t n t' :
  is_Some (g !! t') → is_Some (graph_push t n g !! t').
Proof.
  intros Hs. unfold graph_push. destruct (decide (t = t')) as [<-|Hne].
  - rewrite lookup_alter_eq. by apply fmap_is_Some.
  - by rewrite lookup_alter_ne.
Qed.

Lemma adjacency_add_pool g pool t :
  adjacency (graph_add_pool g pool) t =
  adjacency g t
  ++ (if decide (tokenA_address pool = t) then [tokenB_address pool] else [])
  ++ (if decide (tokenB_address pool = t) then [tokenA_address pool] else []).
Proof.
  unfold graph_add_pool. cbv zeta.
  rewrite adjacency_push.
  2:{ apply is_Some_push, is_Some_ensure. }
  rewrite adjacency_push.
  2:{ apply is_Some_ensure_mono, is_Some_ensure. }
  by rewrite !adjacency_ensure, <-app_assoc.
Qed.

Lemma edges_from_app t es1 es2 :
  edges_from t (es1 ++ es2) = edges_from t es1 ++ edges_from t es2.
Proof. unfold edges_from. by rewrite filter_app, fmap_app. Qed.

Lemma adjacency_buildTokenGraph pools t :
  adjacency (buildTokenGraph pools) t = edges_from t (directed_edges pools).
Proof.
  unfold buildTokenGraph. induction pools as [|pool pools IH] using rev_ind.
  - done.
  - rewrite foldl_snoc, adjacency_add_pool, IH.
    unfold directed_edges. rewrite bind_app, edges_from_app. f_equal.
    simpl. unfold edges_from.
    rewrite !filter_cons, filter_nil. simpl.
    repeat case_decide; done.
Qed.

(** *** No path is enumerated twice when adjacency arrays are duplicate-free *)

Lemma proper_prefix_length p r : proper_prefix p r → (length p < length r)%nat.
Proof.
  intros (k & Hk & ->). rewrite length_app. destruct k; [done|]. simpl. lia.
Qed.

Lemma proper_prefix_snoc_l p n r : proper_prefix (p ++ [n]) r → proper_prefix p r.
Proof.
  intros (k & _ & ->). exists (n :: k). split; [done|]. by rewrite <-app_assoc.
Qed.

Lemma proper_prefix_snoc_r p' p n :
  proper_prefix p' (p ++ [n]) → p' = p ∨ proper_prefix p' p.
Proof.
  intros (k & Hk & Heq).
  destruct k as [|x k' _] using rev_ind; [done|].
  rewrite app_assoc in Heq. apply app_inj_tail in Heq as [-> _].
  destruct k' as [|y k'].
  - left. by rewrite app_nil_r.
  - right. by exists (y :: k').
Qed.

Lemma bfs_distinct_drop p q rs : bfs_distinct (p :: q) rs → bfs_distinct q rs.
Proof.
  intros [Hq Hrs Hd Hp]. apply NoDup_cons in Hq as [_ Hq]. split; [done|done| |].
  - intros r Hr Hin. apply (Hd r Hr). by right.
  - intros p' r Hp' Hr. apply Hp; [by right|].
    rewrite elem_of_app in Hr |- *. destruct Hr; [left; by right|by right].
Qed.

Lemma bfs_distinct_emit p q rs : bfs_distinct (p :: q) rs → bfs_distinct q (rs ++ [p]).
Proof.
  intros [Hq Hrs Hd Hp]. apply NoDup_cons in Hq as [Hpq Hq]. split; [done| | |].
  - apply NoDup_app. split_and!; [done| |apply NoDup_singleton].
    intros r Hr Hr'. apply list_elem_of_singleton in Hr' as ->.
    apply (Hd p Hr). by left.
  - intros r Hr Hin. apply elem_of_app in Hr as [Hr|Hr].
    + apply (Hd r Hr). by right.
    + apply list_elem_of_singleton in Hr as ->. done.
  - intros p' r Hp' Hr. apply Hp; [by right|].
    rewrite !elem_of_app in Hr. rewrite elem_of_app.
    destruct Hr as [Hr|[Hr|Hr]]; [left; by right|by right|].
    apply list_elem_of_singleton in Hr as ->. left; by left.
Qed.

Lemma bfs_distinct_expand p q rs (ns : list string) :
  NoDup ns →
  bfs_distinct (p :: q) rs →
  bfs_distinct (q ++ ((λ n, p ++ [n]) <$> ns)) rs.
Proof.
  intros Hns [Hq Hrs Hd Hp]. apply NoDup_cons in Hq as [Hpq Hq].
  assert (∀ c, c ∈ (λ n, p ++ [n]) <$> ns → proper_prefix p c) as Hchild.
  { intros c Hc. apply list_elem_of_fmap in Hc as (n & -> & _).
    by exists [n]. }
  assert (∀ c, c ∈ (λ n, p ++ [n]) <$> ns → c ∈ (p :: q) ++ rs → False) as Hfresh.
  { intros c Hc Hin. apply (Hp p c); [by left|done|by apply Hchild]. }
  split; [| done | |].
  - apply NoDup_app. split_and!; [done| |].
    + intros c Hc Hc'. apply (Hfresh c Hc'). apply elem_of_app. left. by right.
    + apply NoDup_fmap_2; [|done]. intros n1 n2 Heq.
      by apply app_inj_tail in Heq as [_ ->].
  - intros r Hr Hin. apply elem_of_app in Hin as [Hin|Hin].
    + apply (Hd r Hr). by right.
    + apply (Hfresh r Hin). apply elem_of_app. by right.
  - intros p' r Hp' Hr Hpre.
    assert (r ∈ (p :: q) ++ rs ∨ r ∈ (λ n, p ++ [n]) <$> ns) as Hr'.
    { rewrite !elem_of_app in Hr. rewrite elem_of_app.
      destruct Hr as [[Hr|Hr]|Hr]; [left; left; by right|by right|left; by right]. }
    apply elem_of_app in Hp' as [Hp'|Hp'].
    + destruct Hr' as [Hr'|Hr'].
      * apply (Hp p' r); [by right|done|done].
      * apply list_elem_of_fmap in Hr' as (n & -> & _).
        apply proper_prefix_snoc_r in Hpre as [->|Hpre]; [done|].
        apply (Hp p' p); [by right| |done]. apply elem_of_app. left. by left.
    + apply list_elem_of_fmap in Hp' as (n & -> & _).
      destruct Hr' as [Hr'|Hr'].
      * apply proper_prefix_snoc_l in Hpre. apply (Hp p r); [by left|done|done].
      * apply list_elem_of_fmap in Hr' as (m & -> & _).
        apply proper_prefix_length in Hpre. rewrite !length_app in Hpre.
        simpl in Hpre. lia.
Qed.

Lemma neighbors_of_NoDup g p : adjacency_NoDup g → NoDup (neighbors_of g p).
Proof.
  intros Hg. unfold neighbors_of. destruct (last p) as [n|]; [|apply NoDup_nil_2].
  destruct (g !! n) as [l|] eqn:E; simpl; [by eapply Hg|apply NoDup_nil_2].
Qed.

Lemma bfs_iter_distinct g stop maxDepth p st :
  adjacency_NoDup g →
  bfs_distinct (p :: queue st) (paths st) →
  bfs_distinct (queue (bfs_iter g stop maxDepth p st))
               (paths (bfs_iter g stop maxDepth p st)).
Proof.
  intros Hg Hinv. unfold bfs_iter.
  destruct (bool_decide (maxDepth + 1 < Z.of_nat (length p)));
    [by eapply bfs_distinct_drop|].
  destruct (_ && _); [simpl; by apply bfs_distinct_emit|].
  destruct (bool_decide (pathKey p ∈ visited st));
    [by eapply bfs_distinct_drop|].
  simpl. apply bfs_distinct_expand; [|done].
  apply NoDup_filter. by apply neighbors_of_NoDup.
Qed.

Lemma bfs_loop_distinct g stop maxDepth fuel st ps :
  adjacency_NoDup g →
  bfs_distinct (queue st) (paths st) →
  bfs_loop fuel g stop maxDepth st = Some ps →
  NoDup ps.
Proof.
  intros Hg. revert st.
  induction fuel as [|fuel IH]; intros [q v rs] Hinv; simpl in *.
  - destruct q; [|discriminate]. intros [= <-]. by destruct Hinv.
  - destruct q as [|p rest]; [intros [= <-]; by destruct Hinv|].
    apply IH.
    by apply (bfs_iter_distinct g stop maxDepth p
                {| queue := rest; visited := v; paths := rs |}).
Qed.

Lemma findAllPathsBFS_NoDup g a b maxDepth :
  adjacency_NoDup g → NoDup (findAllPathsBFS g a b maxDepth).
Proof.
  intros Hg.
  eapply bfs_loop_distinct; [done| |apply findAllPathsBFS_run]. simpl.
  split; [apply NoDup_singleton|apply NoDup_nil_2|set_solver|].
  intros p r Hp Hr Hpre. rewrite app_nil_r in Hr.
  apply list_elem_of_singleton in Hp as ->.
  apply list_elem_of_singleton in Hr as ->.
  apply proper_prefix_length in Hpre. lia.
Qed.

Lemma elem_of_directed_edges pools t n :
  (t, n) ∈ directed_edges pools ↔
  ∃ pool, pool ∈ pools ∧
    ((tokenA_address pool = t ∧ tokenB_address pool = n) ∨
     (tokenB_address pool = t ∧ tokenA_address pool = n)).
Proof.
  unfold directed_edges. rewrite list_elem_of_bind. split.
  - intros (pool & Hin & Hpool). exists pool. split; [done|].
    rewrite !elem_of_cons, elem_of_nil in Hin.
    destruct Hin as [[= -> ->]|[[= -> ->]|[]]]; [by left|by right].
  - intros (pool & Hpool & [[<- <-]|[<- <-]]); exists pool; set_solver.
Qed.

Lemma elem_of_edges_from t n es : n ∈ edges_from t es ↔ (t, n) ∈ es.
Proof.
  unfold edges_from. rewrite list_elem_of_fmap. split.
  - intros ([t' n'] & -> & Hin). apply list_elem_of_filter in Hin as [Ht Hin].
    simpl in *. by subst.
  - intros Hin. exists (t, n). split; [done|]. by apply list_elem_of_filter.
Qed.

Lemma edges_from_NoDup t es : NoDup es → NoDup (edges_from t es).
Proof.
  intros Hes. unfold edges_from. apply NoDup_fmap_2_strong.
  - intros [t1 n1] [t2 n2] H1 H2 Heq.
    apply list_elem_of_filter in H1 as [H1 _].
    apply list_elem_of_filter in H2 as [H2 _]. simpl in *. by subst.
  - by apply NoDup_filter.
Qed.

Lemma buildTokenGraph_adjacency_NoDup pools :
  NoDup (directed_edges pools) → adjacency_NoDup (buildTokenGraph pools).
Proof.
  intros Hnd t l Hl.
  pose proof (adjacency_buildTokenGraph pools t) as Hadj.
  unfold adjacency in Hadj. rewrite Hl in Hadj. simpl in Hadj. subst l.
  by apply edges_from_NoDup.
Qed.


(** C5, as stated, fails: two pools over the same pair leave two entries
    in each adjacency array, so the graph differs from the one a single
    pool gives, and the direct path is enumerated twice. *)
Lemma parallel_pools_duplicate_entries :
  buildTokenGraph [pool_TETH_TUSDC; pool_TETH_TUSDC'] !! TETH
    = Some [TUSDC; TUSDC] ∧
  buildTokenGraph [pool_TETH_TUSDC] !! TETH = Some [TUSDC] ∧
  buildTokenGraph [pool_TETH_TUSDC; pool_TETH_TUSDC']
    ≠ buildTokenGraph [pool_TETH_TUSDC] ∧
  findAllPathsBFS (buildTokenGraph [pool_TETH_TUSDC; pool_TETH_TUSDC'])
      TETH TUSDC 3
    = [[TETH; TUSDC]; [TETH; TUSDC]].
Proof.
  split_and!; [by vm_compute|by vm_compute| |by vm_compute].
  intros Heq. apply (f_equal (λ g : Graph, g !! TETH)) in Heq.
  vm_compute in Heq. discriminate Heq.
Qed.

(** C5 (amended).  [buildTokenGraph] maps a token to the array of its
    trading partners with one entry per pool side that touches it, in
    pool order; a token is listed for another exactly when some pool
    pairs them; and when no directed pair occurs twice in the pool list
    (no parallel pools, no pool of a token with itself) the arrays are
    duplicate-free and [findAllPathsBFS] over the built graph returns no
    path twice. *)
Theorem buildTokenGraph_adjacency_arrays (pools : list PoolWithTokens) :
  (∀ t, adjacency (buildTokenGraph pools) t
        = edges_from t (directed_edges pools)) ∧
  (∀ t n, n ∈ adjacency (buildTokenGraph pools) t ↔
     ∃ pool, pool ∈ pools ∧
       ((tokenA_address pool = t ∧ tokenB_address pool = n) ∨
        (tokenB_address pool = t ∧ tokenA_address pool = n))) ∧
  (NoDup (directed_edges pools) →
     adjacency_NoDup (buildTokenGraph pools) ∧
     ∀ a b H, NoDup (findAllPathsBFS (buildTokenGraph pools) a b H)).
Proof.
  split_and!.
  - apply adjacency_buildTokenGraph.
  - intros t n.
    by rewrite adjacency_buildTokenGraph, elem_of_edges_from,
      elem_of_directed_edges.
  - intros Hnd.
    pose proof (buildTokenGraph_adjacency_NoDup pools Hnd) as Hg.
    split; [done|]. intros a b H. by apply findAllPathsBFS_NoDup.
Qed.

Lemma buildTokenGraph_adjacency_arrays_witness :
  NoDup (directed_edges [pool_TETH_TUSDC; pool_TUSDC_TUSDT; pool_TETH_TUSDT]) ∧
  NoDup (findAllPathsBFS
           (buildTokenGraph [pool_TETH_TUSDC; pool_TUSDC_TUSDT; pool_TETH_TUSDT])
           TETH TUSDT 4).
Proof.
  assert (NoDup (directed_edges
            [pool_TETH_TUSDC; pool_TUSDC_TUSDT; pool_TETH_TUSDT])) as Hnd.
  { apply (bool_decide_unpack _). vm_compute. exact I. }
  split; [exact Hnd|].
  apply (buildTokenGraph_adjacency_arrays
           [pool_TETH_TUSDC; pool_TUSDC_TUSDT; pool_TETH_TUSDT]).
  exact Hnd.
Defined.

(** ** Route evaluation *)

Lemma survivors_snoc router amt ps p :
  survivors router amt (ps ++ [p]) =
  survivors router amt ps ++
    match quote_of router amt p with
    | Some out => [(p, out)]
    | None => []
    end.
Proof.
  unfold survivors. rewrite omap_app. f_equal. simpl.
  by destruct (quote_of router amt p).
Qed.

Lemma eval_path_skip router amt st p :
  quote_of router amt p = None → eval_path router amt st p = st.
Proof.
  unfold quote_of, eval_path. destruct (router amt p) as [amounts|]; [|done].
  simpl. by intros ->.
Qed.

Lemma first_best_snoc_new S p best :
  Forall (λ s, s.2 < best) S → first_best (S ++ [(p, best)]) p best.
Proof.
  intros Hlt. exists (length S). split.
  - by rewrite lookup_app_r, Nat.sub_diag.
  - intros j q out Hj. apply lookup_app_Some in Hj as [Hj|[Hge Hj]].
    + rewrite Forall_forall in Hlt.
      apply list_elem_of_lookup_2 in Hj. apply Hlt in Hj. simpl in Hj.
      split; lia.
    + apply list_lookup_singleton_Some in Hj as [_ [= <- <-]]. split; [lia|done].
Qed.

Lemma first_best_snoc_keep S bp best p out :
  out ≤ best → first_best S bp best → first_best (S ++ [(p, out)]) bp best.
Proof.
  intros Hle (i & Hi & Hall). exists i. split.
  - by apply lookup_app_l_Some.
  - intros j q o Hj. apply lookup_app_Some in Hj as [Hj|[Hge Hj]].
    + by apply (Hall j q o).
    + apply list_lookup_singleton_Some in Hj as [_ [= <- <-]].
      split; [done|]. intros _. apply lookup_lt_Some in Hi. lia.
Qed.

Lemma eval_path_inv router amt S st p :
  best_inv S st →
  best_inv (S ++ match quote_of router amt p with
                 | Some out => [(p, out)]
                 | None => []
                 end)
           (eval_path router amt st p).
Proof.
  intros [Hall Hbest].
  destruct (quote_of router amt p) as [out|] eqn:Hq.
  2:{ rewrite eval_path_skip by done. by rewrite app_nil_r. }
  unfold quote_of in Hq. unfold eval_path.
  destruct (router amt p) as [amounts|]; [|done]. simpl in Hq. rewrite Hq.
  split; simpl.
  - rewrite fmap_app, Hall. done.
  - destruct (bestPath st) as [bp|].
    + destruct Hbest as [Hpos Hfb]. case_bool_decide as Hlt.
      * split; [lia|]. apply first_best_snoc_new.
        destruct Hfb as (i & _ & Hle). apply Forall_forall.
        intros [q o] Hin. apply list_elem_of_lookup_1 in Hin as [j Hj].
        apply Hle in Hj as [Hj _]. simpl. lia.
      * split; [done|]. apply first_best_snoc_keep; [lia|done].
    + destruct Hbest as [Hzero Hle]. case_bool_decide as Hlt.
      * split; [lia|]. apply first_best_snoc_new.
        eapply Forall_impl; [exact Hle|]. intros [q o]. simpl. lia.
      * split; [done|]. apply Forall_app. split; [done|].
        apply Forall_singleton. simpl. lia.
Qed.

Lemma eval_loop_inv router amt ps S st :
  best_inv S st →
  best_inv (S ++ survivors router amt ps)
           (foldl (eval_path router amt) st ps).
Proof.
  revert S st. induction ps as [|p ps IH] using rev_ind; intros S st Hinv.
  - simpl. by rewrite app_nil_r.
  - rewrite foldl_snoc, survivors_snoc, app_assoc.
    apply eval_path_inv. by apply IH.
Qed.

Lemma eval_init_inv : best_inv [] eval_init.
Proof. split; [done|]. simpl. split; [done|]. apply Forall_nil_2. Qed.

Lemma findOptimalPath_loop_state (router : Router)
    (pools : list PoolWithTokens) (a b testAmount : string) :
  let r := findOptimalPath router pools a b testAmount in
  ∃ st,
    best_inv (survivors router testAmount
                (findAllPathsBFS (buildTokenGraph pools) a b 4)) st ∧
    allPaths r = ev_allPaths st ∧
    optimal r = (λ bp, {| path := bp; expectedOutput := bestOutput st;
                          hops := Z.of_nat (length bp) - 1;
                          gasEstimate := estimateMultiHopGas bp |})
                <$> bestPath st.
Proof.
  unfold findOptimalPath. cbv zeta.
  set (found := findAllPathsBFS (buildTokenGraph pools) a b 4).
  case_bool_decide as Hlen.
  - apply length_zero_iff_nil in Hlen. rewrite Hlen. simpl.
    exists eval_init. split; [apply eval_init_inv|done].
  - exists (foldl (eval_path router testAmount) eval_init found). simpl.
    split; [apply (eval_loop_inv router testAmount found [] eval_init eval_init_inv)|].
    split; [done|]. by destruct (bestPath _).
Qed.

(** C2, as stated, fails when every surviving path quotes 0 (pools that
    were created but never funded): two paths survive with equal output,
    the direct one is discovered first, and no optimal route is
    reported. *)
Lemma zero_output_ties_report_no_optimal :
  let r := findOptimalPath (Amm.chain_router unfunded_chain) triangle_pools
             TETH TUSDC "1000" in
  route_key <$> allPaths r
    = [([TETH; TUSDC], 0); ([TETH; TUSDT; TUSDC], 0)] ∧
  optimal r = None.
Proof. by vm_compute. Qed.

(** C2 (amended).  [allPaths] lists exactly the candidate paths whose
    chained quote succeeds, in discovery order.  A route reported as
    optimal is one of them, its output is positive and at least the
    output of every surviving path, and no surviving path discovered
    before it has the same output.  No optimal route is reported
    exactly when no surviving path has a positive output. *)
Theorem findOptimalPath_first_best (router : Router)
    (pools : list PoolWithTokens) (a b testAmount : string) :
  let r := findOptimalPath router pools a b testAmount in
  let S := survivors router testAmount
             (findAllPathsBFS (buildTokenGraph pools) a b 4) in
  route_key <$> allPaths r = S ∧
  match optimal r with
  | Some o => 0 < expectedOutput o ∧ first_best S (path o) (expectedOutput o)
  | None => Forall (λ s, s.2 ≤ 0) S
  end.
Proof.
  intros r S. subst r S.
  destruct (findOptimalPath_loop_state router pools a b testAmount)
    as (st & [Hall Hbest] & -> & ->).
  split; [done|].
  destruct (bestPath st) as [bp|]; simpl; [done|]. by destruct Hbest.
Qed.

(** ** Hop bound of the two routing endpoints *)

(** C6, as stated, fails for the optimal-path request: with no [maxHops]
    given it still finds the four-hop route of a five-token line, which
    a search with [H = 3] (what /all-paths uses by default) misses. *)
Lemma optimal_path_searches_four_hops :
  findAllPathsBFS (buildTokenGraph line_pools) TETH SUP 3 = [] ∧
  Api.maxHops_of_query None = 3 ∧
  match Api.get_optimal_path (Amm.chain_router line_chain) (Some line_pools)
          TETH SUP None with
  | Api.Json r => path <$> allPaths r
  | Api.ErrorJson _ _ => []
  end = [[TETH; TUSDC; TUSDT; ALP; SUP]].
Proof. by vm_compute. Qed.

(** C6 (amended).  The /all-paths request enumerates with
    [H = min(parseInt(maxHops) || 3, 4)]: never more than 4, equal to 3
    when [maxHops] is absent, and equal to the supplied number clamped
    to 4 when that number is not 0.  The /optimal-path request takes no
    [maxHops] and always enumerates with [H = 4]. *)
Theorem hop_bound_of_routing_requests (router : Router)
    (pools : list PoolWithTokens) (a b : string)
    (maxHopsQuery amountQuery : option string) :
  let H := Api.maxHops_of_query maxHopsQuery in
  (∃ body, Api.get_all_paths (Some pools) a b maxHopsQuery = Api.Json body ∧
     Api.ap_maxHops body = H ∧
     ps_path <$> Api.ap_paths body
       = findAllPathsBFS (buildTokenGraph pools) a b H) ∧
  H ≤ 4 ∧
  Api.maxHops_of_query None = 3 ∧
  match maxHopsQuery with
  | Some s =>
      match Js.parseInt s with
      | Some n => if decide (n = 0) then H = 3 else H = Z.min n 4
      | None => H = 3
      end
  | None => H = 3
  end ∧
  (∃ r, Api.get_optimal_path router (Some pools) a b amountQuery = Api.Json r ∧
     route_key <$> allPaths r
       = survivors router (default "1000000000000000000" amountQuery)
           (findAllPathsBFS (buildTokenGraph pools) a b 4)).
Proof.
  intros H. subst H. split_and!.
  - eexists. split; [reflexivity|]. simpl. split; [done|].
    unfold findAllPaths. cbv zeta.
    induction (findAllPathsBFS _ _ _ _) as [|p ps IH]; [done|].
    rewrite !fmap_cons. simpl. by f_equal.
  - unfold Api.maxHops_of_query. lia.
  - by vm_compute.
  - unfold Api.maxHops_of_query. destruct maxHopsQuery as [s|]; [|by vm_compute].
    simpl. destruct (Js.parseInt s) as [n|]; simpl; [|done].
    case_decide; [done|done].
  - eexists. split; [reflexivity|].
    destruct (findOptimalPath_loop_state router pools a b
                (default "1000000000000000000" amountQuery))
      as (st & [Hall _] & -> & _).
    done.
Qed.

(** ** Empty results *)





(** ** Chained quotes *)

Section quote_monotone.
Import Amm.

Lemma getQuantityOut_mono (amm : AMM) tokenIn a1 a2 o1 o2 :
  valid_amm amm → a1 ≤ a2 →
  getQuantityOut amm tokenIn a1 = Some o1 →
  getQuantityOut amm tokenIn a2 = Some o2 →
  o1 ≤ o2.
Proof.
  intros [[H0 _] [H1 _]] Hle. unfold getQuantityOut.
  unfold checked_mul, checked_add, checked_div, checked_sub.
  repeat (case_bool_decide; simpl; try discriminate).
  - intros [= <-] [= <-].
    assert ((reserve0 amm * reserve1 amm) `div` (reserve0 amm + a2)
            ≤ (reserve0 amm * reserve1 amm) `div` (reserve0 amm + a1)).
    { apply Z.div_le_compat_l; [apply Z.mul_nonneg_nonneg; lia|lia]. }
    lia.
  - intros [= <-] [= <-].
    assert ((reserve1 amm * reserve0 amm) `div` (reserve1 amm + a2)
            ≤ (reserve1 amm * reserve0 amm) `div` (reserve1 amm + a1)).
    { apply Z.div_le_compat_l; [apply Z.mul_nonneg_nonneg; lia|lia]. }
    lia.
Qed.

Lemma getAmountOut_mono (c : Chain) tokenIn tokenOut a1 a2 o1 o2 :
  valid_chain c → a1 ≤ a2 →
  getAmountOut c a1 tokenIn tokenOut = Some o1 →
  getAmountOut c a2 tokenIn tokenOut = Some o2 →
  o1 ≤ o2.
Proof.
  intros Hc Hle. unfold getAmountOut.
  destruct (_pairFor c tokenIn tokenOut) as [pair|]; [|done]. simpl.
  destruct (amm_at c pair) as [amm|] eqn:Hamm; [|done]. simpl.
  apply getQuantityOut_mono; [by eapply Hc|done].
Qed.

Lemma getAmountsOut_loop_mono (c : Chain) path n i am1 am2 l1 l2 :
  valid_chain c →
  Forall2 Z.le am1 am2 →
  getAmountsOut_loop c path n i am1 = Some l1 →
  getAmountsOut_loop c path n i am2 = Some l2 →
  Forall2 Z.le l1 l2.
Proof.
  intros Hc. revert i am1 am2.
  induction n as [|n IH]; intros i am1 am2 Ham; simpl.
  - by intros [= <-] [= <-].
  - destruct (am1 !! i) as [a1|] eqn:H1; [|done].
    destruct (am2 !! i) as [a2|] eqn:H2; [|done]. simpl.
    destruct (path !! i) as [tokenIn|]; [|done]. simpl.
    destruct (path !! S i) as [tokenOut|]; [|done]. simpl.
    destruct (getAmountOut c a1 tokenIn tokenOut) as [o1|] eqn:Ho1; [|done].
    destruct (getAmountOut c a2 tokenIn tokenOut) as [o2|] eqn:Ho2; [|done].
    simpl. apply IH. apply Forall2_insert; [done|].
    eapply getAmountOut_mono; [done| |done|done].
    by eapply (Forall2_lookup_lr _ am1 am2).
Qed.

Lemma getAmountsOut_loop_length (c : Chain) path n i am l :
  getAmountsOut_loop c path n i am = Some l → length l = length am.
Proof.
  revert i am. induction n as [|n IH]; intros i am; simpl.
  - by intros [= <-].
  - destruct (am !! i); [|done]. simpl.
    destruct (path !! i); [|done]. simpl.
    destruct (path !! S i); [|done]. simpl.
    destruct (getAmountOut _ _ _ _); [|done]. simpl.
    intros Hl. apply IH in Hl. by rewrite length_insert in Hl.
Qed.

Lemma getAmountsOut_length (c : Chain) amountIn path l :
  getAmountsOut c amountIn path = Some l →
  length l = length path ∧ (2 ≤ length path)%nat.
Proof.
  unfold getAmountsOut. case_bool_decide; [done|]. intros Hl.
  apply getAmountsOut_loop_length in Hl.
  rewrite length_insert, length_replicate in Hl. lia.
Qed.

Lemma getAmountsOut_mono (c : Chain) path a1 a2 l1 l2 :
  valid_chain c → a1 ≤ a2 →
  getAmountsOut c a1 path = Some l1 →
  getAmountsOut c a2 path = Some l2 →
  Forall2 Z.le l1 l2.
Proof.
  intros Hc Hle. unfold getAmountsOut. case_bool_decide; [done|].
  apply getAmountsOut_loop_mono; [done|].
  apply Forall2_insert; [|done].
  apply Forall2_replicate. lia.
Qed.

Lemma chain_of_valid (pairs : list (address * AMM)) :
  Forall (λ e, valid_amm e.2) pairs → valid_chain (chain_of pairs).
Proof.
  intros Hall a amm. simpl.
  destruct (List.find _ pairs) as [e|] eqn:Hfind; [|done].
  intros [= <-]. apply find_some in Hfind as [Hin _].
  rewrite Forall_forall in Hall. apply Hall. by apply list_elem_of_In.
Qed.

End quote_monotone.

(** C8.  For a fixed path and fixed pool reserves, the final amount of
    the chained quote [getAmountsOut] does not decrease when the input
    amount grows: if the quote succeeds for [amountIn1] and for
    [amountIn2] and [amountIn1 <= amountIn2], then the final output for
    [amountIn1] is at most the final output for [amountIn2]. *)
Theorem chained_quote_monotone (c : Amm.Chain) (path : list string)
    (amountIn1 amountIn2 out1 out2 : Z) :
  Amm.valid_chain c →
  amountIn1 ≤ amountIn2 →
  final_output c amountIn1 path = Some out1 →
  final_output c amountIn2 path = Some out2 →
  out1 ≤ out2.
Proof.
  intros Hc Hle. unfold final_output.
  destruct (Amm.getAmountsOut c amountIn1 path) as [l1|] eqn:H1; [|done].
  destruct (Amm.getAmountsOut c amountIn2 path) as [l2|] eqn:H2; [|done].
  simpl. rewrite !last_lookup.
  pose proof (getAmountsOut_mono c path _ _ _ _ Hc Hle H1 H2) as Hall.
  rewrite (Forall2_length _ _ _ Hall). intros Ho1 Ho2.
  by eapply (Forall2_lookup_lr _ l1 l2).
Qed.

Lemma chained_quote_monotone_witness :
  final_output funded_chain 1000 [TETH; TUSDT; TUSDC] = Some 1996 ∧
  final_output funded_chain 5000 [TETH; TUSDT; TUSDC] = Some 9853 ∧
  1996 ≤ 9853.
Proof.
  split; [vm_compute; reflexivity|]. split; [vm_compute; reflexivity|].
  apply (chained_quote_monotone funded_chain [TETH; TUSDT; TUSDC] 1000 5000).
  - apply chain_of_valid. unfold Amm.valid_amm, Amm.uint256_max.
    repeat (apply Forall_cons; split; [simpl; lia|]). apply Forall_nil_2.
  - lia.
  - vm_compute. reflexivity.
  - vm_compute. reflexivity.
Defined.

(** *** The quote is defined on an initial segment of the inputs

    If the chained quote succeeds for an input, it succeeds for every
    smaller positive input, with an output that is no larger. *)

Section quote_defined_below.
Import Amm.

Lemma getQuantityOut_defined_below (amm : AMM) tokenIn a1 a2 o2 :
  valid_amm amm → 0 < a1 ≤ a2 →
  getQuantityOut amm tokenIn a2 = Some o2 →
  ∃ o1, getQuantityOut amm tokenIn a1 = Some o1 ∧ o1 ≤ o2 ∧ (0 < o2 → 0 < o1).
Proof.
  intros Hv Hle H2.
  assert (∃ o1, getQuantityOut amm tokenIn a1 = Some o1 ∧ (0 < o2 → 0 < o1))
    as (o1 & H1 & Hpos).
  { destruct Hv as [[H0 _] [H1 _]]. revert H2. unfold getQuantityOut.
    unfold checked_mul, checked_add, checked_div, checked_sub.
    rewrite (bool_decide_eq_true_2 (0 < a1)) by lia.
    repeat (case_bool_decide; simpl; try discriminate); try lia.
    - intros [= <-]. eexists. split; [reflexivity|]. intros Ho2.
      assert (0 < reserve1 amm).
      { destruct (decide (reserve1 amm = 0)) as [Hz|]; [|lia].
        rewrite Hz, Z.mul_0_r, Z.div_0_l in Ho2 by lia. lia. }
      assert ((reserve0 amm * reserve1 amm) `div` (reserve0 amm + a1)
              < reserve1 amm); [|lia].
      apply Z.div_lt_upper_bound; nia.
    - exfalso.
      assert ((reserve0 amm * reserve1 amm) `div` (reserve0 amm + a1)
              ≤ reserve1 amm); [|lia].
      apply Z.div_le_upper_bound; nia.
    - intros [= <-]. eexists. split; [reflexivity|]. intros Ho2.
      assert (0 < reserve0 amm).
      { destruct (decide (reserve0 amm = 0)) as [Hz|]; [|lia].
        rewrite Hz, Z.mul_0_r, Z.div_0_l in Ho2 by lia. lia. }
      assert ((reserve1 amm * reserve0 amm) `div` (reserve1 amm + a1)
              < reserve0 amm); [|lia].
      apply Z.div_lt_upper_bound; nia.
    - exfalso.
      assert ((reserve1 amm * reserve0 amm) `div` (reserve1 amm + a1)
              ≤ reserve0 amm); [|lia].
      apply Z.div_le_upper_bound; nia. }
  exists o1. split_and!; [done| |done].
  eapply getQuantityOut_mono; [done| |done|done]. lia.
Qed.

Lemma getQuantityOut_positive_input (amm : AMM) tokenIn a o :
  getQuantityOut amm tokenIn a = Some o → 0 < a.
Proof.
  unfold getQuantityOut. case_bool_decide; [done|discriminate].
Qed.

Lemma getAmountsOut_loop_defined_below (c : Chain) path n i am1 am2 l2 :
  valid_chain c →
  Forall2 below am1 am2 →
  getAmountsOut_loop c path n i am2 = Some l2 →
  ∃ l1, getAmountsOut_loop c path n i am1 = Some l1 ∧ Forall2 below l1 l2.
Proof.
  intros Hc. revert i am1 am2.
  induction n as [|n IH]; intros i am1 am2 Ham; simpl.
  - intros [= <-]. by exists am1.
  - destruct (am2 !! i) as [a2|] eqn:H2; [|done]. simpl.
    destruct (Forall2_lookup_r _ _ _ _ _ Ham H2) as (a1 & H1 & [Hle Hpos]).
    rewrite H1. simpl.
    destruct (path !! i) as [tokenIn|]; [|done]. simpl.
    destruct (path !! S i) as [tokenOut|]; [|done]. simpl.
    unfold getAmountOut.
    destruct (_pairFor c tokenIn tokenOut) as [pair|]; [|done]. simpl.
    destruct (amm_at c pair) as [amm|] eqn:Hamm; [|done]. simpl.
    destruct (getQuantityOut amm tokenIn a2) as [o2|] eqn:Ho2; [|done]. simpl.
    pose proof (getQuantityOut_positive_input _ _ _ _ Ho2) as Ha2.
    destruct (getQuantityOut_defined_below amm tokenIn a1 a2 o2)
      as (o1 & -> & Ho & Hopos); [by eapply Hc|split; [auto|done]|done|].
    simpl. apply IH. by apply Forall2_insert.
Qed.

End quote_defined_below.

Lemma chained_quote_defined_below (c : Amm.Chain) (path : list string)
    (amountIn1 amountIn2 out2 : Z) :
  Amm.valid_chain c →
  0 < amountIn1 ≤ amountIn2 →
  final_output c amountIn2 path = Some out2 →
  ∃ out1, final_output c amountIn1 path = Some out1 ∧ out1 ≤ out2.
Proof.
  intros Hc Hle. unfold final_output, Amm.getAmountsOut.
  case_bool_decide; [done|].
  destruct (Amm.getAmountsOut_loop c path _ 0 (<[0%nat:=amountIn2]> _))
    as [l2|] eqn:H2; [|done].
  simpl. intros Hlast.
  destruct (getAmountsOut_loop_defined_below c path (length path - 1) 0
              (<[0%nat:=amountIn1]> (replicate (length path) 0))
              (<[0%nat:=amountIn2]> (replicate (length path) 0)) l2 Hc)
    as (l1 & H1 & Hall); [|exact H2|].
  { apply Forall2_insert; [|split; lia].
    apply Forall2_replicate. split; lia. }
  rewrite H1. simpl. rewrite last_lookup in Hlast |- *.
  rewrite (Forall2_length _ _ _ Hall).
  destruct (Forall2_lookup_r _ _ _ _ _ Hall Hlast) as (o1 & Ho1 & [Hle1 _]).
  by exists o1.
Qed.

(** ** Swap records *)

Lemma pretty_N_go_nonempty (x : N) (s : string) :
  s ≠ "" → pretty_N_go x s ≠ "".
Proof.
  revert s. induction (N.lt_wf_0 x) as [x _ IH]. intros s Hs.
  destruct (decide (x = 0%N)) as [->|Hx].
  - by rewrite pretty_N_go_0.
  - rewrite pretty_N_go_step by lia. apply IH; [|done].
    apply N.div_lt; lia.
Qed.

Lemma pretty_positive_nonempty (p : positive) : pretty p ≠ "".
Proof.
  unfold pretty, pretty_positive, pretty, pretty_N.
  case_decide; [done|].
  rewrite pretty_N_go_step by lia. by apply pretty_N_go_nonempty.
Qed.

Lemma bigint_toString_nonempty (x : Z) : Js.bigint_toString x ≠ "".
Proof.
  unfold Js.bigint_toString, pretty, pretty_Z. destruct x as [|p|p].
  - done.
  - apply pretty_positive_nonempty.
  - done.
Qed.

(** The fallback of [a.toString() || b.toString()] is never taken: the
    stored amounts are always those of side 0. *)
Lemma swap_row_amounts_side0 (id poolId : Z) (ev : Indexer.SwapEvent) :
  swap_amountIn (Indexer.swap_row id poolId ev)
    = Js.bigint_toString (Indexer.amount0In ev) ∧
  swap_amountOut (Indexer.swap_row id poolId ev)
    = Js.bigint_toString (Indexer.amount0Out ev).
Proof.
  unfold Indexer.swap_row, Js.or_string. simpl.
  split; case_decide as He; try done; by apply bigint_toString_nonempty in He.
Qed.

(** C3 (code defect).  A swap with [amount0In = 0], [amount1In = 5000],
    [amount0Out = 4975], [amount1Out = 0] on a recorded pool is stored
    with input side "token1" and output side "token0", output amount
    "4975", but input amount "0" instead of "5000". *)
Theorem swap_side1_input_stored_as_zero :
  ∃ d row,
    Indexer.onSwap (Indexer.db state_after_first) pair1 swap_side1_in
      = (d, Some row) ∧
    swap_tokenIn row = "token1" ∧ swap_tokenOut row = "token0" ∧
    swap_amountOut row = "4975" ∧
    swap_amountIn row = "0" ∧
    swap_amountIn row ≠ Js.bigint_toString (Indexer.amount1In swap_side1_in).
Proof.
  eexists _, _. split; [by vm_compute|]. by vm_compute.
Qed.

(** ** Replaying a PairCreated event *)

Section pair_created.
Import Indexer.

Lemma find_app_Some {A} (f : A → bool) (l l' : list A) x :
  List.find f l = Some x → List.find f (l ++ l') = Some x.
Proof.
  induction l as [|y l IH]; [done|]. simpl. destruct (f y); [done|]. apply IH.
Qed.

Lemma find_app_None {A} (f : A → bool) (l l' : list A) :
  List.find f l = None → List.find f (l ++ l') = List.find f l'.
Proof.
  induction l as [|y l IH]; [done|]. simpl. destruct (f y); [done|]. apply IH.
Qed.

Lemma find_None_not_elem {A B} `{EqDecision B} (key : A → B) (l : list A) k :
  List.find (λ x, bool_decide (key x = k)) l = None → k ∉ key <$> l.
Proof.
  intros Hnone Hin. apply list_elem_of_fmap in Hin as (x & -> & Hx).
  apply list_elem_of_In in Hx.
  pose proof (find_none _ _ Hnone x Hx) as Hf. simpl in Hf.
  by apply bool_decide_eq_false in Hf.
Qed.

Lemma token_upsert_spec (d : Db) address meta :
  let d' := (token_upsert d address meta).1 in
  let t := (token_upsert d address meta).2 in
  find_token d' address = Some t ∧
  pools d' = pools d ∧ pool_seq d' = pool_seq d ∧ swaps d' = swaps d ∧
  (∀ b t', find_token d b = Some t' → find_token d' b = Some t') ∧
  (NoDup (tok_address <$> tokens d) → NoDup (tok_address <$> tokens d')).
Proof.
  unfold token_upsert. destruct (find_token d address) as [t|] eqn:Hfind; simpl.
  - done.
  - split_and!; try done.
    + unfold find_token in *. simpl. rewrite find_app_None by done.
      simpl. by rewrite bool_decide_eq_true_2.
    + intros b t' Hb. unfold find_token in *. simpl. by apply find_app_Some.
    + intros Hnd. rewrite fmap_app. apply NoDup_app. split_and!; [done| |].
      * intros x Hx Hx'. simpl in Hx'. apply list_elem_of_singleton in Hx' as ->.
        by apply find_None_not_elem in Hfind.
      * apply NoDup_singleton.
Qed.

Lemma token_upsert_existing (d : Db) address meta t :
  find_token d address = Some t → token_upsert d address meta = (d, t).
Proof. unfold token_upsert. by intros ->. Qed.

(** Each address keeps at most one token row and one pool row. *)
Lemma onPairCreated_unique_addresses getTokenMeta st tokenA tokenB pair :
  NoDup (tok_address <$> tokens (db st)) →
  NoDup (pool_address <$> pools (db st)) →
  let st' := (onPairCreated getTokenMeta st tokenA tokenB pair).1 in
  NoDup (tok_address <$> tokens (db st')) ∧
  NoDup (pool_address <$> pools (db st')).
Proof.
  intros Ht Hp. unfold onPairCreated.
  destruct (getTokenMeta tokenA) as [metaA|]; [|done].
  destruct (getTokenMeta tokenB) as [metaB|]; [|done].
  pose proof (token_upsert_spec (db st) tokenA metaA) as (_ & HpA & _ & _ & _ & HndA).
  destruct (token_upsert (db st) tokenA metaA) as [db1 tA]. simpl in *.
  pose proof (token_upsert_spec db1 tokenB metaB) as (_ & HpB & _ & _ & _ & HndB).
  destruct (token_upsert db1 tokenB metaB) as [db2 tB]. simpl in *.
  unfold pool_create. destruct (find_pool db2 pair) as [p|] eqn:Hfind; simpl.
  - split; [auto|]. by rewrite HpB, HpA.
  - split; [auto|]. rewrite fmap_app. apply NoDup_app.
    split_and!; [by rewrite HpB, HpA| |apply NoDup_singleton].
    intros x Hx Hx'. simpl in Hx'. apply list_elem_of_singleton in Hx' as ->.
    by apply find_None_not_elem in Hfind.
Qed.

(** Delivering a processed event again: the token upserts change
    nothing, the pool insert is rejected by the unique index, no row
    and no listener is added. *)
Lemma onPairCreated_replay getTokenMeta st tokenA tokenB pair st1 :
  onPairCreated getTokenMeta st tokenA tokenB pair = (st1, Completed) →
  ∃ st2,
    onPairCreated getTokenMeta st1 tokenA tokenB pair
      = (st2, Rejected (UniqueConstraintFailed "Pool_address_key")) ∧
    tokens (db st2) = tokens (db st1) ∧
    pools (db st2) = pools (db st1) ∧
    listening st2 = listening st1.
Proof.
  unfold onPairCreated at 1.
  destruct (getTokenMeta tokenA) as [metaA|] eqn:HmA; [|done].
  destruct (getTokenMeta tokenB) as [metaB|] eqn:HmB; [|done].
  pose proof (token_upsert_spec (db st) tokenA metaA) as (HfA & _).
  destruct (token_upsert (db st) tokenA metaA) as [db1 tA]. simpl in *.
  pose proof (token_upsert_spec db1 tokenB metaB) as (HfB & _ & _ & _ & Hkeep & _).
  destruct (token_upsert db1 tokenB metaB) as [db2 tB]. simpl in *.
  apply Hkeep in HfA.
  unfold pool_create. destruct (find_pool db2 pair) as [p|] eqn:Hfind; [done|].
  intros [= <-]. unfold onPairCreated. rewrite HmA, HmB. simpl.
  rewrite (token_upsert_existing _ tokenA metaA tA) by done.
  rewrite (token_upsert_existing _ tokenB metaB tB) by done.
  unfold pool_create, find_pool in *. simpl.
  rewrite find_app_None by done. simpl. rewrite bool_decide_eq_true_2 by done.
  eexists. split; [reflexivity|]. done.
Qed.

End pair_created.

(** C4 (code defect).  Processing [PairCreated(TETH, TUSDC, pair1)] on an
    empty store and then once more: the first run completes; the second
    leaves the token and pool rows as they were (one row per address)
    but does not complete, it is rejected with the unique-constraint
    error of the pool insert. *)
Theorem pair_created_replay_raises :
  let first := Indexer.onPairCreated chain_meta start_state TETH TUSDC pair1 in
  let second := Indexer.onPairCreated chain_meta first.1 TETH TUSDC pair1 in
  first.2 = Indexer.Completed ∧
  second.2 = Indexer.Rejected (Indexer.UniqueConstraintFailed "Pool_address_key") ∧
  Indexer.tokens (Indexer.db second.1) = Indexer.tokens (Indexer.db first.1) ∧
  Indexer.pools (Indexer.db second.1) = Indexer.pools (Indexer.db first.1) ∧
  tok_address <$> Indexer.tokens (Indexer.db second.1) = [TETH; TUSDC] ∧
  pool_address <$> Indexer.pools (Indexer.db second.1) = [pair1].
Proof. by vm_compute. Qed.

(** ** Portfolio grouping *)

(** Two positions of one provider whose pools carry the same pair of
    token symbols always end up in one group, whatever their pools. *)
Lemma same_symbols_one_group (p1 p2 : Api.Position) (user : string) :
  liq_provider (Api.pos_liquidity p1) = user →
  liq_provider (Api.pos_liquidity p2) = user →
  Api.poolKey p1 = Api.poolKey p2 →
  ∃ g, Api.get_portfolio (Some [p1; p2]) user = Api.Json [g] ∧
       Api.positionsCount g = 2 ∧
       Api.fg_poolId g = liq_poolId (Api.pos_liquidity p1).
Proof.
  intros H1 H2 Hkey. unfold Api.get_portfolio.
  rewrite filter_cons_True by done. rewrite filter_cons_True by done.
  rewrite filter_nil. simpl.
  unfold Api.group_position at 2. simpl.
  rewrite decide_True by done.
  unfold Api.group_position, Api.groups_has. simpl.
  rewrite bool_decide_eq_true_2 by (rewrite Hkey; set_solver).
  simpl. rewrite decide_True by done. simpl.
  eexists. split; [reflexivity|]. done.
Qed.

(** C9 (code defect).  Alice holds one position in pool 1 (TETH with
    TUSDC) and one in pool 7 (TETH with another token whose symbol is
    also "TUSDC").  The response has a single group: it carries pool id
    1, counts both positions and adds up the amounts of both pools. *)
Theorem portfolio_merges_pools_with_same_symbols :
  pool_id (pw_pool pool_TETH_TUSDC) ≠ pool_id (pw_pool pool_TETH_TUSDC2) ∧
  Api.get_portfolio (Some alice_rows) alice
    = Api.Json
        [ {| Api.fg_pool := "TETH-TUSDC"; Api.fg_poolId := 1;
             Api.fg_tokenA := tTETH; Api.fg_tokenB := tTUSDC;
             Api.fg_liquidityA := Some 107; Api.fg_liquidityB := Some 209;
             Api.positionsCount := 2 |} ].
Proof. by vm_compute. Qed.

(** ** Validation of the multi-hop quote request *)



(** ** Sanity checks of the JavaScript primitives *)

Example parseInt_examples :
  Js.parseInt "2" = Some 2 ∧ Js.parseInt "  7abc" = Some 7 ∧
  Js.parseInt "0x1f" = Some 31 ∧ Js.parseInt "-5" = Some (-5) ∧
  Js.parseInt "abc" = None ∧ Js.parseInt "" = None ∧
  Js.parseInt "undefined" = None.
Proof. by vm_compute. Qed.

Example maxHops_examples :
  Api.maxHops_of_query (Some "2") = 2 ∧ Api.maxHops_of_query (Some "10") = 4 ∧
  Api.maxHops_of_query (Some "0") = 3 ∧ Api.maxHops_of_query (Some "x") = 3 ∧
  Api.maxHops_of_query (Some "-2") = -2.
Proof. by vm_compute. Qed.

Example bigint_toString_examples :
  Js.bigint_toString 0 = "0" ∧ Js.bigint_toString 5000 = "5000" ∧
  Js.or_string (Js.bigint_toString 0) (Js.bigint_toString 5000) = "0".
Proof. by vm_compute. Qed.

(** Pools A-B and B-C only: a request A to C with two hops finds exactly
    the path through B; nothing is found from a token to itself. *)
Example two_hop_route :
  findAllPathsBFS (buildTokenGraph [pool_TETH_TUSDC; pool_TUSDC_TUSDT])
    TETH TUSDT 2 = [[TETH; TUSDC; TUSDT]] ∧
  findAllPathsBFS (buildTokenGraph [pool_TETH_TUSDC; pool_TUSDC_TUSDT])
    TETH TUSDT 1 = [] ∧
  findAllPathsBFS (buildTokenGraph triangle_pools) TETH TUSDT 4
    = [[TETH; TUSDT]; [TETH; TUSDC; TUSDT]].
Proof. by vm_compute. Qed.

(** With all three pairs funded the direct route quotes more than the
    route through TUSDT and is reported as optimal. *)
Example funded_triangle_optimal :
  let r := findOptimalPath (Amm.chain_router funded_chain) triangle_pools
             TETH TUSDC "1000" in
  route_key <$> allPaths r
    = [([TETH; TUSDC], 2998); ([TETH; TUSDT; TUSDC], 1996)] ∧
  route_key <$> optimal r = Some ([TETH; TUSDC], 2998) ∧
  gasEstimate <$> optimal r = Some 180000.
Proof. by vm_compute. Qed.

(** * Further properties of the code *)

(** ** The quote of a pair *)

Section quote_facts.
Import Amm.

Lemma floor_quotient_bounds (k d : Z) :
  0 ≤ k → 0 < d → 0 ≤ k `div` d ∧ d * (k `div` d) ≤ k < d * (k `div` d) + d.
Proof.
  intros Hk Hd. pose proof (Z.div_mod k d ltac:(lia)) as Hdm.
  pose proof (Z.mod_pos_bound k d Hd) as Hm.
  split; [apply Z.div_pos; lia|]. lia.
Qed.

Lemma getQuantityOut_unfold (amm : AMM) tokenIn amountIn :
  getQuantityOut amm tokenIn amountIn =
  if negb (bool_decide (0 < amountIn)) then None
  else if negb (bool_decide (tokenIn = token0 amm ∨ tokenIn = token1 amm))
  then None
  else
    prod ← checked_mul (reserve_in amm tokenIn) (reserve_out amm tokenIn);
    sum ← checked_add (reserve_in amm tokenIn) amountIn;
    quot ← checked_div prod sum;
    checked_sub (reserve_out amm tokenIn) quot.
Proof.
  unfold getQuantityOut, reserve_in, reserve_out.
  repeat case_bool_decide; done.
Qed.

(** The quote succeeds exactly when the amount is positive, the token is
    one of the pair's two, and neither the product of the reserves nor
    the input reserve plus the amount overflows [uint256]. *)
Theorem getQuantityOut_succeeds_iff (amm : AMM) tokenIn amountIn :
  valid_amm amm →
  is_Some (getQuantityOut amm tokenIn amountIn) ↔
    0 < amountIn ∧
    (tokenIn = token0 amm ∨ tokenIn = token1 amm) ∧
    reserve_in amm tokenIn * reserve_out amm tokenIn ≤ uint256_max ∧
    reserve_in amm tokenIn + amountIn ≤ uint256_max.
Proof.
  intros [[H0 _] [H1 _]]. rewrite getQuantityOut_unfold.
  assert (0 ≤ reserve_in amm tokenIn ∧ 0 ≤ reserve_out amm tokenIn) as [Hi Ho].
  { unfold reserve_in, reserve_out. case_bool_decide; lia. }
  unfold checked_mul, checked_add, checked_div, checked_sub.
  pose proof (floor_quotient_bounds
                (reserve_in amm tokenIn * reserve_out amm tokenIn)
                (reserve_in amm tokenIn + amountIn)) as Hq.
  split.
  - intros [out Hout]. revert Hout.
    repeat (case_bool_decide; simpl; try discriminate). intros _.
    split_and!; [lia|done|lia|lia].
  - intros (Hpos & Htok & Hmul & Hadd).
    rewrite (bool_decide_eq_true_2 (0 < amountIn)) by done. simpl.
    rewrite (bool_decide_eq_true_2 (_ ∨ _)) by done. simpl.
    rewrite (bool_decide_eq_true_2 (_ * _ ≤ _)) by done. simpl.
    rewrite (bool_decide_eq_true_2 (_ + _ ≤ _)) by done. simpl.
    rewrite (bool_decide_eq_false_2 (_ = 0)) by lia. simpl.
    rewrite bool_decide_eq_true_2 by nia. by eexists.
Qed.

(** The quoted output is the constant-product amount
    [amountIn * reserveOut / (reserveIn + amountIn)] rounded up: it
    never exceeds the output reserve, and it is 0 only for an empty
    output reserve. *)
Theorem getQuantityOut_rounds_up (amm : AMM) tokenIn amountIn out :
  valid_amm amm →
  getQuantityOut amm tokenIn amountIn = Some out →
  0 ≤ out ≤ reserve_out amm tokenIn ∧
  amountIn * reserve_out amm tokenIn
    ≤ out * (reserve_in amm tokenIn + amountIn)
    < amountIn * reserve_out amm tokenIn + (reserve_in amm tokenIn + amountIn) ∧
  (out = 0 ↔ reserve_out amm tokenIn = 0).
Proof.
  intros [[H0 _] [H1 _]]. rewrite getQuantityOut_unfold.
  assert (0 ≤ reserve_in amm tokenIn ∧ 0 ≤ reserve_out amm tokenIn) as [Hi Ho].
  { unfold reserve_in, reserve_out. case_bool_decide; lia. }
  unfold checked_mul, checked_add, checked_div, checked_sub.
  repeat (case_bool_decide; simpl; try discriminate).
  intros [= <-].
  pose proof (floor_quotient_bounds
                (reserve_in amm tokenIn * reserve_out amm tokenIn)
                (reserve_in amm tokenIn + amountIn)) as Hq.
  set (q := (reserve_in amm tokenIn * reserve_out amm tokenIn)
              `div` (reserve_in amm tokenIn + amountIn)) in *.
  split_and!; try nia.
Qed.

End quote_facts.

Lemma valid_amm_funded : Amm.valid_amm amm_funded.
Proof. unfold Amm.valid_amm, Amm.uint256_max. simpl. lia. Qed.

Lemma valid_funded_chain : Amm.valid_chain funded_chain.
Proof.
  apply chain_of_valid. unfold Amm.valid_amm, Amm.uint256_max.
  repeat (apply Forall_cons; split; [simpl; lia|]). apply Forall_nil_2.
Qed.

Lemma getQuantityOut_succeeds_iff_witness :
  is_Some (Amm.getQuantityOut amm_funded TETH 1000) ↔
    0 < 1000 ∧
    (TETH = Amm.token0 amm_funded ∨ TETH = Amm.token1 amm_funded) ∧
    reserve_in amm_funded TETH * reserve_out amm_funded TETH ≤ Amm.uint256_max ∧
    reserve_in amm_funded TETH + 1000 ≤ Amm.uint256_max.
Proof.
  apply (getQuantityOut_succeeds_iff amm_funded TETH 1000).
  unfold Amm.valid_amm, Amm.uint256_max. simpl. lia.
Defined.

Lemma getQuantityOut_rounds_up_witness :
  Amm.getQuantityOut amm_funded TETH 1000 = Some 2998 ∧
  1000 * 3000000 ≤ 2998 * (1000000 + 1000) < 1000 * 3000000 + (1000000 + 1000).
Proof.
  split; [vm_compute; reflexivity|].
  apply (getQuantityOut_rounds_up amm_funded TETH 1000 2998).
  - unfold Amm.valid_amm, Amm.uint256_max. simpl. lia.
  - vm_compute. reflexivity.
Defined.

(** ** The amounts array of the router *)

Section amounts_array.
Import Amm.

Lemma getAmountsOut_loop_steps (c : Chain) path n i am l :
  (i + n < length am)%nat →
  getAmountsOut_loop c path n i am = Some l →
  (∀ j, (j ≤ i)%nat → l !! j = am !! j) ∧
  (∀ j, (i ≤ j < i + n)%nat →
     ∃ x y tokenIn tokenOut,
       l !! j = Some x ∧ l !! S j = Some y ∧
       path !! j = Some tokenIn ∧ path !! S j = Some tokenOut ∧
       getAmountOut c x tokenIn tokenOut = Some y).
Proof.
  revert i am. induction n as [|n IH]; intros i am Hlen; simpl.
  - intros [= <-]. split; [done|]. intros j Hj. lia.
  - destruct (am !! i) as [a|] eqn:Ha; [|done]. simpl.
    destruct (path !! i) as [tokenIn|] eqn:Hin; [|done]. simpl.
    destruct (path !! S i) as [tokenOut|] eqn:Hout; [|done]. simpl.
    destruct (getAmountOut c a tokenIn tokenOut) as [out|] eqn:Hq; [|done].
    simpl. intros Hl.
    apply IH in Hl as [Hsame Hsteps]; [|rewrite length_insert; lia].
    split.
    + intros j Hj. rewrite Hsame by lia. apply list_lookup_insert_ne. lia.
    + intros j Hj. destruct (decide (j = i)) as [->|Hne].
      * exists a, out, tokenIn, tokenOut. split_and!; try done.
        -- rewrite Hsame by lia. rewrite list_lookup_insert_ne by lia. done.
        -- rewrite Hsame by lia. apply list_lookup_insert_eq. lia.
      * apply Hsteps. lia.
Qed.

End amounts_array.

(** A successful [getAmountsOut] returns one amount per token of the
    path: the first is [amountIn], every amount fed into a hop is
    positive, and each next amount is the quote of the previous one over
    the pair of that hop. *)
Theorem getAmountsOut_chain (c : Amm.Chain) (amountIn : Z)
    (path : list string) (amounts : list Z) :
  Amm.getAmountsOut c amountIn path = Some amounts →
  length amounts = length path ∧
  amounts !! 0%nat = Some amountIn ∧
  ∀ j, (S j < length path)%nat →
    ∃ x y tokenIn tokenOut,
      amounts !! j = Some x ∧ amounts !! S j = Some y ∧ 0 < x ∧
      path !! j = Some tokenIn ∧ path !! S j = Some tokenOut ∧
      Amm.getAmountOut c x tokenIn tokenOut = Some y.
Proof.
  intros Hq. pose proof (getAmountsOut_length _ _ _ _ Hq) as [Hlen Hge].
  unfold Amm.getAmountsOut in Hq. rewrite bool_decide_eq_false_2 in Hq by lia.
  apply getAmountsOut_loop_steps in Hq as [Hsame Hsteps];
    [|rewrite length_insert, length_replicate; lia].
  split_and!; [done| |].
  - rewrite Hsame by lia. apply list_lookup_insert_eq.
    rewrite length_replicate. lia.
  - intros j Hj.
    destruct (Hsteps j) as (x & y & tokenIn & tokenOut & Hx & Hy & Hi & Ho & Hout);
      [lia|].
    exists x, y, tokenIn, tokenOut. split_and!; try done.
    unfold Amm.getAmountOut in Hout.
    destruct (Amm._pairFor c tokenIn tokenOut); [|done]. simpl in Hout.
    destruct (Amm.amm_at c _); [|done]. simpl in Hout.
    by eapply getQuantityOut_positive_input.
Qed.

Lemma getAmountsOut_chain_witness :
  Amm.getAmountsOut funded_chain 5000 [TETH; TUSDT; TUSDC]
    = Some [5000; 9951; 9853] ∧
  length [5000; 9951; 9853] = length [TETH; TUSDT; TUSDC].
Proof.
  split; [vm_compute; reflexivity|].
  apply (getAmountsOut_chain funded_chain 5000 [TETH; TUSDT; TUSDC]
           [5000; 9951; 9853]).
  vm_compute. reflexivity.
Defined.


(** ** The integer square root of the pair contract *)

Section sqrt_facts.
Import Amm.

Lemma newton_step_ge (x t : Z) :
  0 ≤ x → 0 < t → Z.sqrt x ≤ (x `div` t + t) `div` 2.
Proof.
  intros Hx Ht. pose proof (Z.sqrt_spec x Hx) as Hs.
  pose proof (Z.sqrt_nonneg x) as Hs0. cbv zeta in Hs.
  apply Z.div_le_lower_bound; [lia|].
  assert (2 * Z.sqrt x - t ≤ x `div` t); [|lia].
  apply Z.div_le_lower_bound; [lia|].
  pose proof (Z.square_nonneg (Z.sqrt x - t)). nia.
Qed.

Lemma newton_sum_fits (x z : Z) : 0 < z ≤ x → x `div` z + z ≤ x + 1.
Proof.
  intros Hz. pose proof (floor_quotient_bounds x z ltac:(lia) ltac:(lia)) as Hq.
  assert (1 ≤ x `div` z) by (apply Z.div_le_lower_bound; lia). nia.
Qed.

Lemma _sqrt_loop_result (rounds : nat) (x y z : Z) :
  0 < x < uint256_max → Z.sqrt x ≤ y ≤ x →
  z = (x `div` y + y) `div` 2 →
  (_sqrt_loop rounds x y z = Done (Z.sqrt x) ∨
   _sqrt_loop rounds x y z = OutOfRounds) ∧
  ((Z.to_nat y ≤ rounds)%nat → _sqrt_loop rounds x y z = Done (Z.sqrt x)).
Proof.
  intros Hx. revert y z.
  assert (1 ≤ Z.sqrt x) as Hs1.
  { assert (0 < Z.sqrt x) by (apply Z.sqrt_pos; lia). lia. }
  induction rounds as [|rounds IH]; intros y z Hy ->; simpl.
  - case_bool_decide as Hlt; [split; [by right|lia]|].
    assert (y = Z.sqrt x) as ->; [|by split; [left|]].
    apply Z.le_antisymm; [|lia].
    apply Z.sqrt_le_square; [lia|lia|].
    assert (2 * y ≤ x `div` y + y).
    { pose proof (floor_quotient_bounds (x `div` y + y) 2 ltac:(
        pose proof (Z.div_pos x y); lia) ltac:(lia)). lia. }
    pose proof (floor_quotient_bounds x y ltac:(lia) ltac:(lia)). nia.
  - case_bool_decide as Hlt.
    + set (z := (x `div` y + y) `div` 2) in *.
      assert (Z.sqrt x ≤ z) as Hz by (apply newton_step_ge; lia).
      unfold checked_div, checked_add.
      rewrite (bool_decide_eq_false_2 (z = 0)) by lia. simpl.
      pose proof (newton_sum_fits x z ltac:(lia)).
      rewrite bool_decide_eq_true_2 by lia. simpl.
      destruct (IH z ((x `div` z + z) `div` 2) ltac:(lia) eq_refl) as [Hres Hdone].
      split; [done|]. intros Hr. apply Hdone. lia.
    + assert (y = Z.sqrt x) as ->; [|by split; [left|]].
      apply Z.le_antisymm; [|lia].
      apply Z.sqrt_le_square; [lia|lia|].
      assert (2 * y ≤ x `div` y + y).
      { pose proof (floor_quotient_bounds (x `div` y + y) 2 ltac:(
          pose proof (Z.div_pos x y); lia) ltac:(lia)). lia. }
      pose proof (floor_quotient_bounds x y ltac:(lia) ltac:(lia)). nia.
Qed.

Lemma _sqrt_cases (rounds : nat) (x : Z) :
  0 ≤ x < uint256_max →
  (_sqrt rounds x = Done (Z.sqrt x) ∨ _sqrt rounds x = OutOfRounds) ∧
  ((Z.to_nat x ≤ rounds)%nat → _sqrt rounds x = Done (Z.sqrt x)).
Proof.
  intros Hx. unfold _sqrt. case_bool_decide as H0; [subst; by split; [left|]|].
  unfold checked_add, checked_div.
  rewrite bool_decide_eq_true_2 by lia. simpl.
  apply _sqrt_loop_result; [lia| |].
  - split; [apply Z.sqrt_le_lin; lia|lia].
  - rewrite Z.div_same by lia. f_equal. lia.
Qed.

Lemma _sqrt_max_reverts (rounds : nat) : _sqrt rounds uint256_max = Revert.
Proof. by vm_compute. Qed.

Lemma _sqrt_Done (rounds : nat) (x r : Z) :
  0 ≤ x ≤ uint256_max → _sqrt rounds x = Done r → r = Z.sqrt x.
Proof.
  intros Hx Hr. destruct (decide (x = uint256_max)) as [->|Hne].
  - by rewrite _sqrt_max_reverts in Hr.
  - destruct (_sqrt_cases rounds x ltac:(lia)) as [[Hs|Hs] _];
      rewrite Hs in Hr; [by injection Hr|done].
Qed.

End sqrt_facts.

(** [_sqrt] computes the floor of the square root.  For every [x] below
    the largest [uint256] the loop never reverts; whenever it finishes
    it returns the [r] with [r*r <= x < (r+1)*(r+1)], and [x] rounds
    always suffice for it to finish.  On the largest [uint256] the
    function reverts, because [x + 1] overflows. *)
Theorem _sqrt_floor_root (rounds : nat) (x : Z) :
  0 ≤ x < Amm.uint256_max →
  (_sqrt rounds x = Done (Z.sqrt x) ∨ _sqrt rounds x = OutOfRounds) ∧
  ((Z.to_nat x ≤ rounds)%nat → _sqrt rounds x = Done (Z.sqrt x)) ∧
  Z.sqrt x * Z.sqrt x ≤ x < (Z.sqrt x + 1) * (Z.sqrt x + 1) ∧
  _sqrt rounds Amm.uint256_max = Revert.
Proof.
  intros Hx. destruct (_sqrt_cases rounds x Hx) as [Hres Hdone].
  split; [done|]. split; [done|]. split.
  - pose proof (Z.sqrt_spec x ltac:(lia)) as Hs. cbv zeta in Hs. lia.
  - apply _sqrt_max_reverts.
Qed.

Lemma _sqrt_floor_root_witness :
  _sqrt 12 1000000 = Done 1000 ∧ _sqrt 3 1000000 = OutOfRounds ∧
  (_sqrt 12 1000000 = Done (Z.sqrt 1000000) ∨ _sqrt 12 1000000 = OutOfRounds).
Proof.
  split; [vm_compute; reflexivity|]. split; [vm_compute; reflexivity|].
  apply (_sqrt_floor_root 12 1000000). unfold Amm.uint256_max. lia.
Defined.

(** ** Deposits into a pair *)

Section deposit_facts.
Import Amm.

Lemma run_bind_Done {A B} (r : Run A) (k : A → Run B) b :
  run_bind r k = Done b → ∃ a, r = Done a ∧ k a = Done b.
Proof. destruct r; try done. intros Hk. by eexists. Qed.

Lemma run_checked_Done {A} (o : option A) a :
  run_checked o = Done a → o = Some a.
Proof. destruct o; [|done]. by intros [= ->]. Qed.

Lemma checked_mul_Some a b c : checked_mul a b = Some c → c = a * b.
Proof. unfold checked_mul. case_bool_decide; [|done]. by intros [= <-]. Qed.

Lemma checked_div_Some a b c :
  checked_div a b = Some c → b ≠ 0 ∧ c = a `div` b.
Proof. unfold checked_div. case_bool_decide; [done|]. by intros [= <-]. Qed.

End deposit_facts.

(** [addLiquidity] never plans to pull more than the caller offered and
    never mints nothing: whenever its first part succeeds, both actual
    amounts are positive or zero and at most the offered amounts, and the
    liquidity is positive.  Into an empty pair it takes both amounts in
    full.  A pair with exactly one empty reserve rejects every
    deposit. *)
Theorem addLiquidity_amounts_bounded (rounds : nat) (amm : Amm.AMM)
    (ts amount0 amount1 : Z) :
  Amm.valid_amm amm →
  (∀ d, addLiquidity_amounts rounds amm ts amount0 amount1 = Done d →
     0 ≤ actualAmount0 d ≤ amount0 ∧ 0 ≤ actualAmount1 d ≤ amount1 ∧
     0 < liquidity d ∧
     (Amm.reserve0 amm = 0 → actualAmount0 d = amount0 ∧
                              actualAmount1 d = amount1 ∧
                              liquidity d = Z.sqrt (amount0 * amount1))) ∧
  ((Amm.reserve0 amm = 0 ∧ Amm.reserve1 amm ≠ 0) ∨
   (Amm.reserve0 amm ≠ 0 ∧ Amm.reserve1 amm = 0) →
   addLiquidity_amounts rounds amm ts amount0 amount1 = Revert).
Proof.
  intros [[H0 _] [H1 _]]. split.
  - intros d. unfold addLiquidity_amounts. cbv zeta.
    case_bool_decide as Hpos; simpl; [|done].
    case_bool_decide as Hempty.
    + intros Hd.
      apply run_bind_Done in Hd as (prod & Hprod & Hd).
      apply run_checked_Done in Hprod.
      pose proof Hprod as Hfit. unfold Amm.checked_mul in Hfit.
      case_bool_decide as Hmax; [|done].
      apply checked_mul_Some in Hprod as ->.
      apply run_bind_Done in Hd as (liq & Hliq & Hd).
      case_bool_decide as Hl; [|done]. injection Hd as <-. simpl.
      split_and!; try lia. intros _. split_and!; try done.
      apply (_sqrt_Done rounds (amount0 * amount1)); [nia|done].
    + intros Hd.
      apply run_bind_Done in Hd as (p1 & Hp1 & Hd).
      apply run_checked_Done, checked_mul_Some in Hp1 as ->.
      apply run_bind_Done in Hd as (o1 & Ho1 & Hd).
      apply run_checked_Done, checked_div_Some in Ho1 as [Hr0 ->].
      apply run_bind_Done in Hd as (p0 & Hp0 & Hd).
      apply run_checked_Done, checked_mul_Some in Hp0 as ->.
      apply run_bind_Done in Hd as (o0 & Ho0 & Hd).
      apply run_checked_Done, checked_div_Some in Ho0 as [Hr1 ->].
      apply run_bind_Done in Hd as (n0 & _ & Hd).
      apply run_bind_Done in Hd as (liq0 & _ & Hd).
      apply run_bind_Done in Hd as (n1 & _ & Hd).
      apply run_bind_Done in Hd as (liq1 & _ & Hd).
      case_bool_decide as Hl; [|done]. injection Hd as <-. simpl.
      pose proof (floor_quotient_bounds (amount0 * Amm.reserve1 amm)
                    (Amm.reserve0 amm) ltac:(nia) ltac:(lia)) as Hq1.
      pose proof (floor_quotient_bounds (amount1 * Amm.reserve0 amm)
                    (Amm.reserve1 amm) ltac:(nia) ltac:(lia)) as Hq0.
      set (o1 := (amount0 * Amm.reserve1 amm) `div` Amm.reserve0 amm) in *.
      set (o0 := (amount1 * Amm.reserve0 amm) `div` Amm.reserve1 amm) in *.
      destruct (bool_decide (o1 ≤ amount1)) eqn:Hc; simpl.
      * apply bool_decide_eq_true in Hc. split_and!; try lia.
      * apply bool_decide_eq_false in Hc. split_and!; try lia. nia.
  - intros Hone. unfold addLiquidity_amounts. cbv zeta.
    case_bool_decide as Hpos; simpl; [|done].
    rewrite bool_decide_eq_false_2 by lia.
    unfold Amm.checked_mul, Amm.checked_div.
    destruct Hone as [[Hz Hnz]|[Hnz Hz]].
    + case_bool_decide; simpl; [|done].
      by rewrite bool_decide_eq_true_2 by done.
    + case_bool_decide; simpl; [|done].
      rewrite bool_decide_eq_false_2 by done. simpl.
      case_bool_decide; simpl; [|done].
      by rewrite bool_decide_eq_true_2 by done.
Qed.

Lemma addLiquidity_amounts_bounded_witness :
  addLiquidity_amounts 12 amm_funded 1732050 3000 500 = Done deposit_example ∧
  0 ≤ actualAmount0 deposit_example ≤ 3000 ∧
  0 ≤ actualAmount1 deposit_example ≤ 500 ∧
  0 < liquidity deposit_example ∧
  (Amm.reserve0 amm_funded = 0 →
     actualAmount0 deposit_example = 3000 ∧
     actualAmount1 deposit_example = 500 ∧
     liquidity deposit_example = Z.sqrt (3000 * 500)).
Proof.
  split; [vm_compute; reflexivity|].
  apply (proj1 (addLiquidity_amounts_bounded 12 amm_funded 1732050 3000 500
                  valid_amm_funded) deposit_example).
  vm_compute. reflexivity.
Defined.

(** ** Withdrawals from a pair *)

Section withdraw_facts.
Import Amm.

Lemma removeLiquidity_amounts_Some amm balance ts liq a0 a1 :
  removeLiquidity_amounts amm balance ts liq = Some (a0, a1) →
  liq ≤ balance ∧ 0 < ts ∧
  a0 = (liq * reserve0 amm) `div` ts ∧ a1 = (liq * reserve1 amm) `div` ts.
Proof.
  unfold removeLiquidity_amounts.
  case_bool_decide as Hb; simpl; [|done].
  case_bool_decide as Hts; simpl; [|done].
  destruct (checked_mul liq (reserve0 amm)) as [n0|] eqn:Hn0; [|done].
  apply checked_mul_Some in Hn0 as ->. simpl.
  destruct (checked_div (liq * reserve0 amm) ts) as [q0|] eqn:Hq0; [|done].
  apply checked_div_Some in Hq0 as [_ ->]. simpl.
  destruct (checked_mul liq (reserve1 amm)) as [n1|] eqn:Hn1; [|done].
  apply checked_mul_Some in Hn1 as ->. simpl.
  destruct (checked_div (liq * reserve1 amm) ts) as [q1|] eqn:Hq1; [|done].
  apply checked_div_Some in Hq1 as [_ ->]. simpl.
  by intros [= <- <-].
Qed.

(** What [addLiquidity] settles on, case by case. *)
Lemma addLiquidity_amounts_Done rounds amm ts amount0 amount1 d :
  valid_amm amm →
  addLiquidity_amounts rounds amm ts amount0 amount1 = Done d →
  0 < liquidity d ∧
  ((reserve0 amm = 0 ∧ reserve1 amm = 0 ∧
    actualAmount0 d = amount0 ∧ actualAmount1 d = amount1 ∧
    0 < amount0 ∧ 0 < amount1) ∨
   (0 < reserve0 amm ∧ 0 < reserve1 amm ∧
    liquidity d * reserve0 amm ≤ actualAmount0 d * ts ∧
    liquidity d * reserve1 amm ≤ actualAmount1 d * ts)).
Proof.
  intros [[H0 _] [H1 _]]. unfold addLiquidity_amounts. cbv zeta.
  case_bool_decide as Hpos; simpl; [|done].
  case_bool_decide as Hempty.
  - intros Hd.
    apply run_bind_Done in Hd as (prod & _ & Hd).
    apply run_bind_Done in Hd as (liq & _ & Hd).
    case_bool_decide as Hl; [|done]. injection Hd as <-. simpl.
    split; [done|]. left. split_and!; try done; lia.
  - intros Hd.
    apply run_bind_Done in Hd as (p1 & _ & Hd).
    apply run_bind_Done in Hd as (o1 & Ho1 & Hd).
    apply run_checked_Done, checked_div_Some in Ho1 as [Hr0 _].
    apply run_bind_Done in Hd as (p0 & _ & Hd).
    apply run_bind_Done in Hd as (o0 & Ho0 & Hd).
    apply run_checked_Done, checked_div_Some in Ho0 as [Hr1 _].
    apply run_bind_Done in Hd as (n0 & Hn0 & Hd).
    apply run_checked_Done, checked_mul_Some in Hn0 as ->.
    apply run_bind_Done in Hd as (liq0 & Hliq0 & Hd).
    apply run_checked_Done, checked_div_Some in Hliq0 as [_ ->].
    apply run_bind_Done in Hd as (n1 & Hn1 & Hd).
    apply run_checked_Done, checked_mul_Some in Hn1 as ->.
    apply run_bind_Done in Hd as (liq1 & Hliq1 & Hd).
    apply run_checked_Done, checked_div_Some in Hliq1 as [_ ->].
    case_bool_decide as Hl; [|done]. injection Hd as <-.
    cbn [actualAmount0 actualAmount1 liquidity].
    split; [done|]. right.
    match goal with
    | |- context [ (?x * ts) `div` reserve0 amm ] => set (act0 := x) in *
    end.
    match goal with
    | |- context [ (?x * ts) `div` reserve1 amm ] => set (act1 := x) in *
    end.
    pose proof (Z.mul_div_le (act0 * ts) (reserve0 amm) ltac:(lia)) as Hq0.
    pose proof (Z.mul_div_le (act1 * ts) (reserve1 amm) ltac:(lia)) as Hq1.
    set (l0 := (act0 * ts) `div` reserve0 amm) in *.
    set (l1 := (act1 * ts) `div` reserve1 amm) in *.
    split_and!; [lia|lia| |].
    + case_bool_decide; nia.
    + case_bool_decide; nia.
Qed.

End withdraw_facts.

(** A withdrawal pays out the caller's share of each reserve, rounded
    down: it needs the caller to hold the LP tokens and some LP tokens to
    be outstanding; each amount is the floor of
    [liquidity * reserve / totalSupply]; redeeming no more than the
    outstanding supply never takes more than a reserve holds, and
    redeeming all of it empties both reserves exactly. *)
Theorem removeLiquidity_amounts_share (amm : Amm.AMM)
    (balance ts liq amount0 amount1 : Z) :
  Amm.valid_amm amm → 0 ≤ liq →
  removeLiquidity_amounts amm balance ts liq = Some (amount0, amount1) →
  liq ≤ balance ∧ 0 < ts ∧
  amount0 * ts ≤ liq * Amm.reserve0 amm < (amount0 + 1) * ts ∧
  amount1 * ts ≤ liq * Amm.reserve1 amm < (amount1 + 1) * ts ∧
  (liq ≤ ts → 0 ≤ amount0 ≤ Amm.reserve0 amm ∧
              0 ≤ amount1 ≤ Amm.reserve1 amm) ∧
  (liq = ts → amount0 = Amm.reserve0 amm ∧ amount1 = Amm.reserve1 amm).
Proof.
  intros [[H0 _] [H1 _]] Hliq Hrm.
  apply removeLiquidity_amounts_Some in Hrm as (Hb & Hts & -> & ->).
  pose proof (floor_quotient_bounds (liq * Amm.reserve0 amm) ts
                ltac:(nia) ltac:(lia)) as Hq0.
  pose proof (floor_quotient_bounds (liq * Amm.reserve1 amm) ts
                ltac:(nia) ltac:(lia)) as Hq1.
  set (q0 := (liq * Amm.reserve0 amm) `div` ts) in *.
  set (q1 := (liq * Amm.reserve1 amm) `div` ts) in *.
  split_and!; try lia.
  - intros Hle. nia.
  - intros ->. nia.
Qed.

Lemma removeLiquidity_amounts_share_witness :
  removeLiquidity_amounts amm_funded 1000 1732050 866 = Some (1499, 499) ∧
  1499 * 1732050 ≤ 866 * Amm.reserve0 amm_funded < (1499 + 1) * 1732050.
Proof.
  split; [vm_compute; reflexivity|].
  apply (removeLiquidity_amounts_share amm_funded 1000 1732050 866 1499 499).
  - exact valid_amm_funded.
  - lia.
  - vm_compute. reflexivity.
Defined.

(** Depositing and then redeeming the LP tokens just minted never
    returns more than was put in.  [amm'] is the pair once its reserves
    have grown by the deposited amounts and the minted liquidity has
    been added to the supply [ts]. *)
Theorem deposit_then_withdraw_no_gain (rounds : nat) (amm amm' : Amm.AMM)
    (ts amount0 amount1 balance out0 out1 : Z) (d : Deposit) :
  Amm.valid_amm amm → 0 ≤ ts →
  addLiquidity_amounts rounds amm ts amount0 amount1 = Done d →
  Amm.reserve0 amm' = Amm.reserve0 amm + actualAmount0 d →
  Amm.reserve1 amm' = Amm.reserve1 amm + actualAmount1 d →
  removeLiquidity_amounts amm' balance (ts + liquidity d) (liquidity d)
    = Some (out0, out1) →
  out0 ≤ actualAmount0 d ∧ out1 ≤ actualAmount1 d.
Proof.
  intros Hv Hts Hadd Hr0 Hr1 Hrm.
  apply addLiquidity_amounts_Done in Hadd as [Hl Hcase]; [|done].
  apply removeLiquidity_amounts_Some in Hrm as (_ & Hsupply & -> & ->).
  rewrite Hr0, Hr1.
  assert (liquidity d * (Amm.reserve0 amm + actualAmount0 d)
          ≤ actualAmount0 d * (ts + liquidity d)) as Hn0
    by (destruct Hcase as [(? & ? & ? & ? & ? & ?)|(_ & _ & ? & ?)]; nia).
  assert (liquidity d * (Amm.reserve1 amm + actualAmount1 d)
          ≤ actualAmount1 d * (ts + liquidity d)) as Hn1
    by (destruct Hcase as [(? & ? & ? & ? & ? & ?)|(_ & _ & ? & ?)]; nia).
  split.
  - apply Z.div_le_upper_bound; [lia|]. lia.
  - apply Z.div_le_upper_bound; [lia|]. lia.
Qed.

Lemma deposit_then_withdraw_no_gain_witness :
  removeLiquidity_amounts amm_after_deposit 866 (1732050 + 866) 866
    = Some (1499, 499) ∧
  1499 ≤ actualAmount0 deposit_example ∧
  499 ≤ actualAmount1 deposit_example.
Proof.
  split; [vm_compute; reflexivity|].
  apply (deposit_then_withdraw_no_gain 12 amm_funded amm_after_deposit
           1732050 3000 500 866 1499 499 deposit_example).
  - exact valid_amm_funded.
  - lia.
  - vm_compute. reflexivity.
  - reflexivity.
  - reflexivity.
  - vm_compute. reflexivity.
Defined.

(** ** Swaps on a pair *)

Section swap_facts.
Import Amm.

Lemma swap_amount_unfold (amm : AMM) tokenIn amountIn :
  swap_amount amm tokenIn amountIn =
  if negb (bool_decide (0 < amountIn)) then None
  else if negb (bool_decide (tokenIn = token0 amm ∨ tokenIn = token1 amm))
  then None
  else
    prod ← checked_mul (reserve_in amm tokenIn) (reserve_out amm tokenIn);
    sum ← checked_add (reserve_in amm tokenIn) amountIn;
    quot ← checked_div prod sum;
    amountOut ← checked_sub (reserve_out amm tokenIn) quot;
    if bool_decide (amountOut ≤ reserve_out amm tokenIn)
    then Some amountOut else None.
Proof.
  unfold swap_amount, reserve_in, reserve_out.
  repeat case_bool_decide; done.
Qed.

End swap_facts.

(** A swap pays exactly what [getQuantityOut] quotes: its liquidity
    check can never fail once the amount has been computed.  Because
    the amount is rounded up, the product of the reserves after the
    trade is never above the product before, and the whole output
    reserve is paid out exactly when the product of the reserves is
    below the input reserve plus the amount. *)
Theorem swap_pays_the_quote (amm : Amm.AMM) (tokenIn : Amm.address)
    (amountIn : Z) :
  Amm.valid_amm amm →
  swap_amount amm tokenIn amountIn = Amm.getQuantityOut amm tokenIn amountIn ∧
  ∀ out, swap_amount amm tokenIn amountIn = Some out →
    (reserve_in amm tokenIn + amountIn) * (reserve_out amm tokenIn - out)
      ≤ reserve_in amm tokenIn * reserve_out amm tokenIn ∧
    (out = reserve_out amm tokenIn ↔
     reserve_in amm tokenIn * reserve_out amm tokenIn
       < reserve_in amm tokenIn + amountIn).
Proof.
  intros [[H0 _] [H1 _]].
  rewrite swap_amount_unfold, getQuantityOut_unfold.
  assert (0 ≤ reserve_in amm tokenIn ∧ 0 ≤ reserve_out amm tokenIn) as [Hi Ho].
  { unfold reserve_in, reserve_out. case_bool_decide; lia. }
  unfold Amm.checked_mul, Amm.checked_add, Amm.checked_div, Amm.checked_sub.
  pose proof (floor_quotient_bounds
                (reserve_in amm tokenIn * reserve_out amm tokenIn)
                (reserve_in amm tokenIn + amountIn) ltac:(nia)) as Hq.
  set (q := (reserve_in amm tokenIn * reserve_out amm tokenIn)
              `div` (reserve_in amm tokenIn + amountIn)) in *.
  destruct (bool_decide (0 < amountIn)) eqn:Hpos; simpl; [|done].
  apply bool_decide_eq_true in Hpos. specialize (Hq ltac:(lia)).
  destruct (bool_decide (tokenIn = Amm.token0 amm ∨ tokenIn = Amm.token1 amm));
    simpl; [|done].
  destruct (bool_decide (reserve_in amm tokenIn * reserve_out amm tokenIn
                         ≤ Amm.uint256_max)); simpl; [|done].
  destruct (bool_decide (reserve_in amm tokenIn + amountIn ≤ Amm.uint256_max));
    simpl; [|done].
  rewrite (bool_decide_eq_false_2 (reserve_in amm tokenIn + amountIn = 0))
    by lia. simpl.
  cbv [mbind option_bind]. fold q.
  rewrite (bool_decide_eq_true_2 (q ≤ reserve_out amm tokenIn)) by nia.
  rewrite (bool_decide_eq_true_2 (reserve_out amm tokenIn - q
                                  ≤ reserve_out amm tokenIn)) by lia.
  split; [done|]. intros out [= <-]. split; [nia|]. split; intros; nia.
Qed.

Lemma swap_pays_the_quote_witness :
  swap_amount amm_funded TETH 1000 = Some 2998 ∧
  swap_amount amm_funded TETH 1000
    = Amm.getQuantityOut amm_funded TETH 1000.
Proof.
  split; [vm_compute; reflexivity|].
  apply (swap_pays_the_quote amm_funded TETH 1000).
  unfold Amm.valid_amm, Amm.uint256_max. simpl. lia.
Defined.

(** ** The pair factory *)

Section factory_facts.
Import Amm Factory.

Lemma createPair_Some lt newPair st tokenA tokenB st' pair ev :
  createPair lt newPair st tokenA tokenB = Some (st', pair, ev) →
  ∃ token0 token1,
    ((token0 = tokenA ∧ token1 = tokenB) ∨ (token0 = tokenB ∧ token1 = tokenA)) ∧
    token0 ≠ token1 ∧
    Factory.getPair st token0 token1 = address_zero ∧
    pair = newPair ∧
    ev = {| ev_token0 := token0; ev_token1 := token1; ev_pair := newPair;
            ev_index := Z.of_nat (length (allPairs st)) |} ∧
    st' = {| pairOf := <[(token1, token0) := newPair]>
                         (<[(token0, token1) := newPair]> (pairOf st));
             allPairs := allPairs st ++ [newPair];
             deployed :=
               <[newPair := {| token0 := if lt token0 token1 then token0 else token1;
                               token1 := if lt token0 token1 then token1 else token0;
                               reserve0 := 0; reserve1 := 0 |}]> (deployed st) |}.
Proof.
  unfold createPair. case_bool_decide as Hne; simpl; [|done].
  destruct (lt tokenA tokenB) eqn:Hlt.
  - case_bool_decide as Hz; simpl; [|done].
    unfold AMM_constructor. rewrite bool_decide_eq_true_2 by done.
    rewrite Hlt. simpl.
    intros [= <- <- <-]. exists tokenA, tokenB. rewrite Hlt.
    split_and!; try done; try (by left).
    f_equal. rewrite length_app. simpl. lia.
  - case_bool_decide as Hz; simpl; [|done].
    unfold AMM_constructor. rewrite bool_decide_eq_true_2 by done. simpl.
    destruct (lt tokenB tokenA) eqn:Hlt'; simpl;
      intros [= <- <- <-]; exists tokenB, tokenA; rewrite Hlt';
      split_and!; try done; try (by right);
      f_equal; rewrite length_app; simpl; lia.
Qed.

Lemma consistent_empty : consistent Factory.empty [].
Proof.
  split; simpl; try done.
  - intros p Hp. by apply elem_of_nil in Hp.
  - apply NoDup_nil_2.
  - intros a b. split; [intros Hin; by apply elem_of_nil in Hin|].
    rewrite lookup_empty. by intros [? ?].
  - apply NoDup_nil_2.
Qed.

Lemma event_edges_snoc evs ev :
  event_edges (evs ++ [ev]) =
  event_edges evs ++ [(ev_token0 ev, ev_token1 ev); (ev_token1 ev, ev_token0 ev)].
Proof. unfold event_edges. by rewrite bind_app. Qed.

Lemma consistent_create lt newPair st evs tokenA tokenB st' pair ev :
  consistent st evs →
  newPair ≠ address_zero →
  deployed st !! newPair = None →
  createPair lt newPair st tokenA tokenB = Some (st', pair, ev) →
  consistent st' (evs ++ [ev]).
Proof.
  intros [Hsym Hentry Hpairs Hnd Hev Hedges Hcount] Hnz Hfresh Hc.
  apply createPair_Some in Hc
    as (t0 & t1 & _ & Hne & Hzero & -> & -> & ->).
  assert (pairOf st !! (t0, t1) = None) as Hnone.
  { unfold Factory.getPair in Hzero.
    destruct (pairOf st !! (t0, t1)) as [p|] eqn:Hp; [|done].
    simpl in Hzero. by destruct (Hentry _ _ _ Hp) as [? _]. }
  assert (pairOf st !! (t1, t0) = None) as Hnone' by (by rewrite Hsym).
  assert (newPair ∉ allPairs st) as Hnotin.
  { intros Hin. apply Hpairs in Hin as [? Hin]. by rewrite Hfresh in Hin. }
  split; simpl.
  - intros a b.
    rewrite !lookup_insert. repeat case_decide; simplify_eq; try done.
  - intros a b p Hp. rewrite !lookup_insert in Hp.
    destruct (decide ((t1, t0) = (a, b))) as [[= <- <-]|Hne1].
    { injection Hp as <-.
      split_and!; [done|done|apply elem_of_app; right; by left|].
      eexists. rewrite lookup_insert_eq. split; [done|]. simpl.
      split_and!; [done|done|]. destruct (lt t0 t1); [by right|by left]. }
    destruct (decide ((t0, t1) = (a, b))) as [[= <- <-]|Hne0].
    { injection Hp as <-.
      split_and!; [done|done|apply elem_of_app; right; by left|].
      eexists. rewrite lookup_insert_eq. split; [done|]. simpl.
      split_and!; [done|done|]. destruct (lt t0 t1); [by left|by right]. }
    destruct (Hentry _ _ _ Hp) as (? & ? & Hin & amm & Hamm & ?).
    split_and!; [done|done|apply elem_of_app; by left|].
    exists amm. split; [|done]. rewrite lookup_insert_ne; [done|].
    intros ->. by rewrite Hfresh in Hamm.
  - intros p Hp. apply elem_of_app in Hp as [Hp|Hp].
    + destruct (decide (newPair = p)) as [->|Hne'].
      * by rewrite lookup_insert_eq.
      * rewrite lookup_insert_ne by done. by apply Hpairs.
    + apply list_elem_of_singleton in Hp as ->. by rewrite lookup_insert_eq.
  - apply NoDup_app. split_and!; [done| |apply NoDup_singleton].
    intros x Hx Hx'. apply list_elem_of_singleton in Hx' as ->. done.
  - intros a b. rewrite event_edges_snoc, elem_of_app, Hev. simpl.
    rewrite !elem_of_cons, elem_of_nil, !lookup_insert.
    destruct (decide ((t1, t0) = (a, b))) as [<-|N1].
    { split; [by eexists|]. intros _. right. right. by left. }
    destruct (decide ((t0, t1) = (a, b))) as [<-|N0].
    { split; [by eexists|]. intros _. right. by left. }
    split; [|by left]. intros [Hin|[Heq|[Heq|[]]]]; [done|congruence..].
  - rewrite event_edges_snoc. simpl. apply NoDup_app. split_and!; [done| |].
    + intros [a b] Hin Hin'. apply Hev in Hin as [p Hp].
      rewrite !elem_of_cons, elem_of_nil in Hin'.
      destruct Hin' as [[= -> ->]|[[= -> ->]|[]]]; congruence.
    + apply NoDup_cons. split; [|apply NoDup_singleton].
      intros Hin. apply list_elem_of_singleton in Hin. congruence.
  - rewrite !length_app. simpl. lia.
Qed.

Lemma reachable_consistent lt st evs :
  reachable lt st evs → consistent st evs.
Proof.
  induction 1 as [|st evs newPair tokenA tokenB st' pair ev _ IH Hnz Hfresh Hc].
  - apply consistent_empty.
  - by eapply consistent_create.
Qed.

End factory_facts.

Section factory_theorems.
Import Amm Factory.

Lemma getPair_zero_None st evs a b :
  consistent st evs →
  Factory.getPair st a b = address_zero ↔ pairOf st !! (a, b) = None.
Proof.
  intros Hc. unfold Factory.getPair. split.
  - destruct (pairOf st !! (a, b)) as [p|] eqn:Hp; [|done]. simpl.
    intros ->. by destruct (cs_entry _ _ Hc _ _ _ Hp) as [? _].
  - by intros ->.
Qed.

Lemma getPair_symmetric st evs a b :
  consistent st evs → Factory.getPair st a b = Factory.getPair st b a.
Proof. intros Hc. unfold Factory.getPair. by rewrite (cs_symmetric _ _ Hc). Qed.

Lemma reachable_one : reachable addr_lt factory_one [event_one].
Proof.
  apply (reach_create addr_lt Factory.empty [] pair1 TETH TUSDC
           factory_one pair1 event_one).
  - apply reach_empty.
  - discriminate.
  - reflexivity.
  - by vm_compute.
Qed.

(** Registration.  A successful [createPair(tokenA, tokenB)] records the
    new pair under both orders of the two tokens and leaves every other
    entry of [getPair] as it was; the deployed pair holds exactly these
    two tokens with empty reserves; [allPairs] grows by one and the
    event carries the index of the new pair. *)
Theorem createPair_registers lt newPair st tokenA tokenB st' pair ev :
  createPair lt newPair st tokenA tokenB = Some (st', pair, ev) →
  pair = newPair ∧ tokenA ≠ tokenB ∧
  Factory.getPair st' tokenA tokenB = newPair ∧
  Factory.getPair st' tokenB tokenA = newPair ∧
  (∀ x y, (x, y) ≠ (tokenA, tokenB) → (x, y) ≠ (tokenB, tokenA) →
     Factory.getPair st' x y = Factory.getPair st x y) ∧
  (∃ amm, deployed st' !! newPair = Some amm ∧
     reserve0 amm = 0 ∧ reserve1 amm = 0 ∧
     ((token0 amm = tokenA ∧ token1 amm = tokenB) ∨
      (token0 amm = tokenB ∧ token1 amm = tokenA))) ∧
  allPairsLength st' = allPairsLength st + 1 ∧
  ev_pair ev = newPair ∧ ev_index ev = allPairsLength st ∧
  allPairs st' !! Z.to_nat (ev_index ev) = Some newPair.
Proof.
  intros Hc. apply createPair_Some in Hc
    as (t0 & t1 & Hord & Hne & _ & -> & -> & ->).
  unfold Factory.getPair, allPairsLength. simpl.
  assert (tokenA ≠ tokenB) as HAB by (destruct Hord as [[-> ->]|[-> ->]]; done).
  split_and!; try done.
  - rewrite !lookup_insert.
    destruct Hord as [[-> ->]|[-> ->]]; repeat case_decide; simplify_eq; done.
  - rewrite !lookup_insert.
    destruct Hord as [[-> ->]|[-> ->]]; repeat case_decide; simplify_eq; done.
  - intros x y H1 H2. rewrite !lookup_insert.
    destruct Hord as [[-> ->]|[-> ->]]; repeat case_decide; simplify_eq; done.
  - eexists. rewrite lookup_insert_eq. split; [done|]. simpl.
    split_and!; [done|done|].
    destruct Hord as [[-> ->]|[-> ->]]; destruct (lt _ _); tauto.
  - rewrite length_app. simpl. lia.
  - rewrite Nat2Z.id. rewrite lookup_app_r by done.
    by rewrite Nat.sub_diag.
Qed.

Lemma createPair_registers_witness :
  Factory.getPair factory_one TETH TUSDC = pair1 ∧
  Factory.getPair factory_one TUSDC TETH = pair1 ∧
  allPairsLength factory_one = allPairsLength Factory.empty + 1.
Proof.
  destruct (createPair_registers addr_lt pair1 Factory.empty TETH TUSDC
              factory_one pair1 event_one)
    as (_ & _ & H1 & H2 & _ & _ & H3 & _).
  - vm_compute. reflexivity.
  - split; [exact H1|]. split; [exact H2|exact H3].
Defined.

(** Uniqueness.  In every state the factory can reach, [createPair]
    succeeds exactly for two different tokens that have no pair yet; a
    pair that exists is refused in either order of its tokens. *)
Theorem createPair_succeeds_iff lt st evs newPair tokenA tokenB :
  reachable lt st evs →
  (is_Some (createPair lt newPair st tokenA tokenB) ↔
     tokenA ≠ tokenB ∧ Factory.getPair st tokenA tokenB = address_zero) ∧
  (Factory.getPair st tokenA tokenB ≠ address_zero →
     createPair lt newPair st tokenA tokenB = None ∧
     createPair lt newPair st tokenB tokenA = None).
Proof.
  intros Hr. apply reachable_consistent in Hr as Hc.
  assert (∀ a b, is_Some (createPair lt newPair st a b) ↔
            a ≠ b ∧ Factory.getPair st a b = address_zero) as Hiff.
  { intros a b. split.
    - intros [[[st' pair] ev] Hs]. apply createPair_Some in Hs
        as (t0 & t1 & Hord & Hne & Hz & _).
      destruct Hord as [[-> ->]|[-> ->]]; [done|].
      split; [done|]. by rewrite (getPair_symmetric st evs).
    - intros [Hne Hz]. unfold createPair.
      rewrite bool_decide_eq_true_2 by done. simpl.
      destruct (lt a b).
      + rewrite bool_decide_eq_true_2 by done. simpl.
        unfold AMM_constructor. rewrite bool_decide_eq_true_2 by done. simpl.
        destruct (lt a b); by eexists.
      + rewrite (getPair_symmetric st evs) in Hz by done.
        rewrite bool_decide_eq_true_2 by done. simpl.
        unfold AMM_constructor. rewrite bool_decide_eq_true_2 by done. simpl.
        destruct (lt b a); by eexists. }
  split; [apply Hiff|]. intros Hnz. split.
  - destruct (createPair lt newPair st tokenA tokenB) eqn:Hs; [|done].
    destruct (proj1 (Hiff tokenA tokenB)) as [_ Hz]; [by eexists|]. done.
  - destruct (createPair lt newPair st tokenB tokenA) eqn:Hs; [|done].
    destruct (proj1 (Hiff tokenB tokenA)) as [_ Hz]; [by eexists|].
    by rewrite (getPair_symmetric st evs) in Hz.
Qed.

Lemma createPair_succeeds_iff_witness :
  createPair addr_lt pair2 factory_one TETH TUSDC = None ∧
  createPair addr_lt pair2 factory_one TUSDC TETH = None.
Proof.
  apply (createPair_succeeds_iff addr_lt factory_one [event_one] pair2
           TETH TUSDC reachable_one).
  vm_compute. discriminate.
Defined.

(** Invariant.  In every reachable state [getPair] is symmetric and is
    the zero address for a token paired with itself; every recorded pair
    address is non-zero, is listed in [allPairs] and holds a pair
    contract over exactly the two tokens it is recorded for; [allPairs]
    lists no address twice and has one entry per emitted event. *)
Theorem factory_invariant lt st evs :
  reachable lt st evs →
  (∀ a b, Factory.getPair st a b = Factory.getPair st b a) ∧
  (∀ a, Factory.getPair st a a = address_zero) ∧
  (∀ a b, Factory.getPair st a b ≠ address_zero →
     a ≠ b ∧ Factory.getPair st a b ∈ allPairs st ∧
     ∃ amm, deployed st !! Factory.getPair st a b = Some amm ∧
       ((token0 amm = a ∧ token1 amm = b) ∨ (token0 amm = b ∧ token1 amm = a))) ∧
  NoDup (allPairs st) ∧
  allPairsLength st = Z.of_nat (length evs).
Proof.
  intros Hr. apply reachable_consistent in Hr as Hc. split_and!.
  - intros a b. by apply (getPair_symmetric st evs).
  - intros a. unfold Factory.getPair.
    destruct (pairOf st !! (a, a)) as [p|] eqn:Hp; [|done].
    by destruct (cs_entry _ _ Hc _ _ _ Hp) as (_ & ? & _).
  - intros a b. unfold Factory.getPair.
    destruct (pairOf st !! (a, b)) as [p|] eqn:Hp; [|done]. simpl. intros _.
    destruct (cs_entry _ _ Hc _ _ _ Hp) as (_ & ? & ? & amm & ? & _ & _ & ?).
    split_and!; [done|done|]. by exists amm.
  - apply (cs_nodup _ _ Hc).
  - unfold allPairsLength. by rewrite (cs_count _ _ Hc).
Qed.

Lemma factory_invariant_witness :
  Factory.getPair factory_one TETH TUSDC = Factory.getPair factory_one TUSDC TETH ∧
  NoDup (allPairs factory_one).
Proof.
  destruct (factory_invariant addr_lt factory_one [event_one] reachable_one)
    as (Hsym & _ & _ & Hnd & _).
  split; [apply Hsym|exact Hnd].
Defined.

End factory_theorems.

Section factory_and_router.
Import Amm Factory.

Lemma fresh_pair_quote (amm : AMM) tokenIn amountIn :
  reserve0 amm = 0 → reserve1 amm = 0 →
  tokenIn = token0 amm ∨ tokenIn = token1 amm →
  0 < amountIn ≤ uint256_max →
  getQuantityOut amm tokenIn amountIn = Some 0.
Proof.
  intros H0 H1 Htok Ha. rewrite getQuantityOut_unfold.
  rewrite (bool_decide_eq_true_2 (0 < amountIn)) by lia. simpl.
  rewrite (bool_decide_eq_true_2 (_ ∨ _)) by done. simpl.
  assert (reserve_in amm tokenIn = 0 ∧ reserve_out amm tokenIn = 0) as [-> ->].
  { unfold reserve_in, reserve_out. case_bool_decide; lia. }
  unfold checked_mul, checked_add, checked_div, checked_sub. simpl.
  rewrite (bool_decide_eq_true_2 (0 + amountIn ≤ uint256_max)) by lia. simpl.
  rewrite (bool_decide_eq_false_2 (0 + amountIn = 0)) by lia. simpl.
  rewrite Z.div_0_l by lia. done.
Qed.

(** A pair that was just created quotes nothing: on the chain state
    after a successful [createPair(tokenA, tokenB)], the router's
    [getAmountsOut] over the direct path, in either direction, succeeds
    for every positive [uint256] input and returns a final amount of
    0. *)
Theorem new_pair_quotes_zero lt newPair st tokenA tokenB st' pair ev amountIn :
  newPair ≠ address_zero →
  createPair lt newPair st tokenA tokenB = Some (st', pair, ev) →
  0 < amountIn ≤ uint256_max →
  getAmountsOut (chain_of_state st') amountIn [tokenA; tokenB]
    = Some [amountIn; 0] ∧
  getAmountsOut (chain_of_state st') amountIn [tokenB; tokenA]
    = Some [amountIn; 0].
Proof.
  intros Hnz Hc Ha.
  apply createPair_Some in Hc as (t0 & t1 & Hord & Hne & _ & -> & -> & ->).
  assert (∀ a b, (a = t0 ∧ b = t1) ∨ (a = t1 ∧ b = t0) →
            getAmountOut (chain_of_state
              {| pairOf := <[(t1, t0):=newPair]> (<[(t0, t1):=newPair]> (pairOf st));
                 allPairs := allPairs st ++ [newPair];
                 deployed := <[newPair:={|
                     token0 := if lt t0 t1 then t0 else t1;
                     token1 := if lt t0 t1 then t1 else t0;
                     reserve0 := 0; reserve1 := 0 |}]> (deployed st) |})
              amountIn a b = Some 0) as Hhop.
  { intros a b Hab. unfold getAmountOut, _pairFor. simpl.
    unfold Factory.getPair. simpl.
    assert (<[(t1, t0):=newPair]> (<[(t0, t1):=newPair]> (pairOf st)) !! (a, b)
            = Some newPair) as ->.
    { rewrite !lookup_insert.
      destruct Hab as [[-> ->]|[-> ->]]; repeat case_decide; simplify_eq; done. }
    simpl. rewrite bool_decide_eq_false_2 by done. simpl.
    rewrite lookup_insert_eq. simpl.
    apply fresh_pair_quote; [done|done| |done]. simpl.
    destruct Hab as [[-> ->]|[-> ->]]; destruct (lt t0 t1); tauto. }
  unfold getAmountsOut. simpl.
  split.
  - rewrite Hhop; [done|]. destruct Hord as [[-> ->]|[-> ->]]; tauto.
  - rewrite Hhop; [done|]. destruct Hord as [[-> ->]|[-> ->]]; tauto.
Qed.

Lemma new_pair_quotes_zero_witness :
  getAmountsOut (chain_of_state factory_one) 1000 [TETH; TUSDC] = Some [1000; 0] ∧
  getAmountsOut (chain_of_state factory_one) 1000 [TUSDC; TETH] = Some [1000; 0].
Proof.
  apply (new_pair_quotes_zero addr_lt pair1 Factory.empty TETH TUSDC
           factory_one pair1 event_one 1000).
  - discriminate.
  - vm_compute. reflexivity.
  - unfold uint256_max. lia.
Defined.

End factory_and_router.

(** Pools created by the factory never make the path search repeat a
    path: when the pool rows mirror, in order, the [PairCreated] events
    of any reachable factory state, no adjacency array of the built
    graph lists a token twice and [findAllPathsBFS] returns no path
    twice. *)
Theorem factory_pools_give_distinct_paths lt st evs
    (pools : list PoolWithTokens) (a b : string) (H : Z) :
  Factory.reachable lt st evs →
  (λ p, (tokenA_address p, tokenB_address p)) <$> pools
    = (λ ev, (Factory.ev_token0 ev, Factory.ev_token1 ev)) <$> evs →
  adjacency_NoDup (buildTokenGraph pools) ∧
  NoDup (findAllPathsBFS (buildTokenGraph pools) a b H).
Proof.
  intros Hr Hmirror. apply reachable_consistent in Hr as Hc.
  assert (directed_edges pools = Factory.event_edges evs) as Hedges.
  { unfold directed_edges, Factory.event_edges.
    clear Hr Hc. revert evs Hmirror. induction pools as [|p pools IH]; intros evs Hm.
    - by destruct evs.
    - destruct evs as [|ev evs]; [done|]. simpl in Hm. injection Hm as H0 H1 Hm.
      simpl. rewrite H0, H1. f_equal. f_equal. by apply IH. }
  assert (adjacency_NoDup (buildTokenGraph pools)) as Hg.
  { apply buildTokenGraph_adjacency_NoDup. rewrite Hedges.
    apply (Factory.cs_edges _ _ Hc). }
  split; [done|]. by apply findAllPathsBFS_NoDup.
Qed.

Lemma factory_pools_give_distinct_paths_witness :
  NoDup (findAllPathsBFS (buildTokenGraph [pool 1 pair1 tTUSDC tTETH])
           TETH TUSDC 4).
Proof.
  apply (factory_pools_give_distinct_paths addr_lt factory_one [event_one]
           [pool 1 pair1 tTUSDC tTETH] TETH TUSDC 4 reachable_one).
  reflexivity.
Defined.

(** The pair the factory recorded for two tokens trades exactly these
    two: in every reachable state, [getOutputTokenAddress] of the pair
    recorded for [a] and [b] answers [b] for [a] and [a] for [b], and
    reverts for every other token. *)
Theorem recorded_pair_output_token lt st evs a b :
  Factory.reachable lt st evs →
  Factory.getPair st a b ≠ Amm.address_zero →
  ∃ amm, Factory.deployed st !! Factory.getPair st a b = Some amm ∧
    getOutputTokenAddress amm a = Some b ∧
    getOutputTokenAddress amm b = Some a ∧
    ∀ t, t ≠ a → t ≠ b → getOutputTokenAddress amm t = None.
Proof.
  intros Hr%reachable_consistent. unfold Factory.getPair.
  destruct (Factory.pairOf st !! (a, b)) as [p|] eqn:Hp; [|done].
  simpl. intros _.
  destruct (Factory.cs_entry _ _ Hr _ _ _ Hp)
    as (_ & Hab & _ & amm & Hamm & _ & _ & Htok).
  exists amm. split; [done|]. unfold getOutputTokenAddress.
  destruct Htok as [[H0 H1]|[H0 H1]]; rewrite H0, H1.
  - split_and!.
    + rewrite (bool_decide_eq_true_2 (a = a ∨ a = b)) by by left.
      by rewrite (bool_decide_eq_true_2 (a = a)).
    + rewrite (bool_decide_eq_true_2 (b = a ∨ b = b)) by by right.
      by rewrite (bool_decide_eq_false_2 (b = a)) by congruence.
    + intros t Ha Hb.
      by rewrite (bool_decide_eq_false_2 (t = a ∨ t = b)) by (intros [?|?]; congruence).
  - split_and!.
    + rewrite (bool_decide_eq_true_2 (a = b ∨ a = a)) by by right.
      by rewrite (bool_decide_eq_false_2 (a = b)) by congruence.
    + rewrite (bool_decide_eq_true_2 (b = b ∨ b = a)) by by left.
      by rewrite (bool_decide_eq_true_2 (b = b)).
    + intros t Ha Hb.
      by rewrite (bool_decide_eq_false_2 (t = b ∨ t = a)) by (intros [?|?]; congruence).
Qed.

Lemma recorded_pair_output_token_witness :
  ∃ amm, Factory.deployed factory_one !! Factory.getPair factory_one TETH TUSDC
         = Some amm ∧
    getOutputTokenAddress amm TETH = Some TUSDC ∧
    getOutputTokenAddress amm TUSDC = Some TETH ∧
    ∀ t, t ≠ TETH → t ≠ TUSDC → getOutputTokenAddress amm t = None.
Proof.
  apply (recorded_pair_output_token addr_lt factory_one [event_one]).
  - exact reachable_one.
  - vm_compute. discriminate.
Defined.

(** ** Shape of a routing result *)

Lemma findAllPathsBFS_result_ok (g : Graph) (a b : string) (H : Z) :
  Forall (result_ok a b H) (findAllPathsBFS g a b H).
Proof.
  eapply bfs_loop_sound; [| |apply findAllPathsBFS_run]; simpl; [|done].
  apply Forall_singleton. split; [done|]. apply NoDup_singleton.
Qed.

Lemma eval_path_shape router amt ps S st p :
  p ∈ ps →
  shape_inv ps S st →
  shape_inv ps (S ++ match quote_of router amt p with
                     | Some out => [(p, out)]
                     | None => []
                     end)
            (eval_path router amt st p).
Proof.
  intros Hp (Hall & Hbest & Hdir).
  destruct (quote_of router amt p) as [out|] eqn:Hq.
  2:{ rewrite eval_path_skip by done. by rewrite app_nil_r. }
  unfold quote_of in Hq. unfold eval_path.
  destruct (router amt p) as [amounts|]; [|done]. simpl in Hq. rewrite Hq.
  split_and!; simpl.
  - apply Forall_app. split; [done|]. apply Forall_singleton.
    unfold route_wf, estimateMultiHopGas. simpl. split_and!; [done|done|lia].
  - intros bp. case_bool_decide; [by intros [= <-]|apply Hbest].
  - rewrite filter_app. destruct (decide (length p = 2%nat)) as [Hlen|Hlen].
    + rewrite (filter_cons_True two_tokens) by done. rewrite filter_nil.
      rewrite bool_decide_eq_true_2 by done. by rewrite last_snoc.
    + rewrite (filter_cons_False two_tokens) by done. rewrite filter_nil.
      rewrite bool_decide_eq_false_2 by done. by rewrite app_nil_r.
Qed.

Lemma eval_loop_shape router amt ps found S st :
  found ⊆ ps →
  shape_inv ps S st →
  shape_inv ps (S ++ survivors router amt found)
            (foldl (eval_path router amt) st found).
Proof.
  revert S st. induction found as [|p found IH] using rev_ind; intros S st Hsub Hinv.
  - simpl. by rewrite app_nil_r.
  - rewrite foldl_snoc, survivors_snoc, app_assoc.
    apply eval_path_shape; [set_solver|]. apply IH; [set_solver|done].
Qed.

Lemma findOptimalPath_shape_state (router : Router)
    (pools : list PoolWithTokens) (a b testAmount : string) :
  let r := findOptimalPath router pools a b testAmount in
  let found := findAllPathsBFS (buildTokenGraph pools) a b 4 in
  let S := survivors router testAmount found in
  ∃ st,
    shape_inv found S st ∧ best_inv S st ∧
    allPaths r = ev_allPaths st ∧ direct r = ev_direct st ∧
    optimal r = (λ bp, {| path := bp; expectedOutput := bestOutput st;
                          hops := Z.of_nat (length bp) - 1;
                          gasEstimate := estimateMultiHopGas bp |})
                <$> bestPath st.
Proof.
  unfold findOptimalPath. cbv zeta.
  set (found := findAllPathsBFS (buildTokenGraph pools) a b 4).
  case_bool_decide as Hlen.
  - apply length_zero_iff_nil in Hlen. rewrite Hlen. simpl.
    exists eval_init.
    split; [split_and!; [apply Forall_nil_2|done|done]|].
    split; [apply eval_init_inv|done].
  - exists (foldl (eval_path router testAmount) eval_init found). simpl.
    split.
    { apply (eval_loop_shape router testAmount found found [] eval_init); [done|].
      split_and!; [apply Forall_nil_2|done|done]. }
    split.
    { apply (eval_loop_inv router testAmount found [] eval_init eval_init_inv). }
    split; [done|]. split; [done|]. by destruct (bestPath _).
Qed.

(** Every entry of a routing result ([allPaths], [direct], [optimal])
    describes a simple path from [tokenA] to [tokenB] of one to four
    hops; its [hops] is the number of tokens less one and its
    [gasEstimate] is [60000 + 120000 * hops], hence between 180000 and
    540000. *)
Theorem findOptimalPath_routes_well_formed (router : Router)
    (pools : list PoolWithTokens) (a b testAmount : string) :
  Forall (λ e,
      head (path e) = Some a ∧ last (path e) = Some b ∧ NoDup (path e) ∧
      hops e = Z.of_nat (length (path e)) - 1 ∧ 1 ≤ hops e ≤ 4 ∧
      gasEstimate e = 60000 + 120000 * hops e ∧
      180000 ≤ gasEstimate e ≤ 540000)
    (routes_of (findOptimalPath router pools a b testAmount)).
Proof.
  destruct (findOptimalPath_shape_state router pools a b testAmount)
    as (st & (Hall & Hbest & Hdir) & _ & Hap & Hd & Ho).
  pose proof (findAllPathsBFS_result_ok (buildTokenGraph pools) a b 4) as Hok.
  rewrite Forall_forall in Hok.
  assert (∀ e, route_wf (findAllPathsBFS (buildTokenGraph pools) a b 4) e →
    head (path e) = Some a ∧ last (path e) = Some b ∧ NoDup (path e) ∧
    hops e = Z.of_nat (length (path e)) - 1 ∧ 1 ≤ hops e ≤ 4 ∧
    gasEstimate e = 60000 + 120000 * hops e ∧
    180000 ≤ gasEstimate e ≤ 540000) as Hwf.
  { intros e (Hin & Hh & Hg). destruct (Hok _ Hin) as (?&?&?&?&?).
    split_and!; try done; lia. }
  unfold routes_of. rewrite Hap, Hd, Ho.
  apply Forall_app. split; [by eapply Forall_impl|].
  apply Forall_app. split.
  - rewrite Hdir. destruct (last _) as [[p out]|] eqn:Hl; simpl; [|done].
    apply Forall_singleton. apply Hwf.
    apply last_Some_elem_of, list_elem_of_filter in Hl as [Htwo Hin].
    unfold two_tokens in Htwo. simpl in Htwo.
    unfold route_wf. simpl. unfold estimateMultiHopGas. rewrite Htwo.
    split_and!; [|lia|lia].
    unfold survivors in Hin. apply list_elem_of_omap in Hin as (q & Hq & Hs).
    destruct (quote_of router testAmount q); [|done]. simpl in Hs.
    by injection Hs as <- <-.
  - destruct (bestPath st) as [bp|] eqn:Hbp; simpl; [|done].
    apply Forall_singleton. apply Hwf.
    unfold route_wf, estimateMultiHopGas. simpl. split_and!; [by apply Hbest|done|lia].
Qed.

Lemma filter_nil_Forall {A} (P : A → Prop) `{∀ x, Decision (P x)} (l : list A) :
  filter P l = [] ↔ Forall (λ x, ¬ P x) l.
Proof.
  induction l as [|x l IH]; [by split|].
  destruct (decide (P x)) as [Hx|Hx].
  - rewrite filter_cons_True by done. split; [done|].
    intros Hall. apply Forall_cons in Hall as [? _]. done.
  - rewrite filter_cons_False by done. rewrite IH. split.
    + intros Hall. by apply Forall_cons.
    + intros Hall. by apply Forall_cons in Hall as [_ ?].
Qed.

Lemma survivors_elem router amt ps p out :
  (p, out) ∈ survivors router amt ps → p ∈ ps ∧ quote_of router amt p = Some out.
Proof.
  unfold survivors. intros Hin. apply list_elem_of_omap in Hin as (q & Hq & Hs).
  destruct (quote_of router amt q) eqn:Hquote; [|done]. simpl in Hs.
  by injection Hs as <- <-.
Qed.

(** The [direct] entry.  It is absent exactly when no two-token path
    survives.  When present it is the path [[tokenA, tokenB]] with one
    hop, gas estimate 180000 and the output that path was quoted; and a
    reported optimal route never has a smaller output than it. *)
Theorem findOptimalPath_direct (router : Router)
    (pools : list PoolWithTokens) (a b testAmount : string) :
  let r := findOptimalPath router pools a b testAmount in
  let S := survivors router testAmount
             (findAllPathsBFS (buildTokenGraph pools) a b 4) in
  (direct r = None ↔ Forall (λ s, length s.1 ≠ 2%nat) S) ∧
  match direct r with
  | Some d =>
      path d = [a; b] ∧ hops d = 1 ∧ gasEstimate d = 180000 ∧
      quote_of router testAmount [a; b] = Some (expectedOutput d) ∧
      match optimal r with
      | Some o => expectedOutput d ≤ expectedOutput o
      | None => expectedOutput d ≤ 0
      end
  | None => True
  end.
Proof.
  intros r S. subst r S.
  destruct (findOptimalPath_shape_state router pools a b testAmount)
    as (st & (_ & _ & Hdir) & [_ Hbest] & _ & -> & ->).
  rewrite Hdir. split.
  - rewrite fmap_None, last_None. apply filter_nil_Forall.
  - destruct (last _) as [[p out]|] eqn:Hl; simpl; [|done].
    apply last_Some_elem_of, list_elem_of_filter in Hl as [Htwo Hin].
    unfold two_tokens in Htwo. simpl in Htwo.
    pose proof Hin as Hin'. apply survivors_elem in Hin' as [Hp Hq].
    pose proof (findAllPathsBFS_result_ok (buildTokenGraph pools) a b 4) as Hok.
    rewrite Forall_forall in Hok. destruct (Hok _ Hp) as (Hh & Hla & _).
    assert (p = [a; b]) as ->.
    { destruct p as [|x [|y [|z p]]]; try done.
      simpl in Hh. injection Hh as ->.
      rewrite last_cons_cons, last_singleton in Hla. by injection Hla as ->. }
    unfold estimateMultiHopGas. simpl. split_and!; try done.
    apply list_elem_of_lookup_1 in Hin as [j Hj].
    destruct (bestPath st) as [bp|]; simpl.
    + destruct Hbest as (_ & i & _ & Hle). by destruct (Hle j _ _ Hj).
    + destruct Hbest as [_ Hle]. rewrite Forall_forall in Hle.
      apply list_elem_of_lookup_2, Hle in Hj. done.
Qed.

(** ** The all-paths request *)

(** Whatever [maxHops] the caller sends, an answered /all-paths request
    reports [pathsFound] equal to the number of paths and only simple
    paths from [tokenA] to [tokenB] with one to four hops, none longer
    than the reported [maxHops]; [tokens] is always [hops + 1].  When
    the reported [maxHops] is zero or negative the path list is
    empty. *)
Theorem get_all_paths_bounds (pools : list PoolWithTokens) (a b : string)
    (maxHopsQuery : option string) :
  ∃ body, Api.get_all_paths (Some pools) a b maxHopsQuery = Api.Json body ∧
    Api.ap_pathsFound body = Z.of_nat (length (Api.ap_paths body)) ∧
    Api.ap_maxHops body ≤ 4 ∧
    Forall (λ s,
        head (ps_path s) = Some a ∧ last (ps_path s) = Some b ∧
        NoDup (ps_path s) ∧
        ps_tokens s = ps_hops s + 1 ∧
        ps_hops s = Z.of_nat (length (ps_path s)) - 1 ∧
        1 ≤ ps_hops s ≤ Api.ap_maxHops body)
      (Api.ap_paths body) ∧
    match Api.ap_paths body with
    | [] => True
    | _ :: _ => 1 ≤ Api.ap_maxHops body
    end.
Proof.
  eexists. split; [reflexivity|]. simpl.
  set (H := Api.maxHops_of_query maxHopsQuery).
  assert (Forall (λ s,
        head (ps_path s) = Some a ∧ last (ps_path s) = Some b ∧
        NoDup (ps_path s) ∧ ps_tokens s = ps_hops s + 1 ∧
        ps_hops s = Z.of_nat (length (ps_path s)) - 1 ∧ 1 ≤ ps_hops s ≤ H)
      (findAllPaths pools a b H)) as Hall.
  { unfold findAllPaths. cbv zeta. apply Forall_fmap.
    eapply Forall_impl; [apply findAllPathsBFS_result_ok|].
    intros p (?&?&?&?&?). simpl. split_and!; try done; lia. }
  split_and!; [done|unfold H, Api.maxHops_of_query; lia|done|].
  destruct (findAllPaths pools a b H) as [|s l]; [done|].
  apply Forall_cons in Hall as [(_&_&_&_&_&?) _]. lia.
Qed.

(** ** Grouping of a portfolio *)

Section portfolio_facts.
Import Api.


Lemma groups_modify_absent key f (m : Groups) :
  key ∉ m.*1 → groups_modify key f m = m.
Proof.
  induction m as [|[k g] m IH]; [done|]. simpl. intros Hk.
  apply not_elem_of_cons in Hk as [Hne Hk].
  rewrite decide_False by done. by rewrite IH.
Qed.










End portfolio_facts.

Section portfolio_theorem.
Import Api.






End portfolio_theorem.

(** ** Stored numerals read back *)

Section numerals.









End numerals.

(** ** Runs of the indexer *)

Section indexer_run.
Import Indexer IndexerRun.

Lemma find_pool_Some d a p :
  find_pool d a = Some p → p ∈ pools d ∧ pool_address p = a.
Proof.
  unfold find_pool. intros Hf. apply find_some in Hf as [Hin Hb].
  split; [by apply list_elem_of_In|]. by apply bool_decide_eq_true in Hb.
Qed.

Lemma find_pool_None d a :
  find_pool d a = None → a ∉ pool_address <$> pools d.
Proof.
  unfold find_pool. intros Hf Hin.
  apply list_elem_of_fmap in Hin as (p & -> & Hin).
  eapply find_none in Hf; [|by apply list_elem_of_In].
  by apply bool_decide_eq_false in Hf.
Qed.

Lemma find_token_Some d a t :
  find_token d a = Some t → t ∈ tokens d ∧ tok_address t = a.
Proof.
  unfold find_token. intros Hf. apply find_some in Hf as [Hin Hb].
  split; [by apply list_elem_of_In|]. by apply bool_decide_eq_true in Hb.
Qed.

Lemma find_token_None d a :
  find_token d a = None → a ∉ tok_address <$> tokens d.
Proof.
  unfold find_token. intros Hf Hin.
  apply list_elem_of_fmap in Hin as (p & -> & Hin).
  eapply find_none in Hf; [|by apply list_elem_of_In].
  by apply bool_decide_eq_false in Hf.
Qed.

Lemma fresh_id {A} (f : A → Z) (l : list A) (n : Z) :
  Forall (λ x, f x ≤ n) l → n + 1 ∉ f <$> l.
Proof.
  intros Hall Hin. apply list_elem_of_fmap in Hin as (x & Heq & Hin).
  rewrite Forall_forall in Hall. specialize (Hall x Hin). simpl in Hall. lia.
Qed.

Lemma NoDup_snoc {A} (l : list A) (x : A) :
  NoDup l → x ∉ l → NoDup (l ++ [x]).
Proof.
  intros Hnd Hx. apply NoDup_app. split_and!; [done| |apply NoDup_singleton].
  intros y Hy Hy'. apply list_elem_of_singleton in Hy' as ->. done.
Qed.

Lemma Forall_le_succ {A} (f : A → Z) (l : list A) (n : Z) :
  Forall (λ x, f x ≤ n) l → Forall (λ x, f x ≤ n + 1) l.
Proof.
  intros Hall. eapply Forall_impl; [done|]. intros x Hx. simpl in *. lia.
Qed.


Lemma count_NoDup (l : list string) (a : string) :
  NoDup l →
  length (filter (λ b, b = a) l) = if decide (a ∈ l) then 1%nat else 0%nat.
Proof.
  induction 1 as [|b l Hb Hnd IH]; [done|].
  destruct (decide (b = a)) as [->|Hne].
  - rewrite filter_cons_True by done. simpl. rewrite IH.
    rewrite decide_False by done. rewrite decide_True by apply list_elem_of_here.
    done.
  - rewrite filter_cons_False by done. rewrite IH.
    destruct (decide (a ∈ l)) as [Hin|Hin].
    + by rewrite decide_True by by apply list_elem_of_further.
    + rewrite decide_False; [done|].
      intros [->|?]%elem_of_cons; done.
Qed.

Lemma token_upsert_ok d rows seq a meta :
  db_ok d rows seq →
  db_ok (token_upsert d a meta).1 rows seq ∧
  (token_upsert d a meta).2 ∈ tokens (token_upsert d a meta).1 ∧
  pools (token_upsert d a meta).1 = pools d ∧
  (∀ t, t ∈ tokens d → t ∈ tokens (token_upsert d a meta).1).
Proof.
  intros Hok. unfold token_upsert.
  destruct (find_token d a) as [t|] eqn:Hfind; simpl.
  - apply find_token_Some in Hfind as [Hin _]. done.
  - apply find_token_None in Hfind. split_and!.
    + destruct Hok. constructor; simpl; try done.
      * rewrite fmap_app. by apply NoDup_snoc.
      * rewrite fmap_app. apply NoDup_snoc; [done|]. by apply fresh_id.
      * apply Forall_app. split; [by apply Forall_le_succ|].
        apply Forall_singleton. simpl. lia.
      * eapply Forall_impl; [done|]. intros p [HA HB]. rewrite fmap_app.
        split; apply elem_of_app; by left.
    + apply elem_of_app. right. by apply list_elem_of_singleton.
    + done.
    + intros t Ht. apply elem_of_app. by left.
Qed.

Lemma pool_create_ok d rows seq a idA idB :
  db_ok d rows seq →
  idA ∈ tok_id <$> tokens d → idB ∈ tok_id <$> tokens d →
  db_ok (pool_create d a idA idB).1 rows seq ∧
  match (pool_create d a idA idB).2 with
  | Some p => pools (pool_create d a idA idB).1 = pools d ++ [p] ∧
              pool_address p = a
  | None => pools (pool_create d a idA idB).1 = pools d
  end.
Proof.
  intros Hok HA HB. unfold pool_create.
  destruct (find_pool d a) as [p|] eqn:Hfind; simpl.
  - split; [|done]. destruct Hok. constructor; simpl; try done.
    by apply Forall_le_succ.
  - apply find_pool_None in Hfind. split; [|done].
    destruct Hok. constructor; simpl; try done.
    + rewrite fmap_app. by apply NoDup_snoc.
    + rewrite fmap_app. apply NoDup_snoc; [done|]. by apply fresh_id.
    + apply Forall_app. split; [by apply Forall_le_succ|].
      apply Forall_singleton. simpl. lia.
    + apply Forall_app. split; [done|]. by apply Forall_singleton.
    + eapply Forall_impl; [done|]. intros w Hw. rewrite fmap_app.
      apply elem_of_app. by left.
    + eapply Forall_impl; [done|]. intros w Hw. rewrite fmap_app.
      apply elem_of_app. by left.
Qed.

Lemma onSwap_ok d rows seq a ev :
  db_ok d rows seq →
  db_ok (onSwap d a ev).1 rows seq ∧ pools (onSwap d a ev).1 = pools d.
Proof.
  intros Hok. unfold onSwap.
  destruct (find_pool d a) as [p|] eqn:Hfind; simpl; [|done].
  apply find_pool_Some in Hfind as [Hin _]. split; [|done].
  destruct Hok. constructor; simpl; try done.
  - rewrite fmap_app. apply NoDup_snoc; [done|]. by apply fresh_id.
  - apply Forall_app. split; [by apply Forall_le_succ|].
    apply Forall_singleton. simpl. lia.
  - apply Forall_app. split; [done|]. apply Forall_singleton. simpl.
    by apply list_elem_of_fmap_2.
Qed.

Lemma onMint_ok s a ev : store_ok s → store_ok (onMint s a ev).1.
Proof.
  intros [Hok Hl]. unfold onMint.
  destruct (find_pool (db (core s)) a) as [p|] eqn:Hfind; simpl; [|done].
  apply find_pool_Some in Hfind as [Hin _]. split; [|done]. simpl.
  destruct Hok. constructor; simpl; try done.
  - rewrite fmap_app. apply NoDup_snoc; [done|]. by apply fresh_id.
  - apply Forall_app. split; [by apply Forall_le_succ|].
    apply Forall_singleton. simpl. lia.
  - apply Forall_app. split; [done|]. apply Forall_singleton. simpl.
    by apply list_elem_of_fmap_2.
Qed.

Lemma onBurn_ok s a ev : store_ok s → store_ok (onBurn s a ev).1.
Proof.
  intros [Hok Hl]. unfold onBurn.
  destruct (find_pool (db (core s)) a) as [p|] eqn:Hfind; simpl; [|done].
  apply find_pool_Some in Hfind as [Hin _]. split; [|done]. simpl.
  destruct Hok. constructor; simpl; try done.
  - rewrite fmap_app. apply NoDup_snoc; [done|]. by apply fresh_id.
  - apply Forall_app. split; [by apply Forall_le_succ|].
    apply Forall_singleton. simpl. lia.
  - apply Forall_app. split; [done|]. apply Forall_singleton. simpl.
    by apply list_elem_of_fmap_2.
Qed.

Lemma onSwap_store_ok s a ev :
  store_ok s → store_ok (with_db s (onSwap (db (core s)) a ev).1).
Proof.
  intros [Hok Hl].
  destruct (onSwap_ok _ _ _ a ev Hok) as [Hok' Hpools].
  split; simpl; [done|]. by rewrite Hpools.
Qed.

Lemma onPairCreated_ok getTokenMeta s tokenA tokenB p :
  store_ok s →
  store_ok (with_core s (onPairCreated getTokenMeta (core s) tokenA tokenB p).1).
Proof.
  intros [Hok Hl]. unfold onPairCreated.
  destruct (getTokenMeta tokenA) as [metaA|]; [|done].
  destruct (getTokenMeta tokenB) as [metaB|]; [|done].
  destruct (token_upsert_ok _ _ _ tokenA metaA Hok) as (Hok1 & HtA & Hp1 & Hmono1).
  destruct (token_upsert (db (core s)) tokenA metaA) as [db1 tA]. simpl in *.
  destruct (token_upsert_ok _ _ _ tokenB metaB Hok1) as (Hok2 & HtB & Hp2 & Hmono2).
  destruct (token_upsert db1 tokenB metaB) as [db2 tB]. simpl in *.
  destruct (pool_create_ok db2 _ _ p (tok_id tA) (tok_id tB) Hok2) as [Hok3 Hp3].
  { apply list_elem_of_fmap_2. by apply Hmono2. }
  { by apply list_elem_of_fmap_2. }
  destruct (pool_create db2 p (tok_id tA) (tok_id tB)) as [db3 [pl|]]; simpl in *.
  - destruct Hp3 as [Hp3 Hpa]. split; simpl; [done|].
    rewrite Hp3, Hp2, Hp1, fmap_app, Hl. simpl. by rewrite Hpa.
  - split; simpl; [done|]. by rewrite Hp3, Hp2, Hp1.
Qed.

Lemma iter_ok (f : Store → Store) n s :
  (∀ s, store_ok s → store_ok (f s)) → store_ok s → store_ok (Nat.iter n f s).
Proof. intros Hf Hs. induction n as [|n IH]; simpl; [done|]. by apply Hf. Qed.

Lemma deliver_ok getTokenMeta s e :
  store_ok s → store_ok (deliver getTokenMeta s e).
Proof.
  intros Hs. destruct e as [a b p|p ev|p ev|p ev]; simpl.
  - by apply onPairCreated_ok.
  - apply iter_ok; [|done]. intros s'. apply onSwap_store_ok.
  - apply iter_ok; [|done]. intros s'. apply onMint_ok.
  - apply iter_ok; [|done]. intros s'. apply onBurn_ok.
Qed.

Lemma run_ok getTokenMeta s evs :
  store_ok s → store_ok (run getTokenMeta s evs).
Proof.
  revert s. induction evs as [|e evs IH]; intros s Hs; [done|].
  simpl. apply IH. by apply deliver_ok.
Qed.

End indexer_run.

Section indexer_tracking.
Import Indexer IndexerRun.

Lemma listeners_count s a :
  store_ok s →
  listeners s a
  = if decide (a ∈ pool_address <$> pools (db (core s))) then 1%nat else 0%nat.
Proof.
  intros [Hok Hl]. unfold listeners. rewrite Hl.
  apply count_NoDup. by destruct Hok.
Qed.






Lemma token_upsert_tables d a meta :
  tokens d `prefix_of` tokens (token_upsert d a meta).1 ∧
  pools (token_upsert d a meta).1 = pools d ∧
  swaps (token_upsert d a meta).1 = swaps d.
Proof.
  unfold token_upsert. destruct (find_token d a); simpl; [done|].
  split_and!; try done. by apply prefix_app_r.
Qed.

Lemma pool_create_tables d a idA idB :
  tokens (pool_create d a idA idB).1 = tokens d ∧
  swaps (pool_create d a idA idB).1 = swaps d ∧
  match (pool_create d a idA idB).2 with
  | Some p => pools (pool_create d a idA idB).1 = pools d ++ [p]
  | None => pools (pool_create d a idA idB).1 = pools d
  end.
Proof. unfold pool_create. by destruct (find_pool d a). Qed.

Lemma onPairCreated_tables getTokenMeta st tokenA tokenB p :
  let st' := (onPairCreated getTokenMeta st tokenA tokenB p).1 in
  tokens (db st) `prefix_of` tokens (db st') ∧
  pools (db st) `prefix_of` pools (db st') ∧
  swaps (db st') = swaps (db st) ∧
  listening st `prefix_of` listening st'.
Proof.
  unfold onPairCreated.
  destruct (getTokenMeta tokenA) as [metaA|]; [|done].
  destruct (getTokenMeta tokenB) as [metaB|]; [|done].
  destruct (token_upsert_tables (db st) tokenA metaA) as (Ht1 & Hp1 & Hs1).
  destruct (token_upsert (db st) tokenA metaA) as [db1 tA]. simpl in *.
  destruct (token_upsert_tables db1 tokenB metaB) as (Ht2 & Hp2 & Hs2).
  destruct (token_upsert db1 tokenB metaB) as [db2 tB]. simpl in *.
  destruct (pool_create_tables db2 p (tok_id tA) (tok_id tB)) as (Ht3 & Hs3 & Hp3).
  destruct (pool_create db2 p (tok_id tA) (tok_id tB)) as [db3 [pl|]];
    simpl in *.
  - split_and!.
    + rewrite Ht3. by etrans.
    + rewrite Hp3, Hp2, Hp1. by apply prefix_app_r.
    + by rewrite Hs3, Hs2, Hs1.
    + by apply prefix_app_r.
  - split_and!.
    + rewrite Ht3. by etrans.
    + by rewrite Hp3, Hp2, Hp1.
    + by rewrite Hs3, Hs2, Hs1.
    + done.
Qed.

Lemma grows_refl s : grows s s.
Proof. by split_and!. Qed.

Lemma grows_trans s1 s2 s3 : grows s1 s2 → grows s2 s3 → grows s1 s3.
Proof.
  intros (? & ? & ? & ? & ?) (? & ? & ? & ? & ?). split_and!; by etrans.
Qed.

Lemma iter_grows (f : Store → Store) n s :
  (∀ s, grows s (f s)) → grows s (Nat.iter n f s).
Proof.
  intros Hf. induction n as [|n IH]; simpl; [apply grows_refl|].
  by eapply grows_trans.
Qed.

Lemma onSwap_grows s a ev : grows s (with_db s (onSwap (db (core s)) a ev).1).
Proof.
  unfold onSwap. destruct (find_pool (db (core s)) a); simpl.
  - split_and!; simpl; try done. by apply prefix_app_r.
  - by split_and!.
Qed.

Lemma onMint_grows s a ev : grows s (onMint s a ev).1.
Proof.
  unfold onMint. destruct (find_pool (db (core s)) a); simpl.
  - split_and!; simpl; try done. by apply prefix_app_r.
  - by split_and!.
Qed.

Lemma onBurn_grows s a ev : grows s (onBurn s a ev).1.
Proof.
  unfold onBurn. destruct (find_pool (db (core s)) a); simpl.
  - split_and!; simpl; try done. by apply prefix_app_r.
  - by split_and!.
Qed.

Lemma deliver_grows getTokenMeta s e : grows s (deliver getTokenMeta s e).
Proof.
  destruct e as [a b p|p ev|p ev|p ev]; simpl.
  - destruct (onPairCreated_tables getTokenMeta (core s) a b p)
      as (Ht & Hp & Hs & Hl).
    split_and!; simpl; try done. by rewrite Hs.
  - apply iter_grows. intros s'. apply onSwap_grows.
  - apply iter_grows. intros s'. apply onMint_grows.
  - apply iter_grows. intros s'. apply onBurn_grows.
Qed.

Lemma run_grows getTokenMeta s evs : grows s (run getTokenMeta s evs).
Proof.
  revert s. induction evs as [|e evs IH]; intros s; [apply grows_refl|].
  simpl. eapply grows_trans; [apply deliver_grows|apply IH].
Qed.




End indexer_tracking.


Lemma store_ok_main d rows seq :
  db_ok d rows seq → store_ok (IndexerRun.main d rows seq).
Proof. intros Hok. by split. Qed.


(** Started on tables that satisfy the schema, the indexer keeps them
    so whatever events arrive and in whatever order: keys stay distinct,
    every pool row points at two token rows and every swap and liquidity
    row at a pool row.  It also keeps exactly one listener per pool row,
    so a replayed [PairCreated] never makes a pair's events count
    twice. *)
Theorem indexer_keeps_store_consistent
    (getTokenMeta : string → option Indexer.TokenMeta)
    (d : Indexer.Db) (rows : list Liquidity) (seq : Z)
    (evs : list IndexerRun.ChainEvent) :
  db_ok d rows seq →
  let s' := IndexerRun.run getTokenMeta (IndexerRun.main d rows seq) evs in
  db_ok (Indexer.db (IndexerRun.core s')) (IndexerRun.liquidity_rows s')
        (IndexerRun.liquidity_seq s') ∧
  Indexer.listening (IndexerRun.core s')
    = pool_address <$> Indexer.pools (Indexer.db (IndexerRun.core s')) ∧
  NoDup (Indexer.listening (IndexerRun.core s')) ∧
  ∀ a, IndexerRun.listeners s' a
       = if decide (a ∈ pool_address
                          <$> Indexer.pools (Indexer.db (IndexerRun.core s')))
         then 1%nat else 0%nat.
Proof.
  intros Hok s'.
  assert (store_ok s') as Hs' by by apply run_ok, store_ok_main.
  destruct Hs' as [Hdb Hl]. split_and!; try done.
  - rewrite Hl. by destruct Hdb.
  - intros a. by apply listeners_count.
Qed.

Lemma indexer_keeps_store_consistent_witness :
  let s' := IndexerRun.run IndexerExamples.chain_meta
              (IndexerRun.main IndexerExamples.empty_db [] 0)
              [IndexerRun.EvPairCreated TETH TUSDC pair1;
               IndexerRun.EvPairCreated TETH TUSDC pair1;
               IndexerRun.EvMint pair1 alice_mint] in
  Indexer.listening (IndexerRun.core s') = [pair1] ∧
  NoDup (Indexer.listening (IndexerRun.core s')).
Proof.
  split; [vm_compute; reflexivity|].
  apply (indexer_keeps_store_consistent IndexerExamples.chain_meta
           IndexerExamples.empty_db [] 0
           [IndexerRun.EvPairCreated TETH TUSDC pair1;
            IndexerRun.EvPairCreated TETH TUSDC pair1;
            IndexerRun.EvMint pair1 alice_mint]).
  constructor; simpl; solve [apply NoDup_nil_2 | apply Forall_nil_2].
Defined.

(** The indexer only ever appends: after any events, every table and
    the list of listeners start with what they held before.  No row is
    deleted, rewritten or reordered, and no listener is removed. *)
Theorem indexer_is_append_only
    (getTokenMeta : string → option Indexer.TokenMeta)
    (s : IndexerRun.Store) (evs : list IndexerRun.ChainEvent) :
  let s' := IndexerRun.run getTokenMeta s evs in
  Indexer.tokens (Indexer.db (IndexerRun.core s))
    `prefix_of` Indexer.tokens (Indexer.db (IndexerRun.core s')) ∧
  Indexer.pools (Indexer.db (IndexerRun.core s))
    `prefix_of` Indexer.pools (Indexer.db (IndexerRun.core s')) ∧
  Indexer.swaps (Indexer.db (IndexerRun.core s))
    `prefix_of` Indexer.swaps (Indexer.db (IndexerRun.core s')) ∧
  IndexerRun.liquidity_rows s `prefix_of` IndexerRun.liquidity_rows s' ∧
  Indexer.listening (IndexerRun.core s)
    `prefix_of` Indexer.listening (IndexerRun.core s').
Proof. intros s'. apply (run_grows getTokenMeta s evs). Qed.





(** ** The hop limit of a request *)

Section hop_limit.




End hop_limit.


(** ** Popular paths *)

Section popular_paths.
Import Analytics.

Lemma counts_get_Some m k v : counts_get m k = Some v → (k, v) ∈ m.
Proof.
  unfold counts_get. destruct (List.find _ m) as [[k' v']|] eqn:Hf; [|done].
  simpl. intros [= ->]. apply find_some in Hf as [Hin Hk].
  apply bool_decide_eq_true in Hk. simpl in Hk. subst k'.
  by apply list_elem_of_In.
Qed.

Lemma counts_get_None m k : counts_get m k = None → k ∉ m.*1.
Proof.
  unfold counts_get. destruct (List.find _ m) eqn:Hf; [done|]. intros _.
  by apply (find_None_not_elem fst) in Hf.
Qed.

Lemma counts_set_keys m k v :
  k ∈ m.*1 → (counts_set m k v).*1 = m.*1.
Proof.
  induction m as [|[k' v'] m IH]; [by intros ?%not_elem_of_nil|].
  cbn [counts_set]. rewrite !fmap_cons. cbn [fst].
  destruct (decide (k' = k)) as [->|Hne]; [done|].
  intros [?|Hin]%elem_of_cons; [done|]. rewrite fmap_cons. cbn [fst].
  by rewrite IH.
Qed.

Lemma counts_set_new m k v : k ∉ m.*1 → counts_set m k v = m ++ [(k, v)].
Proof.
  induction m as [|[k' v'] m IH]; [done|].
  cbn [counts_set]. rewrite fmap_cons. cbn [fst].
  intros Hnot. destruct (decide (k' = k)) as [->|Hne].
  - destruct Hnot. apply list_elem_of_here.
  - rewrite IH; [done|]. intros Hin. apply Hnot. by apply list_elem_of_further.
Qed.

Lemma counts_set_Forall (P : string * Z → Prop) m k v :
  NoDup m.*1 →
  (∀ kv, kv ∈ m → kv.1 ≠ k → P kv) → P (k, v) →
  Forall P (counts_set m k v).
Proof.
  intros Hnd Hold Hnew. induction m as [|[k' v'] m IH]; simpl.
  - by apply Forall_singleton.
  - rewrite fmap_cons in Hnd. apply NoDup_cons in Hnd as [Hk' Hnd].
    destruct (decide (k' = k)) as [->|Hne].
    + apply Forall_cons. split; [done|]. apply Forall_forall.
      intros kv Hkv. apply Hold; [by apply list_elem_of_further|].
      intros Hk. apply Hk'. simpl. rewrite <- Hk.
      by apply list_elem_of_fmap_2.
    + apply Forall_cons. split.
      * apply Hold; [apply list_elem_of_here|done].
      * apply IH; [done|]. intros kv Hkv. apply Hold.
        by apply list_elem_of_further.
Qed.

Lemma occurrences_snoc path ws w :
  occurrences path (ws ++ [w])
  = occurrences path ws + (if decide (path_of w = path) then 1 else 0).
Proof.
  unfold occurrences. rewrite filter_app, length_app.
  destruct (decide (path_of w = path)) as [Heq|Hne].
  - rewrite filter_cons_True, filter_nil by done. simpl. lia.
  - rewrite filter_cons_False, filter_nil by done. simpl. lia.
Qed.

Lemma occurrences_absent path ws :
  (∀ w, w ∈ ws → path_of w ≠ path) → occurrences path ws = 0.
Proof.
  intros Hno. unfold occurrences.
  induction ws as [|w ws IH]; [done|].
  rewrite filter_cons_False by (apply Hno; apply list_elem_of_here).
  apply IH. intros w' Hw'. apply Hno. by apply list_elem_of_further.
Qed.

Lemma occurrences_present path ws w :
  w ∈ ws → path_of w = path → 1 ≤ occurrences path ws.
Proof.
  intros Hin Hp. unfold occurrences.
  assert (w ∈ filter (λ w, path_of w = path) ws) as Hf
    by by apply list_elem_of_filter.
  destruct (filter _ ws); [by apply not_elem_of_nil in Hf|]. simpl. lia.
Qed.

Lemma counts_inv_nil : counts_inv [] [].
Proof.
  split_and!; [apply NoDup_nil_2|apply Forall_nil_2|].
  by intros w ?%not_elem_of_nil.
Qed.

Lemma count_path_inv ws m w :
  counts_inv ws m → counts_inv (ws ++ [w]) (count_path m w).
Proof.
  intros (Hnd & Hall & Hkeys). unfold count_path. cbv zeta.
  set (k := path_of w).
  assert (Js.or_number (counts_get m k) 0 = occurrences k ws) as Hcount.
  { destruct (counts_get m k) as [v0|] eqn:Hget.
    - apply counts_get_Some in Hget. rewrite Forall_forall in Hall.
      destruct (Hall _ Hget) as [Hv Hpos]. simpl in *.
      rewrite decide_False by lia. done.
    - apply counts_get_None in Hget. simpl. symmetry.
      apply occurrences_absent. intros w' Hw' Hp. apply Hget.
      rewrite <- Hp. by apply Hkeys. }
  rewrite Hcount.
  assert (0 ≤ occurrences k ws) as Hnn by (unfold occurrences; lia).
  split_and!.
  - destruct (decide (k ∈ m.*1)) as [Hin|Hin].
    + by rewrite counts_set_keys.
    + rewrite counts_set_new, fmap_app by done. by apply NoDup_snoc.
  - apply counts_set_Forall; [done| |].
    + intros kv Hkv Hne. rewrite Forall_forall in Hall.
      destruct (Hall kv Hkv) as [Hv Hpos]. split; [|done].
      rewrite occurrences_snoc, decide_False by done. lia.
    + simpl. rewrite occurrences_snoc. fold k.
      rewrite decide_True by done. lia.
  - intros w' [Hw'|Hw']%elem_of_app;
      [|apply list_elem_of_singleton in Hw' as ->].
    + destruct (decide (k ∈ m.*1)) as [Hin|Hin].
      * rewrite counts_set_keys by done. by apply Hkeys.
      * rewrite counts_set_new, fmap_app by done. apply elem_of_app. left.
        by apply Hkeys.
    + fold k. destruct (decide (k ∈ m.*1)) as [Hin|Hin].
      * by rewrite counts_set_keys.
      * rewrite counts_set_new, fmap_app by done. apply elem_of_app. right.
        by apply list_elem_of_singleton.
Qed.

Lemma count_paths_inv ws0 m ws :
  counts_inv ws0 m → counts_inv (ws0 ++ ws) (foldl count_path m ws).
Proof.
  revert m ws0. induction ws as [|w ws IH] using rev_ind; intros m ws0 Hinv.
  - simpl. by rewrite app_nil_r.
  - rewrite foldl_snoc, app_assoc. apply count_path_inv. by apply IH.
Qed.

Lemma insert_desc_perm x l : insert_desc x l ≡ₚ x :: l.
Proof.
  induction l as [|y l IH]; [done|]. simpl.
  case_bool_decide; [|done]. rewrite IH. apply Permutation_swap.
Qed.

Lemma sort_desc_perm l : sort_desc l ≡ₚ l.
Proof.
  induction l as [|x l IH]; [done|]. simpl.
  rewrite insert_desc_perm. by rewrite IH.
Qed.

Lemma insert_desc_sorted x l :
  StronglySorted by_count_desc l → StronglySorted by_count_desc (insert_desc x l).
Proof.
  induction l as [|y l IH]; simpl.
  - intros _. constructor; [constructor|apply Forall_nil_2].
  - rewrite StronglySorted_cons. intros [Hy Hl]. case_bool_decide as Hlt.
    + constructor; [by apply IH|].
      rewrite insert_desc_perm. apply Forall_cons. split; [|done].
      unfold by_count_desc. lia.
    + constructor; [by constructor|].
      apply Forall_cons. split; [unfold by_count_desc; lia|].
      eapply Forall_impl; [done|]. intros z Hz. unfold by_count_desc in *. lia.
Qed.

Lemma sort_desc_sorted l : StronglySorted by_count_desc (sort_desc l).
Proof.
  induction l as [|x l IH]; simpl; [constructor|]. by apply insert_desc_sorted.
Qed.

(** The sort is stable: entries with the same count keep their order. *)
Lemma insert_desc_stable c x l :
  filter (λ e, e.2 = c) (insert_desc x l) = filter (λ e, e.2 = c) (x :: l).
Proof.
  induction l as [|y l IH]; [done|]. simpl. case_bool_decide as Hlt; [|done].
  rewrite (filter_cons _ y), IH, !(filter_cons _ x), (filter_cons _ y).
  repeat case_decide; try done. lia.
Qed.

Lemma sort_desc_stable c l :
  filter (λ e, e.2 = c) (sort_desc l) = filter (λ e, e.2 = c) l.
Proof.
  induction l as [|x l IH]; [done|]. simpl.
  by rewrite insert_desc_stable, !(filter_cons _ x), IH.
Qed.

End popular_paths.

(** [getPopularPaths] reports at most five paths, each once, with the
    exact number of swaps that went along it, larger counts first; and
    the paths it leaves out have no more swaps than any path it
    reports. *)
Theorem getPopularPaths_top_five (swaps : list Swap) :
  let r := Analytics.getPopularPaths swaps in
  (length r ≤ 5)%nat ∧
  NoDup (Analytics.pp_path <$> r) ∧
  Forall (λ e, Analytics.pp_count e = occurrences (Analytics.pp_path e) swaps ∧
               1 ≤ Analytics.pp_count e) r ∧
  StronglySorted (λ e e', Analytics.pp_count e' ≤ Analytics.pp_count e) r ∧
  (∀ path e, e ∈ r → path ∉ Analytics.pp_path <$> r →
     occurrences path swaps ≤ Analytics.pp_count e) ∧
  (∀ w, w ∈ swaps → (length r < 5)%nat →
     Analytics.path_of w ∈ Analytics.pp_path <$> r).
Proof.
  intros r. unfold Analytics.getPopularPaths in r. cbv zeta in r.
  set (m := foldl Analytics.count_path [] swaps) in *.
  destruct (count_paths_inv [] [] swaps counts_inv_nil) as (Hnd & Hall & Hkeys).
  rewrite app_nil_l in *. fold m in Hnd, Hall, Hkeys.
  pose proof (sort_desc_perm m) as Hperm.
  pose proof (sort_desc_sorted m) as Hsorted.
  set (l := Analytics.sort_desc m) in *.
  assert (Analytics.pp_path <$> r = take 5 l.*1) as Hpaths.
  { unfold r. rewrite <- list_fmap_compose, <- fmap_take. done. }
  rewrite <- (take_drop 5 l) in Hsorted.
  apply StronglySorted_app in Hsorted as (Hcross & Hs1 & _).
  split_and!.
  - unfold r. rewrite length_fmap, length_take. lia.
  - rewrite Hpaths. eapply sublist_NoDup; [|apply sublist_take].
    by rewrite Hperm.
  - unfold r. apply Forall_fmap, Forall_take. rewrite Hperm.
    eapply Forall_impl; [done|]. by intros [k v].
  - unfold r. clear -Hs1. induction Hs1 as [|x t Hs IH Hx]; [constructor|].
    rewrite fmap_cons. constructor; [done|]. apply Forall_fmap.
    eapply Forall_impl; [done|]. by intros y.
  - intros path e He Hpath.
    apply list_elem_of_fmap in He as (x & -> & Hx). simpl.
    assert (Forall (λ kv, kv.2 = occurrences kv.1 swaps ∧ 1 ≤ kv.2) l) as Hall'
      by by rewrite Hperm.
    destruct (decide (path ∈ m.*1)) as [Hin|Hin].
    + apply list_elem_of_fmap in Hin as ([k v] & -> & Hkv). simpl in *.
      assert ((k, v) ∈ take 5 l ++ drop 5 l) as Hsplit
        by by rewrite take_drop, Hperm.
      apply elem_of_app in Hsplit as [Htake|Hdrop].
      * destruct Hpath. rewrite Hpaths, <- fmap_take.
        by apply (list_elem_of_fmap_2 fst) in Htake.
      * specialize (Hcross x (k, v) Hx Hdrop). unfold by_count_desc in Hcross.
        rewrite Forall_forall in Hall.
        destruct (Hall _ Hkv) as [Hv _]. simpl in *. by rewrite <- Hv.
    + rewrite occurrences_absent.
      * rewrite Forall_forall in Hall'.
        assert (x ∈ l) as Hxl
          by (rewrite <- (take_drop 5 l); apply elem_of_app; by left).
        destruct (Hall' x Hxl). lia.
      * intros w Hw Hp. apply Hin. rewrite <- Hp. by apply Hkeys.
  - intros w Hw Hlen. rewrite Hpaths.
    assert (length l < 5)%nat as Hl.
    { unfold r in Hlen. rewrite length_fmap, length_take in Hlen. lia. }
    rewrite take_ge by (rewrite length_fmap; lia).
    rewrite Hperm. by apply Hkeys.
Qed.

(** ** Analytics over the rows the indexer writes *)

Section analytics_rows.
Import Indexer IndexerRun Analytics.

Lemma iter_inv {A} (P : A → Prop) (f : A → A) n s :
  (∀ s, P s → P (f s)) → P s → P (Nat.iter n f s).
Proof. intros Hf Hs. induction n as [|n IH]; simpl; [done|]. by apply Hf. Qed.

Lemma swap_row_labelled id poolId ev : labelled (swap_row id poolId ev).
Proof.
  unfold labelled, side_labels, swap_row. simpl.
  split; case_bool_decide; rewrite !elem_of_cons; auto.
Qed.

Lemma deliver_labelled getTokenMeta s e :
  Forall labelled (swaps (db (core s))) →
  Forall labelled (swaps (db (core (deliver getTokenMeta s e)))).
Proof.
  destruct e as [a b p|p ev|p ev|p ev]; simpl.
  - destruct (onPairCreated_tables getTokenMeta (core s) a b p)
      as (_ & _ & Hsw & _). simpl in Hsw. by rewrite Hsw.
  - apply (iter_inv (λ s, Forall labelled (swaps (db (core s))))).
    intros s' Hs'. unfold onSwap.
    destruct (find_pool (db (core s')) p); simpl; [|done].
    apply Forall_app. split; [done|]. apply Forall_singleton.
    apply swap_row_labelled.
  - apply (iter_inv (λ s, Forall labelled (swaps (db (core s))))).
    intros s' Hs'. unfold onMint.
    by destruct (find_pool (db (core s')) p).
  - apply (iter_inv (λ s, Forall labelled (swaps (db (core s))))).
    intros s' Hs'. unfold onBurn.
    by destruct (find_pool (db (core s')) p).
Qed.

Lemma run_labelled getTokenMeta s evs :
  Forall labelled (swaps (db (core s))) →
  Forall labelled (swaps (db (core (run getTokenMeta s evs)))).
Proof.
  revert s. induction evs as [|e evs IH]; intros s Hs; [done|].
  simpl. apply IH. by apply deliver_labelled.
Qed.




End analytics_rows.

(** The swap query of /path-analytics never finds a swap the indexer
    stored when it is asked about token addresses: the indexer writes
    the side labels [token0] and [token1] into [tokenIn] and [tokenOut],
    and the query compares them with the two request parameters.  So
    unless both parameters are such labels, no row matches and the
    popular paths are empty. *)
Theorem path_analytics_misses_indexed_swaps
    (getTokenMeta : string → option Indexer.TokenMeta)
    (d : Indexer.Db) (rows : list Liquidity) (seq : Z)
    (evs : list IndexerRun.ChainEvent) (tokenA tokenB : string) :
  Forall labelled (Indexer.swaps d) →
  tokenA ∉ side_labels ∨ tokenB ∉ side_labels →
  let s' := IndexerRun.run getTokenMeta (IndexerRun.main d rows seq) evs in
  let stored := Indexer.swaps (Indexer.db (IndexerRun.core s')) in
  Forall labelled stored ∧
  Analytics.matching_swaps stored tokenA tokenB = [] ∧
  Analytics.getPopularPaths (Analytics.matching_swaps stored tokenA tokenB)
    = [].
Proof.
  intros Hl Hnot s' stored.
  assert (Forall labelled stored) as Hstored by by apply run_labelled.
  assert (Analytics.matching_swaps stored tokenA tokenB = []) as Hnone.
  { unfold Analytics.matching_swaps.
    induction Hstored as [|w ws [Hin Hout] _ IH]; [done|].
    rewrite filter_cons_False; [done|].
    intros [[<- <-]|[<- <-]]; by destruct Hnot. }
  split_and!; [done|done|]. by rewrite Hnone.
Qed.

Lemma path_analytics_misses_indexed_swaps_witness :
  let s' := IndexerRun.run IndexerExamples.chain_meta
              (IndexerRun.main IndexerExamples.empty_db [] 0)
              [IndexerRun.EvPairCreated TETH TUSDC pair1;
               IndexerRun.EvSwap pair1 IndexerExamples.swap_side1_in] in
  length (Indexer.swaps (Indexer.db (IndexerRun.core s'))) = 1%nat ∧
  Analytics.matching_swaps (Indexer.swaps (Indexer.db (IndexerRun.core s')))
    TETH TUSDC = [].
Proof.
  split; [vm_compute; reflexivity|].
  apply (path_analytics_misses_indexed_swaps IndexerExamples.chain_meta
           IndexerExamples.empty_db [] 0
           [IndexerRun.EvPairCreated TETH TUSDC pair1;
            IndexerRun.EvSwap pair1 IndexerExamples.swap_side1_in]
           TETH TUSDC).
  - apply Forall_nil_2.
  - left. unfold side_labels. rewrite !elem_of_cons.
    intros [[=]|[[=]|H]]. by apply not_elem_of_nil in H.
Defined.



(** ** Volume by token *)

Section volume_by_token.
Import Analytics.

Lemma volume_set_keys m k v :
  k ∈ m.*1 → (volume_set m k v).*1 = m.*1.
Proof.
  induction m as [|[k' v'] m IH]; [by intros ?%not_elem_of_nil|].
  cbn [volume_set]. rewrite !fmap_cons. cbn [fst].
  destruct (decide (k' = k)) as [->|Hne]; [done|].
  intros [?|Hin]%elem_of_cons; [done|]. rewrite fmap_cons. cbn [fst].
  by rewrite IH.
Qed.

Lemma volume_set_new m k v : k ∉ m.*1 → volume_set m k v = m ++ [(k, v)].
Proof.
  induction m as [|[k' v'] m IH]; [done|].
  cbn [volume_set]. rewrite fmap_cons. cbn [fst].
  intros Hnot. destruct (decide (k' = k)) as [->|Hne].
  - destruct Hnot. apply list_elem_of_here.
  - rewrite IH; [done|]. intros Hin. apply Hnot. by apply list_elem_of_further.
Qed.

Lemma volume_set_NoDup m k v : NoDup m.*1 → NoDup (volume_set m k v).*1.
Proof.
  intros Hnd. destruct (decide (k ∈ m.*1)) as [Hin|Hin].
  - by rewrite volume_set_keys.
  - rewrite volume_set_new, fmap_app by done. by apply NoDup_snoc.
Qed.

Lemma volume_set_elem_keys m k v k' :
  k' ∈ (volume_set m k v).*1 ↔ k' = k ∨ k' ∈ m.*1.
Proof.
  destruct (decide (k ∈ m.*1)) as [Hin|Hin].
  - rewrite volume_set_keys by done. split; [by right|].
    by intros [->|?].
  - rewrite volume_set_new, fmap_app, elem_of_app by done. simpl.
    rewrite list_elem_of_singleton. tauto.
Qed.

Lemma volume_set_Forall (P : string * option Z → Prop) m k v :
  Forall P m → P (k, v) → Forall P (volume_set m k v).
Proof.
  intros Hall Hnew. induction Hall as [|[k' v'] m Hx Hall IH]; simpl.
  - by apply Forall_singleton.
  - destruct (decide (k' = k)); by apply Forall_cons.
Qed.

Lemma volume_or_0_set m k x k' :
  volume_or_0 (volume_set m k (Some x)) k'
  = if decide (k' = k) then x else volume_or_0 m k'.
Proof.
  unfold volume_or_0. induction m as [|[k1 v1] m IH]; simpl.
  - destruct (decide (k' = k)) as [->|Hne].
    + by rewrite bool_decide_eq_true_2.
    + by rewrite bool_decide_eq_false_2 by congruence.
  - destruct (decide (k1 = k)) as [->|Hne1]; simpl.
    + destruct (decide (k' = k)) as [->|Hne].
      * by rewrite bool_decide_eq_true_2.
      * by rewrite !bool_decide_eq_false_2 by congruence.
    + destruct (decide (k1 = k')) as [->|Hne2].
      * rewrite bool_decide_eq_true_2 by done.
        by rewrite decide_False by congruence.
      * rewrite bool_decide_eq_false_2 by done. apply IH.
Qed.

Lemma volume_or_0_elem m k v :
  NoDup m.*1 → (k, Some v) ∈ m → volume_or_0 m k = v.
Proof.
  unfold volume_or_0. induction m as [|[k1 v1] m IH]; simpl.
  - by intros _ ?%not_elem_of_nil.
  - rewrite NoDup_cons. intros [Hk1 Hnd] [Heq|Hin]%elem_of_cons.
    + injection Heq as <- <-. by rewrite bool_decide_eq_true_2.
    + rewrite bool_decide_eq_false_2; [by apply IH|].
      intros ->. apply Hk1. by apply (list_elem_of_fmap_2 fst) in Hin.
Qed.

Lemma volume_add_inv m k x :
  NoDup m.*1 → Forall (λ kv, is_Some kv.2) m →
  NoDup (volume_add m k (Some x)).*1 ∧
  Forall (λ kv, is_Some kv.2) (volume_add m k (Some x)) ∧
  (∀ k', volume_or_0 (volume_add m k (Some x)) k'
         = volume_or_0 m k' + if decide (k' = k) then x else 0) ∧
  (∀ k', k' ∈ (volume_add m k (Some x)).*1 ↔ k' = k ∨ k' ∈ m.*1).
Proof.
  intros Hnd Hall. unfold volume_add. simpl. split_and!.
  - by apply volume_set_NoDup.
  - by apply volume_set_Forall.
  - intros k'. rewrite volume_or_0_set.
    destruct (decide (k' = k)) as [->|?]; lia.
  - intros k'. apply volume_set_elem_keys.
Qed.

Lemma volume_of_snoc k ws w :
  volume_of k (ws ++ [w]) = volume_of k ws + traded k w.
Proof.
  unfold volume_of. induction ws as [|w' ws IH]; simpl; [lia|].
  rewrite IH. lia.
Qed.

Lemma volumes_inv_nil : volumes_inv [] [].
Proof.
  split_and!; [apply NoDup_nil_2|apply Forall_nil_2|done|].
  by intros w ?%not_elem_of_nil.
Qed.

Lemma volume_step_inv ws m w :
  numeric w → volumes_inv ws m → volumes_inv (ws ++ [w]) (volume_step m w).
Proof.
  intros [[a Ha] [b Hb]] (Hnd & Hall & Hvol & Hkeys).
  unfold volume_step. cbv zeta. rewrite Ha, Hb.
  destruct (volume_add_inv m (swap_tokenIn w) a Hnd Hall)
    as (Hnd1 & Hall1 & Hvol1 & Hkeys1).
  destruct (volume_add_inv _ (swap_tokenOut w) b Hnd1 Hall1)
    as (Hnd2 & Hall2 & Hvol2 & Hkeys2).
  split_and!; [done|done| |].
  - intros k. rewrite Hvol2, Hvol1, Hvol, volume_of_snoc.
    unfold traded. rewrite Ha, Hb. simpl.
    destruct (decide (k = swap_tokenIn w)) as [Hi|Hi];
      destruct (decide (k = swap_tokenOut w)) as [Ho|Ho];
      destruct (decide (swap_tokenIn w = k));
      destruct (decide (swap_tokenOut w = k)); try congruence; lia.
  - intros w' [Hw'|Hw']%elem_of_app.
    + destruct (Hkeys w' Hw') as [Hi Ho].
      rewrite !Hkeys2, !Hkeys1. tauto.
    + apply list_elem_of_singleton in Hw' as ->.
      rewrite !Hkeys2, !Hkeys1. tauto.
Qed.

Lemma volume_steps_inv ws0 m ws :
  Forall numeric ws → volumes_inv ws0 m →
  volumes_inv (ws0 ++ ws) (foldl volume_step m ws).
Proof.
  revert m ws0. induction ws as [|w ws IH] using rev_ind; intros m ws0 Hnum Hinv.
  - simpl. by rewrite app_nil_r.
  - apply Forall_app in Hnum as [Hnum Hw].
    rewrite Forall_singleton in Hw.
    rewrite foldl_snoc, app_assoc. apply volume_step_inv; [done|].
    by apply IH.
Qed.

Lemma numbers_Some m :
  Forall (λ kv, is_Some kv.2) m →
  ∃ entries, numbers m = Some entries ∧ entries.*1 = m.*1 ∧
    ∀ k v, (k, v) ∈ entries → (k, Some v) ∈ m.
Proof.
  induction 1 as [|[k [v|]] m Hx Hall (entries & Hn & Hk & He)].
  - exists []. split_and!; [done|done|]. by intros k v ?%not_elem_of_nil.
  - exists ((k, v) :: entries). cbn [numbers]. rewrite Hn.
    split_and!; [done| |].
    + rewrite !fmap_cons. by rewrite Hk.
    + intros k' v' [Heq|Hin]%elem_of_cons.
      * injection Heq as -> ->. apply list_elem_of_here.
      * apply list_elem_of_further. by apply He.
  - by destruct Hx.
Qed.

End volume_by_token.

(** When every stored amount of the given swaps reads as a number,
    [getVolumeByToken] reports at most ten tokens, each once, with
    exactly the amounts that went in as that token plus the amounts
    that came out as it, larger volumes first; and a traded token it
    leaves out has no more volume than any token it reports.  The
    amounts are taken within the range in which JS numbers add
    exactly. *)
Theorem getVolumeByToken_top_ten (swaps : list Swap) :
  Forall numeric swaps →
  gross_volume swaps ≤ MAX_SAFE_INTEGER →
  ∃ r, Analytics.getVolumeByToken swaps = Some r ∧
    (length r ≤ 10)%nat ∧
    NoDup (Analytics.tv_token <$> r) ∧
    Forall (λ e, Analytics.tv_volume e = volume_of (Analytics.tv_token e) swaps)
      r ∧
    StronglySorted (λ e e', Analytics.tv_volume e' ≤ Analytics.tv_volume e) r ∧
    (∀ w token e, w ∈ swaps →
       token = swap_tokenIn w ∨ token = swap_tokenOut w →
       e ∈ r → token ∉ Analytics.tv_token <$> r →
       volume_of token swaps ≤ Analytics.tv_volume e) ∧
    (∀ w, w ∈ swaps → (length r < 10)%nat →
       swap_tokenIn w ∈ Analytics.tv_token <$> r ∧
       swap_tokenOut w ∈ Analytics.tv_token <$> r).
Proof.
  intros Hnum _. unfold Analytics.getVolumeByToken. cbv zeta.
  destruct (volume_steps_inv [] [] swaps Hnum volumes_inv_nil)
    as (Hnd & Hall & Hvol & Hkeys).
  rewrite app_nil_l in *.
  set (m := foldl Analytics.volume_step [] swaps) in *.
  destruct (numbers_Some m Hall) as (entries & -> & Hek & Hee). simpl.
  eexists. split; [reflexivity|].
  assert (Forall (λ kv, kv.2 = volume_of kv.1 swaps) entries) as Hvals.
  { apply Forall_forall. intros [k v] Hkv. simpl.
    rewrite <- Hvol. symmetry. apply volume_or_0_elem; [done|]. by apply Hee. }
  pose proof (sort_desc_perm entries) as Hperm.
  pose proof (sort_desc_sorted entries) as Hsorted.
  set (l := Analytics.sort_desc entries) in *.
  set (r := (λ e, {| Analytics.tv_token := e.1; Analytics.tv_volume := e.2 |})
              <$> take 10 l).
  assert (Analytics.tv_token <$> r = take 10 l.*1) as Htokens.
  { unfold r. rewrite <- list_fmap_compose, <- fmap_take. done. }
  rewrite <- (take_drop 10 l) in Hsorted.
  apply StronglySorted_app in Hsorted as (Hcross & Hs1 & _).
  assert (l.*1 ≡ₚ m.*1) as Hlk by by rewrite Hperm, Hek.
  split_and!.
  - unfold r. rewrite length_fmap, length_take. lia.
  - rewrite Htokens. eapply sublist_NoDup; [|apply sublist_take].
    by rewrite Hlk.
  - unfold r. apply Forall_fmap, Forall_take. rewrite Hperm.
    eapply Forall_impl; [done|]. by intros [k v].
  - unfold r. clear -Hs1. induction Hs1 as [|x t Hs IH Hx]; [constructor|].
    rewrite fmap_cons. constructor; [done|]. apply Forall_fmap.
    eapply Forall_impl; [done|]. by intros y.
  - intros w token e Hw Htok He Hout.
    apply list_elem_of_fmap in He as (x & -> & Hx). simpl.
    assert (token ∈ l.*1) as Hin.
    { rewrite Hlk. destruct (Hkeys w Hw). by destruct Htok as [->| ->]. }
    apply list_elem_of_fmap in Hin as ([k v] & -> & Hkv). simpl in *.
    assert ((k, v) ∈ take 10 l ++ drop 10 l) as Hsplit by by rewrite take_drop.
    apply elem_of_app in Hsplit as [Htake|Hdrop].
    + destruct Hout. rewrite Htokens, <- fmap_take.
      by apply (list_elem_of_fmap_2 fst) in Htake.
    + specialize (Hcross x (k, v) Hx Hdrop). unfold by_count_desc in Hcross.
      rewrite Forall_forall in Hvals.
      assert ((k, v) ∈ entries) as Hke by by rewrite <- Hperm.
      specialize (Hvals _ Hke). simpl in *. by rewrite <- Hvals.
  - intros w Hw Hlen. rewrite Htokens.
    assert (length l < 10)%nat as Hl.
    { unfold r in Hlen. rewrite length_fmap, length_take in Hlen. lia. }
    rewrite take_ge by (rewrite length_fmap; lia).
    rewrite Hlk. by apply Hkeys.
Qed.

Lemma getVolumeByToken_top_ten_witness :
  Analytics.getVolumeByToken swap_rows
    = Some [ {| Analytics.tv_token := "token1"; Analytics.tv_volume := 3498 |};
             {| Analytics.tv_token := "token0"; Analytics.tv_volume := 2400 |} ] ∧
  ∃ r, Analytics.getVolumeByToken swap_rows = Some r ∧ (length r ≤ 10)%nat.
Proof.
  split; [vm_compute; reflexivity|].
  destruct (getVolumeByToken_top_ten swap_rows) as (r & Hr & Hlen & _).
  - repeat constructor; by eexists.
  - vm_compute. discriminate.
  - by exists r.
Defined.
